(** * KernCallArgList: the LFRic kernel-call argument orderer

    A shallow embedding of [psyclone/domain/lfric/kern_call_arg_list.py].
    The class keeps two parallel argument lists (strings and PSyIR nodes),
    optionally logs variable accesses, and remembers the positions of the
    nlayers, quadrature-point and ndf arguments.  Methods are embedded as
    computations in a state-and-exception monad over the object and the
    access log; a raised exception leaves the mutations made so far in
    place, as in Python. *)

From Stdlib Require Import List String ZArith Lia Bool DecimalString.
Import ListNotations.
Open Scope string_scope.
Open Scope list_scope.

Set Implicit Arguments.
Set Warnings "-register-all".

(** ** Inputs: function spaces, kernel arguments, quadrature rules, kernels *)

(** Modelled from the spec: [AccessType] is imported from [psyclone.core];
    the spec lists the access kinds read, write, read-write and increment. *)
Inductive AccessType := READ | WRITE | READWRITE | INC.

(** [ScalarType.Intrinsic], the two members used by this file. *)
Inductive Intrinsic := INTEGER | REAL.

(** The attributes of [psyclone.domain.lfric.FunctionSpace] read here. *)
Record FunctionSpace := {
  orig_name : string;
  ndf_name : string;
  undf_name : string;
  map_name : string
}.

(** The attributes of [DynKernelArgument] read here. *)
Record Arg := {
  name : string;
  proxy_name : string;
  proxy_name_indexed : string;
  module_name : string;
  proxy_data_type : string;
  access : AccessType;
  metadata_index : nat;
  vector_size : Z;
  is_literal : bool;
  is_field : bool;
  argument_type : string;
  mesh : string;
  function_space_to : FunctionSpace;
  function_space_from : FunctionSpace;
  direction_arg_varname : string
}.

(** A quadrature rule: [rule.psy_name] and [rule.kernel_args]. *)
Record QrRule := {
  psy_name : string;
  kernel_args : list string
}.

(** The attributes of the kernel [self._kern] read here. Python dictionaries
    are kept as association lists in insertion order, which is the order
    [items()], [values()] and iteration over the keys follow. *)
Record Kern := {
  kern_name : string;
  iterates_over : string;
  is_coloured : bool;
  colourmap : string;
  qr_rules : list (string * QrRule);
  eval_shapes : list string;
  eval_targets : list (string * (FunctionSpace * Arg));
  args : list Arg;
  unique_fss : list FunctionSpace;
  get_arg_on_space : option FunctionSpace -> option Arg;
  mesh_properties_requested : bool
}.

(** ** PSyIR symbols and reference nodes *)

Inductive SymbolType := ContainerSymbol | DataTypeSymbol | DataSymbol.

Record Symbol := {
  sym_name : string;
  symbol_type : SymbolType
}.

Inductive ScalarDataType := INTEGER_SINGLE_TYPE.

(** The node classes built here. A colon in an index list is [Range];
    [Parsed] is whatever the Fortran reader returns for a literal. *)
Inductive Node :=
| Reference (sym : Symbol)
| Range
| ArrayReference (sym : Symbol) (indices : list Node)
| StructureReference (sym : Symbol) (members : list string)
| ArrayOfStructuresReference (sym : Symbol) (indices : list Node)
    (members : list string)
| Literal (value : string) (datatype : ScalarDataType)
| Parsed (text : string).

(** What [new_symbol] is asked to declare: a container, a variable of a
    user type, or an array of a user type with the given shape. *)
Inductive Declared :=
| AsContainer
| OfUserType (user_type : Symbol)
| ArrayOfUserType (user_type : Symbol) (shape : list Node).

(** ** The access ledger *)

(** [Signature(name)], keeping the text it was built from. *)
Inductive Signature := Sig (variable : string).

(** Modelled from the spec: [VariablesAccessInfo] is imported from
    [psyclone.core]; the spec describes it as an append-only log of events,
    each with a signature, an access kind, the originating kernel and an
    optional component path. *)
Record AccessEvent := {
  signature : Signature;
  access_kind : AccessType;
  kernel : string;
  component_indices : option (list string)
}.

Definition VariablesAccessInfo := list AccessEvent.

(** ** Exceptions *)

Inductive Exception :=
| InternalError (msg : string)
| GenerationError (msg : string)
| NotImplementedError (msg : string)
| KeyError (key : string)
| IndexError
| AttributeError
| FieldNotFoundError.

Inductive Result (A : Type) :=
| Ok (a : A)
| Raise (e : Exception).

Arguments Raise {A} e.

(** ** Python helpers *)

(** String concatenation, kept apart from list concatenation. *)
Infix "+++" := String.append (right associativity, at level 60).

(** [str(n)] for an integer. *)
Definition str (z : Z) : string := NilZero.string_of_int (Z.to_int z).

(** [range(lo, hi)]. *)
Definition range (lo hi : Z) : list Z :=
  map (fun i => lo + Z.of_nat i)%Z (seq 0 (Z.to_nat (hi - lo))).

(** [x in l] for a list of strings. *)
Definition str_in (x : string) (l : list string) : bool :=
  existsb (String.eqb x) l.

(** [s[:-k]] for [k >= 1]: everything but the last [k] characters, and the
    empty string when [s] is shorter than [k]. *)
Definition drop_last (k : nat) (s : string) : string :=
  substring 0 (String.length s - k) s.

(** Truthiness of an optional string: [None] and the empty string are
    false. *)
Definition truthy (o : option string) : option string :=
  match o with
  | Some s => if s =? "" then None else Some s
  | None => None
  end.

(** ** The object and the world it runs in *)

Record NdfInfo := {
  position : nat;
  function_space : string
}.

Section Orderer.

Context {SymbolTable : Type}.

(** The attributes of a [KernCallArgList] instance. [_kern],
    [_generate_called], [_arglist], [_psyir_arglist] and [_symtab] belong
    to the base class [ArgOrdering]. *)
Record KernCallArgList := {
  _kern : Kern;
  _generate_called : bool;
  _arglist : list string;
  _psyir_arglist : list Node;
  _symtab : SymbolTable;
  _nlayers_positions : list nat;
  _nqp_positions : list (list (string * nat));
  _ndf_positions : list NdfInfo
}.

(** The orderer together with the one access log a caller may pass as
    [var_accesses]. A method's [var_accesses] parameter is [true] when that
    log is passed and [false] when it is [None]. *)
Record World := {
  self : KernCallArgList;
  accesses : VariablesAccessInfo
}.

Definition M (A : Type) : Type := World -> Result A * World.

Definition ret {A} (a : A) : M A := fun w => (Ok a, w).

Definition raise {A} (e : Exception) : M A := fun w => (Raise e, w).

Definition bind {A B} (m : M A) (f : A -> M B) : M B :=
  fun w =>
    match m w with
    | (Ok a, w') => f a w'
    | (Raise e, w') => (Raise e, w')
    end.

Notation "x <- m ;; k" := (bind m (fun x => k))
  (at level 61, m at next level, right associativity).
Notation "m ;; k" := (bind m (fun _ => k))
  (at level 61, right associativity).

(** [for x in xs: body(x)]. *)
Fixpoint for_each {A} (xs : list A) (body : A -> M unit) : M unit :=
  match xs with
  | [] => ret tt
  | x :: rest => body x ;; for_each rest body
  end.

Definition get_self : M KernCallArgList := fun w => (Ok (self w), w).

Definition update_self (f : KernCallArgList -> KernCallArgList) : M unit :=
  fun w => (Ok tt, {| self := f (self w); accesses := accesses w |}).

Definition set_generate_called (b : bool) (s : KernCallArgList) :=
  {| _kern := _kern s; _generate_called := b; _arglist := _arglist s;
     _psyir_arglist := _psyir_arglist s; _symtab := _symtab s;
     _nlayers_positions := _nlayers_positions s;
     _nqp_positions := _nqp_positions s;
     _ndf_positions := _ndf_positions s |}.

Definition set_arglist (l : list string) (s : KernCallArgList) :=
  {| _kern := _kern s; _generate_called := _generate_called s;
     _arglist := l;
     _psyir_arglist := _psyir_arglist s; _symtab := _symtab s;
     _nlayers_positions := _nlayers_positions s;
     _nqp_positions := _nqp_positions s;
     _ndf_positions := _ndf_positions s |}.

Definition set_psyir_arglist (l : list Node) (s : KernCallArgList) :=
  {| _kern := _kern s; _generate_called := _generate_called s;
     _arglist := _arglist s;
     _psyir_arglist := l; _symtab := _symtab s;
     _nlayers_positions := _nlayers_positions s;
     _nqp_positions := _nqp_positions s;
     _ndf_positions := _ndf_positions s |}.

Definition set_symtab (t : SymbolTable) (s : KernCallArgList) :=
  {| _kern := _kern s; _generate_called := _generate_called s;
     _arglist := _arglist s;
     _psyir_arglist := _psyir_arglist s; _symtab := t;
     _nlayers_positions := _nlayers_positions s;
     _nqp_positions := _nqp_positions s;
     _ndf_positions := _ndf_positions s |}.

Definition set_nlayers_positions (l : list nat) (s : KernCallArgList) :=
  {| _kern := _kern s; _generate_called := _generate_called s;
     _arglist := _arglist s;
     _psyir_arglist := _psyir_arglist s; _symtab := _symtab s;
     _nlayers_positions := l;
     _nqp_positions := _nqp_positions s;
     _ndf_positions := _ndf_positions s |}.

Definition set_nqp_positions (l : list (list (string * nat)))
    (s : KernCallArgList) :=
  {| _kern := _kern s; _generate_called := _generate_called s;
     _arglist := _arglist s;
     _psyir_arglist := _psyir_arglist s; _symtab := _symtab s;
     _nlayers_positions := _nlayers_positions s;
     _nqp_positions := l;
     _ndf_positions := _ndf_positions s |}.

Definition set_ndf_positions (l : list NdfInfo) (s : KernCallArgList) :=
  {| _kern := _kern s; _generate_called := _generate_called s;
     _arglist := _arglist s;
     _psyir_arglist := _psyir_arglist s; _symtab := _symtab s;
     _nlayers_positions := _nlayers_positions s;
     _nqp_positions := _nqp_positions s;
     _ndf_positions := l |}.

(** Run a symbol-table operation on [self._symtab] and keep the table it
    leaves. *)
Definition with_symtab {A} (op : SymbolTable -> A * SymbolTable) : M A :=
  fun w =>
    let (a, t) := op (_symtab (self w)) in
    (Ok a, {| self := set_symtab t (self w); accesses := accesses w |}).

(** [var_accesses.add_access(signature, mode, self._kern, indices)]. *)
Definition add_access (sig : Signature) (mode : AccessType)
    (indices : option (list string)) : M unit :=
  fun w =>
    (Ok tt,
     {| self := self w;
        accesses := accesses w ++
          [{| signature := sig; access_kind := mode;
              kernel := kern_name (_kern (self w));
              component_indices := indices |}] |}).

(** ** The symbol table and the other collaborators

    The symbol table, [psyGen.args_filter], the stencil helpers of
    [DynStencils], the constants of [DynCMAOperators] and [LFRicConstants],
    the Fortran reader, the basis-name methods of a function space and
    [LFRicMeshProperties.kern_args] live outside this file; the orderer only
    calls them.  They are an interface here, and every result below holds
    for any implementation of it. [None] from [psyir_from_expression]
    stands for its [SymbolError]. *)
Class Collaborators := {
  lookup_with_tag : SymbolTable -> string -> option Symbol;
  lookup : SymbolTable -> string -> option Symbol;
  new_symbol :
    SymbolTable -> string -> option string -> Declared -> Symbol * SymbolTable;
  find_or_create_type :
    SymbolTable -> Symbol -> string -> Symbol * SymbolTable;
  find_or_create_integer_symbol :
    SymbolTable -> string -> option string -> Symbol * SymbolTable;
  find_or_create_array :
    SymbolTable -> string -> nat -> Intrinsic -> string -> Symbol * SymbolTable;
  args_filter : list Arg -> list string -> list Arg;
  dofmap_size_symbol : SymbolTable -> Arg -> Symbol * SymbolTable;
  dofmap_symbol : SymbolTable -> Arg -> Symbol * SymbolTable;
  stencil_unique_str : Arg -> string -> string;
  cma_same_fs_params : list string;
  cma_diff_fs_params : list string;
  operator_module : string;
  operator_proxy_type : string;
  VALID_FIELD_NAMES : string;
  psyir_from_expression : string -> option Node;
  get_basis_name :
    FunctionSpace -> option string -> option FunctionSpace -> string;
  get_diff_basis_name :
    FunctionSpace -> option string -> option FunctionSpace -> string;
  kern_args : bool -> M (list string)
}.

Context {C : Collaborators}.

(** ** The base class [ArgOrdering] *)

(** Modelled from the spec: [ArgOrdering.__init__] is not in this file. A
    new orderer is Open, with nothing emitted and no position recorded. *)
Definition __init__ (kern : Kern) (symtab : SymbolTable) : KernCallArgList :=
  {| _kern := kern; _generate_called := false; _arglist := [];
     _psyir_arglist := []; _symtab := symtab; _nlayers_positions := [];
     _nqp_positions := []; _ndf_positions := [] |}.

(** Modelled from the spec: [ArgOrdering.psyir_append] is not in this file;
    it pushes one node onto the reference tree. *)
Definition psyir_append (node : Node) : M unit :=
  update_self (fun s => set_psyir_arglist (_psyir_arglist s ++ [node]) s).

(** Modelled from the spec: [ArgOrdering.append] is not in this file. It
    pushes one entry onto the flat list and, when an access log is passed,
    records one access under [var_access_name] if that is given and under
    the entry's own text otherwise. The map from argument index to
    [metadata_posn] that the base class also keeps is left out: nothing
    here reads it. *)
Definition append (var_name : string) (var_accesses : bool)
    (var_access_name : option string) (mode : AccessType)
    (metadata_posn : option nat) : M unit :=
  update_self (fun s => set_arglist (_arglist s ++ [var_name]) s) ;;
  if var_accesses then
    match truthy var_access_name with
    | Some n => add_access (Sig n) mode None
    | None => add_access (Sig var_name) mode None
    end
  else ret tt.

(** Modelled from the spec: [ArgOrdering.extend] is not in this file. It
    pushes every entry of the list onto the flat list and, when an access
    log is passed, records a read of each. *)
Definition extend (list_var_name : list string) (var_accesses : bool)
    : M unit :=
  update_self (fun s => set_arglist (_arglist s ++ list_var_name) s) ;;
  if var_accesses then
    for_each list_var_name (fun v => add_access (Sig v) READ None)
  else ret tt.

(** Modelled from the spec: [ArgOrdering.num_args] is not in this file; it
    is the length of the flat list. *)
Definition num_args : M nat :=
  s <- get_self ;; ret (List.length (_arglist s)).

(** Modelled from the spec: [ArgOrdering.append_integer_reference] is not
    in this file. It finds or creates the integer symbol and pushes a plain
    reference to it onto the reference tree. *)
Definition append_integer_reference (name : string) (tag : option string)
    : M Symbol :=
  let tag := match tag with Some t => t | None => name end in
  sym <- with_symtab
           (fun t => find_or_create_integer_symbol t name (Some tag)) ;;
  psyir_append (Reference sym) ;;
  ret sym.

(** Modelled from the spec: [ArgOrdering.get_array_reference] is not in
    this file. It finds or creates the array symbol, unless one is given,
    and returns an array reference with the given indices. *)
Definition get_array_reference (array_name : string) (indices : list Node)
    (intrinsic_type : Intrinsic) (symbol : option Symbol) : M Node :=
  match symbol with
  | None =>
      sym <- with_symtab
               (fun t => find_or_create_array t array_name (List.length indices)
                           intrinsic_type array_name) ;;
      ret (ArrayReference sym indices)
  | Some sym =>
      if sym_name sym =? array_name then ret (ArrayReference sym indices)
      else raise (InternalError
                    ("Specified symbol '" +++ sym_name sym +++
                     "' has a different name than the specified array name '"
                     +++ array_name +++ "'."))
  end.

(** [ref.symbol]. *)
Definition symbol_of (ref : Node) : M Symbol :=
  match ref with
  | Reference sym | ArrayReference sym _ | StructureReference sym _
  | ArrayOfStructuresReference sym _ _ => ret sym
  | _ => raise AttributeError
  end.

(** Modelled from the spec: [ArgOrdering.append_array_reference] is not in
    this file. It pushes the array reference onto the reference tree and
    returns its symbol. *)
Definition append_array_reference (array_name : string)
    (indices : list Node) (intrinsic_type : Intrinsic)
    (symbol : option Symbol) : M Symbol :=
  ref <- get_array_reference array_name indices intrinsic_type symbol ;;
  psyir_append ref ;;
  symbol_of ref.

(** Modelled from the spec: [ArgOrdering.scalar] is not in this file. It
    pushes the scalar's name onto the flat list. A literal records no
    access; a named scalar records one with the access mode that its
    metadata declares. *)
Definition ArgOrdering_scalar (scalar_arg : Arg) (var_accesses : bool)
    : M unit :=
  if is_literal scalar_arg then
    append (name scalar_arg) false None READ None
  else
    append (name scalar_arg) var_accesses None (access scalar_arg)
      (Some (metadata_index scalar_arg)).

(** Modelled from the spec: [ArgOrdering.fs_common] is not in this file. It
    emits the degree-of-freedom count of the function space. *)
Definition ArgOrdering_fs_common (function_space : FunctionSpace)
    (var_accesses : bool) : M unit :=
  sym <- append_integer_reference (ndf_name function_space) None ;;
  append (sym_name sym) var_accesses None READ None.

(** ** The methods of [KernCallArgList] *)

Definition get_user_type (module_name user_type name : string)
    (tag : option string) (shape : list Node) : M Symbol :=
  let tag := match truthy tag with Some t => t | None => name end in
  s <- get_self ;;
  match lookup_with_tag (_symtab s) tag with
  | Some sym => ret sym
  | None =>
      module <- match lookup (_symtab s) module_name with
                | Some m => ret m
                | None =>
                    with_symtab
                      (fun t => new_symbol t module_name None AsContainer)
                end ;;
      user_type_symbol <-
        with_symtab (fun t => find_or_create_type t module user_type) ;;
      match shape with
      | _ :: _ =>
          with_symtab
            (fun t => new_symbol t name (Some tag)
                        (ArrayOfUserType user_type_symbol shape))
      | [] =>
          with_symtab
            (fun t => new_symbol t name (Some tag)
                        (OfUserType user_type_symbol))
      end
  end.

Definition append_user_type (module_name user_type : string)
    (member_list : list string) (name : string) (tag : option string)
    : M Symbol :=
  sym <- get_user_type module_name user_type name tag [] ;;
  psyir_append (StructureReference sym member_list) ;;
  ret sym.

Definition cell_ref_name (var_accesses : bool) : M (string * Node) :=
  cell_sym <- with_symtab
                (fun t => find_or_create_integer_symbol t "cell"
                            (Some "cell_loop_idx")) ;;
  s <- get_self ;;
  if is_coloured (_kern s) then
    colour_sym <- with_symtab
                    (fun t => find_or_create_integer_symbol t "colour"
                                (Some "colours_loop_idx")) ;;
    array_ref <- get_array_reference "cmap"
                   [Reference colour_sym; Reference cell_sym] INTEGER None ;;
    (if var_accesses then
       add_access (Sig (sym_name colour_sym)) READ None ;;
       add_access (Sig (sym_name cell_sym)) READ None ;;
       array_sym <- symbol_of array_ref ;;
       add_access (Sig (sym_name array_sym)) READ (Some ["colour"; "cell"])
     else ret tt) ;;
    ret (colourmap (_kern s) +++ "(colour,cell)", array_ref)
  else
    (if var_accesses then add_access (Sig "cell") READ None else ret tt) ;;
    ret (sym_name cell_sym, Reference cell_sym).

Definition cell_position (var_accesses : bool) : M unit :=
  r <- cell_ref_name var_accesses ;;
  let (cell_ref_name, ref) := r in
  psyir_append ref ;;
  append cell_ref_name false None READ None.

(** [l[0]]. *)
Definition first {A} (l : list A) : M A :=
  match l with
  | x :: _ => ret x
  | [] => raise IndexError
  end.

Definition cell_map (var_accesses : bool) : M unit :=
  s <- get_self ;;
  carg <- first (args_filter (args (_kern s)) ["gh_coarse"]) ;;
  farg <- first (args_filter (args (_kern s)) ["gh_fine"]) ;;
  let base_name := "cell_map_" +++ name carg in
  r <- cell_ref_name var_accesses ;;
  let (cell_ref_name, cell_ref) := r in
  sym <- append_array_reference base_name [Range; Range; cell_ref]
           INTEGER None ;;
  append (sym_name sym +++ "(:,:," +++ cell_ref_name +++ ")") var_accesses
    None READ None ;;
  let base_name := "ncpc_" +++ name farg +++ "_" +++ name carg +++ "_x" in
  sym <- append_integer_reference base_name None ;;
  append (sym_name sym) var_accesses None READ None ;;
  let base_name := "ncpc_" +++ name farg +++ "_" +++ name carg +++ "_y" in
  sym <- append_integer_reference base_name None ;;
  append (sym_name sym) var_accesses None READ None ;;
  let base_name := "ncell_" +++ name farg in
  sym <- append_integer_reference base_name None ;;
  append (sym_name sym) var_accesses None READ None.

Definition mesh_height (var_accesses : bool) : M unit :=
  s <- get_self ;;
  if negb (str_in (iterates_over (_kern s)) ["cell_column"; "domain"]) then
    ret tt
  else
    nlayers_symbol <- append_integer_reference "nlayers" None ;;
    append (sym_name nlayers_symbol) var_accesses None READ None ;;
    n <- num_args ;;
    update_self
      (fun s => set_nlayers_positions (_nlayers_positions s ++ [n]) s).

Definition scalar (scalar_arg : Arg) (var_accesses : bool) : M unit :=
  ArgOrdering_scalar scalar_arg var_accesses ;;
  if is_literal scalar_arg then
    let literal_string := name scalar_arg in
    match psyir_from_expression literal_string with
    | Some literal => psyir_append literal
    | None =>
        s <- get_self ;;
        raise (InternalError
                 ("Unexpected literal expression '" +++ literal_string +++
                  "' in scalar() when processing kernel '" +++
                  kern_name (_kern s) +++ "'."))
    end
  else
    s <- get_self ;;
    match lookup (_symtab s) (name scalar_arg) with
    | Some sym => psyir_append (Reference sym)
    | None => raise (KeyError (name scalar_arg))
    end.

Definition _mesh_ncell2d (var_accesses : bool) : M unit :=
  sym <- append_integer_reference "ncell_2d" None ;;
  append (sym_name sym) var_accesses None READ None.

Definition _mesh_ncell2d_no_halos (var_accesses : bool) : M unit :=
  ncell_symbol <- append_integer_reference "ncell_2d_no_halos" None ;;
  append (sym_name ncell_symbol) var_accesses None READ None.

(** The body of the loop of [cma_operator], for one component. *)
Definition cma_operator_component (arg : Arg) (var_accesses : bool)
    (component : string) : M unit :=
  let name := name arg +++ "_" +++ component in
  r <- (if component =? "matrix" then
          sym <- append_array_reference name [Range; Range; Range]
                   REAL None ;;
          ret (access arg, sym)
        else
          sym <- append_integer_reference name None ;;
          ret (READ, sym)) ;;
  let (mode, sym) := r in
  append (sym_name sym) var_accesses None mode (Some (metadata_index arg)).

Definition cma_operator (arg : Arg) (var_accesses : bool) : M unit :=
  let components :=
    ["matrix"] ++
    (if negb (orig_name (function_space_to arg) =?
              orig_name (function_space_from arg))
     then cma_diff_fs_params else cma_same_fs_params) in
  for_each components (cma_operator_component arg var_accesses).

Definition field_vector (argvect : Arg) (var_accesses : bool) : M unit :=
  let lit_ind := Literal (str (vector_size argvect)) INTEGER_SINGLE_TYPE in
  sym <- get_user_type (module_name argvect) (proxy_data_type argvect)
           (proxy_name argvect) None [lit_ind] ;;
  for_each (range 1 (vector_size argvect + 1)) (fun idx =>
    let lit_ind := Literal (str idx) INTEGER_SINGLE_TYPE in
    let ref := ArrayOfStructuresReference sym [lit_ind] ["data"] in
    psyir_append ref ;;
    let text := sym_name sym +++ "(" +++ str idx +++ ")%data" in
    append text false None READ (Some (metadata_index argvect))) ;;
  if var_accesses then
    add_access (Sig (name argvect)) (access argvect) None
  else ret tt.

Definition field (arg : Arg) (var_accesses : bool) : M unit :=
  let text := proxy_name arg +++ "%data" in
  append text var_accesses (Some (name arg)) (access arg)
    (Some (metadata_index arg)) ;;
  _ <- append_user_type (module_name arg) (proxy_data_type arg) ["data"]
         (proxy_name arg) None ;;
  ret tt.

Definition stencil_unknown_extent (arg : Arg) (var_accesses : bool)
    : M unit :=
  var_sym <- with_symtab (fun t => dofmap_size_symbol t arg) ;;
  r <- cell_ref_name var_accesses ;;
  let (cell_name, cell_ref) := r in
  _ <- append_array_reference (sym_name var_sym) [cell_ref] INTEGER
         (Some var_sym) ;;
  append (sym_name var_sym +++ "(" +++ cell_name +++ ")") var_accesses
    (Some (sym_name var_sym)) READ None.

Definition stencil_2d_unknown_extent (arg : Arg) (var_accesses : bool)
    : M unit :=
  var_sym <- with_symtab (fun t => dofmap_size_symbol t arg) ;;
  r <- cell_ref_name var_accesses ;;
  let (cell_name, cell_ref) := r in
  _ <- append_array_reference (sym_name var_sym) [Range; cell_ref] INTEGER
         (Some var_sym) ;;
  let name := sym_name var_sym +++ "(:," +++ cell_name +++ ")" in
  append name var_accesses (Some (sym_name var_sym)) READ None.

Definition stencil_2d_max_extent (arg : Arg) (var_accesses : bool)
    : M unit :=
  let unique_tag := stencil_unique_str arg "length" in
  let root_name := name arg +++ "_max_branch_length" in
  sym <- append_integer_reference root_name (Some unique_tag) ;;
  append (sym_name sym) var_accesses None READ None.

Definition stencil_unknown_direction (arg : Arg) (var_accesses : bool)
    : M unit :=
  let name := direction_arg_varname arg in
  _ <- append_integer_reference name (Some ("AlgArgs_" +++ name)) ;;
  append name var_accesses None READ None.

Definition stencil (arg : Arg) (var_accesses : bool) : M unit :=
  var_sym <- with_symtab (fun t => dofmap_symbol t arg) ;;
  r <- cell_ref_name var_accesses ;;
  let (cell_name, cell_ref) := r in
  _ <- append_array_reference (sym_name var_sym) [Range; Range; cell_ref]
         INTEGER (Some var_sym) ;;
  append (sym_name var_sym +++ "(:,:," +++ cell_name +++ ")") var_accesses
    (Some (sym_name var_sym)) READ None.

Definition stencil_2d (arg : Arg) (var_accesses : bool) : M unit :=
  var_sym <- with_symtab (fun t => dofmap_symbol t arg) ;;
  r <- cell_ref_name var_accesses ;;
  let (cell_name, cell_ref) := r in
  _ <- append_array_reference (sym_name var_sym)
         [Range; Range; Range; cell_ref] INTEGER (Some var_sym) ;;
  let name := sym_name var_sym +++ "(:,:,:," +++ cell_name +++ ")" in
  append name var_accesses (Some (sym_name var_sym)) READ None.

Definition operator (arg : Arg) (var_accesses : bool) : M unit :=
  _ <- append_user_type operator_module operator_proxy_type ["ncell_3d"]
         (proxy_name_indexed arg) None ;;
  append (proxy_name_indexed arg +++ "%ncell_3d") var_accesses None READ
    None ;;
  _ <- append_user_type operator_module operator_proxy_type
         ["local_stencil"] (proxy_name_indexed arg) None ;;
  append (proxy_name_indexed arg +++ "%local_stencil") var_accesses None
    (access arg) (Some (metadata_index arg)).

Definition fs_common (function_space : FunctionSpace)
    (var_accesses : bool) : M unit :=
  s <- get_self ;;
  if negb (str_in (iterates_over (_kern s)) ["cell_column"; "domain"]) then
    ret tt
  else
    ArgOrdering_fs_common function_space var_accesses ;;
    n <- num_args ;;
    update_self
      (fun s => set_ndf_positions
                  (_ndf_positions s ++
                   [{| position := n;
                       function_space := orig_name function_space |}]) s).

Definition fs_compulsory_field (function_space : FunctionSpace)
    (var_accesses : bool) : M unit :=
  sym <- append_integer_reference (undf_name function_space) None ;;
  append (sym_name sym) var_accesses None READ None ;;
  let map_name := map_name function_space in
  s <- get_self ;;
  if iterates_over (_kern s) =? "domain" then
    sym <- append_array_reference map_name [Range; Range] INTEGER None ;;
    append (sym_name sym) var_accesses (Some (sym_name sym)) READ None
  else
    r <- cell_ref_name var_accesses ;;
    let (cell_name, cell_ref) := r in
    sym <- append_array_reference map_name [Range; cell_ref] INTEGER None ;;
    append (sym_name sym +++ "(:," +++ cell_name +++ ")") var_accesses
      (Some (sym_name sym)) READ None.

(** [self._kern.arguments.get_arg_on_space(fs)], raising when there is no
    such argument. *)
Definition arg_on_space (fs : option FunctionSpace) : M Arg :=
  s <- get_self ;;
  match get_arg_on_space (_kern s) fs with
  | Some a => ret a
  | None => raise FieldNotFoundError
  end.

Definition fs_intergrid (function_space : FunctionSpace)
    (var_accesses : bool) : M unit :=
  arg <- arg_on_space (Some function_space) ;;
  if mesh arg =? "gh_fine" then
    fs_common function_space var_accesses ;;
    sym <- append_integer_reference (undf_name function_space) None ;;
    append (sym_name sym) var_accesses None READ None ;;
    let map_name := map_name function_space in
    sym <- append_array_reference map_name [Range; Range] INTEGER None ;;
    append (sym_name sym) var_accesses None READ None
  else
    fs_compulsory_field function_space var_accesses.

Definition basis (function_space : FunctionSpace) (var_accesses : bool)
    : M unit :=
  s <- get_self ;;
  for_each (map snd (qr_rules (_kern s))) (fun rule =>
    let basis_name :=
      get_basis_name function_space (Some (psy_name rule)) None in
    sym <- append_array_reference basis_name [Range; Range; Range; Range]
             REAL None ;;
    append (sym_name sym) var_accesses None READ None) ;;
  if str_in "gh_evaluator" (eval_shapes (_kern s)) then
    for_each (eval_targets (_kern s)) (fun target =>
      let fspace := fst (snd target) in
      let basis_name := get_basis_name function_space None (Some fspace) in
      sym <- append_array_reference basis_name [Range; Range; Range]
               REAL None ;;
      append (sym_name sym) var_accesses None READ None)
  else ret tt.

Definition diff_basis (function_space : FunctionSpace)
    (var_accesses : bool) : M unit :=
  s <- get_self ;;
  for_each (map snd (qr_rules (_kern s))) (fun rule =>
    let diff_basis_name :=
      get_diff_basis_name function_space (Some (psy_name rule)) None in
    sym <- append_array_reference diff_basis_name
             [Range; Range; Range; Range] INTEGER None ;;
    append (sym_name sym) var_accesses None READ None) ;;
  if str_in "gh_evaluator" (eval_shapes (_kern s)) then
    for_each (eval_targets (_kern s)) (fun target =>
      let fspace := fst (snd target) in
      let diff_basis_name :=
        get_diff_basis_name function_space None (Some fspace) in
      sym <- append_array_reference diff_basis_name [Range; Range; Range]
               REAL None ;;
      append (sym_name sym) var_accesses None READ None)
  else ret tt.

(** The value of [fspace] after
    [for fspace in fss: if fspace.orig_name == "any_space_1": break],
    starting from [None]. *)
Fixpoint any_space_1_or_last (fspace : option FunctionSpace)
    (fss : list FunctionSpace) : option FunctionSpace :=
  match fss with
  | [] => fspace
  | f :: rest =>
      if orig_name f =? "any_space_1" then Some f
      else any_space_1_or_last (Some f) rest
  end.

Definition field_bcs_kernel (function_space : FunctionSpace)
    (var_accesses : bool) : M unit :=
  s <- get_self ;;
  let fspace := any_space_1_or_last None (unique_fss (_kern s)) in
  farg <- arg_on_space fspace ;;
  if negb (is_field farg) then
    raise (GenerationError
             ("Expected an argument of " +++ VALID_FIELD_NAMES +++
              " type from which to look-up boundary dofs for kernel " +++
              kern_name (_kern s) +++ " but got '" +++
              argument_type farg +++ "'"))
  else
    let base_name := "boundary_dofs_" +++ name farg in
    sym <- append_array_reference base_name [Range; Range] INTEGER None ;;
    append (sym_name sym) var_accesses None READ None.

Definition operator_bcs_kernel (function_space : FunctionSpace)
    (var_accesses : bool) : M unit :=
  s <- get_self ;;
  op_arg <- first (args (_kern s)) ;;
  let base_name := "boundary_dofs_" +++ name op_arg in
  sym <- append_array_reference base_name [Range; Range] INTEGER None ;;
  append (sym_name sym) var_accesses None READ None.

Definition mesh_properties (var_accesses : bool) : M unit :=
  s <- get_self ;;
  if mesh_properties_requested (_kern s) then
    names <- kern_args var_accesses ;;
    extend names false
  else ret tt.

Definition supported_qr_shapes : list string :=
  ["gh_quadrature_xyoz"; "gh_quadrature_edge"; "gh_quadrature_face"].

(** How Python prints a list of strings inside an f-string. *)
Definition repr_list (l : list string) : string :=
  "[" +++ String.concat ", " (map (fun x => "'" +++ x +++ "'") l) +++ "]".

(** The error [quad_rule] raises for a shape it does not support. *)
Definition unsupported_shape (shape : string) : Exception :=
  NotImplementedError
    ("quad_rule: no support implemented for quadrature with a " +++
     "shape of '" +++ shape +++ "'. Supported shapes are: " +++
     repr_list supported_qr_shapes +++ ".").

(** The second half of the body of the loop of [quad_rule]: the PSyIR
    node of each argument of the rule. *)
Definition quad_rule_psyir (rule : QrRule) : M unit :=
  for_each (kernel_args rule) (fun arg =>
    let generic_name := drop_last (String.length (psy_name rule) + 1) arg in
    if str_in generic_name ["np_xy"; "np_z"; "nfaces"; "np_xyz"; "nedges"]
    then
      _ <- append_integer_reference arg None ;; ret tt
    else if str_in generic_name ["weights_xy"; "weights_z"] then
      _ <- append_array_reference arg [Range] REAL None ;; ret tt
    else if str_in generic_name ["weights_xyz"] then
      _ <- append_array_reference arg [Range; Range] REAL None ;; ret tt
    else
      raise (InternalError
               ("Found invalid kernel argument '" +++ arg +++ "'."))).

(** The body of the loop of [quad_rule], for one item of
    [self._kern.qr_rules]. *)
Definition quad_rule_item (item : string * QrRule) (var_accesses : bool)
    : M unit :=
  let (shape, rule) := item in
  (if shape =? "gh_quadrature_xyoz" then
     n <- num_args ;;
     update_self
       (fun s => set_nqp_positions
                   (_nqp_positions s ++
                    [[("horizontal", n + 1); ("vertical", n + 2)]]) s) ;;
     extend (kernel_args rule) var_accesses
   else if shape =? "gh_quadrature_edge" then
     extend (kernel_args rule) var_accesses
   else if shape =? "gh_quadrature_face" then
     extend (kernel_args rule) var_accesses
   else
     raise (unsupported_shape shape)) ;;
  quad_rule_psyir rule.

(** The loop of [quad_rule] over the items of a dictionary of rules. *)
Definition quad_rule_items (items : list (string * QrRule))
    (var_accesses : bool) : M unit :=
  for_each items (fun item => quad_rule_item item var_accesses).

Definition quad_rule (var_accesses : bool) : M unit :=
  s <- get_self ;;
  quad_rule_items (qr_rules (_kern s)) var_accesses.

Definition generate_not_called (property : string) : Exception :=
  InternalError
    ("KernCallArgList: the generate() method should be called before the "
     +++ property +++ "() method").

Definition nlayers_positions : M (list nat) :=
  s <- get_self ;;
  if negb (_generate_called s) then
    raise (generate_not_called "nlayers_positions")
  else ret (_nlayers_positions s).

Definition nqp_positions : M (list (list (string * nat))) :=
  s <- get_self ;;
  if negb (_generate_called s) then
    raise (generate_not_called "nqp_positions")
  else ret (_nqp_positions s).

Definition ndf_positions : M (list NdfInfo) :=
  s <- get_self ;;
  if negb (_generate_called s) then
    raise (generate_not_called "ndf_positions")
  else ret (_ndf_positions s).

(** ** Traversals *)

(** One call of an emit method, as the traversal driver makes it. *)
Inductive EmitOp :=
| Cell_position
| Cell_map
| Mesh_height
| Scalar (scalar_arg : Arg)
| Mesh_ncell2d
| Mesh_ncell2d_no_halos
| Cma_operator (arg : Arg)
| Field_vector (argvect : Arg)
| Field (arg : Arg)
| Stencil_unknown_extent (arg : Arg)
| Stencil_2d_unknown_extent (arg : Arg)
| Stencil_2d_max_extent (arg : Arg)
| Stencil_unknown_direction (arg : Arg)
| Stencil (arg : Arg)
| Stencil_2d (arg : Arg)
| Operator (arg : Arg)
| Fs_common (function_space : FunctionSpace)
| Fs_compulsory_field (function_space : FunctionSpace)
| Fs_intergrid (function_space : FunctionSpace)
| Basis (function_space : FunctionSpace)
| Diff_basis (function_space : FunctionSpace)
| Field_bcs_kernel (function_space : FunctionSpace)
| Operator_bcs_kernel (function_space : FunctionSpace)
| Mesh_properties
| Quad_rule.

Definition emit (op : EmitOp) (var_accesses : bool) : M unit :=
  match op with
  | Cell_position => cell_position var_accesses
  | Cell_map => cell_map var_accesses
  | Mesh_height => mesh_height var_accesses
  | Scalar a => scalar a var_accesses
  | Mesh_ncell2d => _mesh_ncell2d var_accesses
  | Mesh_ncell2d_no_halos => _mesh_ncell2d_no_halos var_accesses
  | Cma_operator a => cma_operator a var_accesses
  | Field_vector a => field_vector a var_accesses
  | Field a => field a var_accesses
  | Stencil_unknown_extent a => stencil_unknown_extent a var_accesses
  | Stencil_2d_unknown_extent a => stencil_2d_unknown_extent a var_accesses
  | Stencil_2d_max_extent a => stencil_2d_max_extent a var_accesses
  | Stencil_unknown_direction a => stencil_unknown_direction a var_accesses
  | Stencil a => stencil a var_accesses
  | Stencil_2d a => stencil_2d a var_accesses
  | Operator a => operator a var_accesses
  | Fs_common fs => fs_common fs var_accesses
  | Fs_compulsory_field fs => fs_compulsory_field fs var_accesses
  | Fs_intergrid fs => fs_intergrid fs var_accesses
  | Basis fs => basis fs var_accesses
  | Diff_basis fs => diff_basis fs var_accesses
  | Field_bcs_kernel fs => field_bcs_kernel fs var_accesses
  | Operator_bcs_kernel fs => operator_bcs_kernel fs var_accesses
  | Mesh_properties => mesh_properties var_accesses
  | Quad_rule => quad_rule var_accesses
  end.

(** The worlds seen between the emit calls of a traversal: one after each
    call that returns normally, up to the first call that raises. *)
Fixpoint observations (ops : list EmitOp) (var_accesses : bool) (w : World)
    : list World :=
  match ops with
  | [] => []
  | op :: rest =>
      match emit op var_accesses w with
      | (Ok _, w') => w' :: observations rest var_accesses w'
      | (Raise _, _) => []
      end
  end.

(** Modelled from the spec: [ArgOrdering.generate] is not in this file. The
    driver makes the emit calls of the metadata schema in order, and the
    orderer goes from Open to Frozen once they have all been made. *)
Definition generate (schema : list EmitOp) (var_accesses : bool) : M unit :=
  for_each schema (fun op => emit op var_accesses) ;;
  update_self (set_generate_called true).

(** ** Measures and specifications *)

(** [len(self._arglist)] and [len(self._psyir_arglist)]. *)
Definition n_args (w : World) : nat := List.length (_arglist (self w)).

Definition n_nodes (w : World) : nat :=
  List.length (_psyir_arglist (self w)).

(** The synchronisation invariant of the two argument lists. *)
Definition in_sync (w : World) : Prop := n_args w = n_nodes w.

(** The surplus of flat-list entries over reference nodes. *)
Definition surplus (w : World) : Z :=
  (Z.of_nat (n_args w) - Z.of_nat (n_nodes w))%Z.

(** [wp m Q E w]: run from [w], [m] either returns a value and a world that
    satisfy [Q] or raises an exception in a world that satisfy [E]. *)
Definition wp {A} (m : M A) (Q : A -> World -> Prop)
    (E : Exception -> World -> Prop) (w : World) : Prop :=
  match m w with
  | (Ok a, w') => Q a w'
  | (Raise e, w') => E e w'
  end.

(** [shifts m d]: whenever [m] returns, the surplus has moved by [d]. *)
Definition shifts {A} (m : M A) (d : Z) : Prop :=
  forall w, wp m (fun _ w' => surplus w' = surplus w + d)%Z
              (fun _ _ => True) w.

(** The access event [add_access] logs for [self._kern]. *)
Definition event (w : World) (variable : string) (mode : AccessType)
    (indices : option (list string)) : AccessEvent :=
  {| signature := Sig variable; access_kind := mode;
     kernel := kern_name (_kern (self w)); component_indices := indices |}.

(** [emitted w w' names nodes events]: from [w] to [w'] exactly [names]
    were pushed onto the flat list, [nodes] onto the reference tree and
    [events] onto the access log; the kernel, the Open or Frozen state and
    the position records are as they were. Only the symbol table may
    differ besides. *)
Definition emitted (w w' : World) (names : list string) (nodes : list Node)
    (events : list AccessEvent) : Prop :=
  _arglist (self w') = _arglist (self w) ++ names /\
  _psyir_arglist (self w') = _psyir_arglist (self w) ++ nodes /\
  accesses w' = accesses w ++ events /\
  _kern (self w') = _kern (self w) /\
  _generate_called (self w') = _generate_called (self w) /\
  _nlayers_positions (self w') = _nlayers_positions (self w) /\
  _nqp_positions (self w') = _nqp_positions (self w) /\
  _ndf_positions (self w') = _ndf_positions (self w).

(** The entry of [_nqp_positions] recorded when the flat list holds [n]
    entries. *)
Definition nqp_entry (n : nat) : list (string * nat) :=
  [("horizontal", n + 1); ("vertical", n + 2)].

(** The entries of [_nqp_positions] to expect from a run of [quad_rule]
    over [items] that starts with [n] entries in the flat list: one for
    each item of shape [gh_quadrature_xyoz], at the length the flat list
    has once the arguments of the items before it are in. *)
Fixpoint nqp_entries (n : nat) (items : list (string * QrRule))
    : list (list (string * nat)) :=
  match items with
  | [] => []
  | (shape, rule) :: rest =>
      (if shape =? "gh_quadrature_xyoz" then [nqp_entry n] else []) ++
      nqp_entries (n + List.length (kernel_args rule)) rest
  end.

(** The symbol [find_or_create_integer_symbol] gave when it was asked for
    the parameter of [arg] called [component]. *)
Definition parameter_symbol (arg : Arg) (component : string)
    (sym : Symbol) : Prop :=
  exists t0 t1 : SymbolTable,
    find_or_create_integer_symbol t0 (name arg +++ "_" +++ component)
      (Some (name arg +++ "_" +++ component)) = (sym, t1).

(** What [LFRicMeshProperties.kern_args] owes the orderer it is handed:
    it leaves the flat list alone and pushes one reference node for every
    name it returns. Only [mesh_properties] relies on it. *)
Definition kern_args_contract : Prop :=
  forall var_accesses w names w',
    kern_args var_accesses w = (Ok names, w') ->
    n_args w' = n_args w /\
    n_nodes w' = n_nodes w + List.length names.

Definition op_contract (op : EmitOp) : Prop :=
  match op with
  | Mesh_properties => kern_args_contract
  | _ => True
  end.

(** The generic name [quad_rule] derives from an argument of a rule, and
    whether it is one of the eight names the method knows. *)
Definition generic_name (rule : QrRule) (arg : string) : string :=
  drop_last (String.length (psy_name rule) + 1) arg.

Definition known_generic_names : list string :=
  ["np_xy"; "np_z"; "nfaces"; "np_xyz"; "nedges"; "weights_xy"; "weights_z";
   "weights_xyz"].

Definition recognised (rule : QrRule) (arg : string) : bool :=
  str_in (generic_name rule arg) known_generic_names.

(** ** What every operation keeps *)

(** [keeps m R]: however [m] ends, by returning or by raising, the world it
    leaves is related by [R] to the world it started from. *)
Definition keeps {A} (m : M A) (R : World -> World -> Prop) : Prop :=
  forall w, R w (snd (m w)).

(** [advances var_accesses w w']: from [w] to [w'] the two argument
    lists, the access log and the three position records were only
    appended to, the kernel and the Open or Frozen state are as they were,
    and nothing was logged unless an access log was passed. *)
Definition advances (var_accesses : bool) (w w' : World) : Prop :=
  _kern (self w') = _kern (self w) /\
  _generate_called (self w') = _generate_called (self w) /\
  (exists names, _arglist (self w') = _arglist (self w) ++ names) /\
  (exists nodes, _psyir_arglist (self w') = _psyir_arglist (self w) ++ nodes)
  /\
  (exists ps,
     _nlayers_positions (self w') = _nlayers_positions (self w) ++ ps) /\
  (exists ps, _nqp_positions (self w') = _nqp_positions (self w) ++ ps) /\
  (exists ps, _ndf_positions (self w') = _ndf_positions (self w) ++ ps) /\
  (exists events,
     accesses w' = accesses w ++ events /\
     (var_accesses = false -> events = [])).

(** Every recorded nlayers and ndf position is a 1-based index into the
    flat list. *)
Definition positions_in_range (w : World) : Prop :=
  Forall (fun p => 1 <= p <= n_args w) (_nlayers_positions (self w)) /\
  Forall (fun i => 1 <= position i <= n_args w) (_ndf_positions (self w)).

Definition steps (var_accesses : bool) (w w' : World) : Prop :=
  advances var_accesses w w' /\
  (positions_in_range w -> positions_in_range w').

(** What [LFRicMeshProperties.kern_args] must respect for [mesh_properties]
    to keep [steps]: it only appends, and it records no position. *)
Definition kern_args_steps : Prop :=
  forall var_accesses, keeps (kern_args var_accesses) (steps var_accesses).

Definition op_steps_contract (op : EmitOp) : Prop :=
  match op with
  | Mesh_properties => kern_args_steps
  | _ => True
  end.

End Orderer.

(** * CommonMetaArgMetadata: checks on the metadata of a meta_arg

    A shallow embedding of the class methods of
    [psyclone/domain/lfric/kernel/common_meta_arg_metadata.py] that check
    metadata text. [CommonArgMetadata.get_arg], which extracts the text of
    one argument from the fparser2 tree, and the constructors of the
    concrete subclasses are not in that file: the methods take the text
    that [get_arg] returned and the outcome of the constructor as inputs.
    Python's [str.strip] and [str.lower] are parameters. *)

Module CommonMetaArgMetadata.

Inductive Exception :=
| ValueError (msg : string)
| TypeError (msg : string)
| InternalError (msg : string)
| AttributeError (attribute : string).

Inductive Outcome (A : Type) :=
| Returns (a : A)
| Raises (e : Exception).

Arguments Raises {A} e.

(** [s.split(sep)] for a separator of one character. *)
Fixpoint split (sep : Ascii.ascii) (s : string) : list string :=
  match s with
  | EmptyString => [EmptyString]
  | String c rest =>
      if Ascii.eqb c sep then EmptyString :: split sep rest
      else
        match split sep rest with
        | head :: tail => String c head :: tail
        | [] => [String c EmptyString]
        end
  end.

(** [needle in text]. *)
Definition contains (needle text : string) : bool :=
  match String.index 0 needle text with
  | Some _ => true
  | None => false
  end.

(** The class attributes the methods read. The base class gives the first
    five a value; the last three exist only in the subclasses that
    declare them. *)
Record Class := {
  form_arg_index : nat;
  vector_length_arg_index : nat;
  datatype_arg_index : nat;
  access_arg_index : nat;
  function_space_arg_index : nat;
  form : string;
  mesh_arg_index : option nat;
  function_space_to_arg_index : option nat;
  function_space_from_arg_index : option nat
}.

(** The character [*] (code 42). *)
Definition star : Ascii.ascii := Ascii.ascii_of_nat 42.

(** [check_first_arg], given the text [form] that [get_arg] returned for
    the argument at [form_arg_index]. *)
Definition check_first_arg (strip lower : string -> string) (cls : Class)
    (form : string) (name : string) (vector : bool) : Outcome unit :=
  let form_word :=
    if vector
    then (strip (hd EmptyString (split star form)), "in")
    else (form, "as") in
  let form := fst form_word in
  let word := snd form_word in
  if negb (lower form =? lower (CommonMetaArgMetadata.form cls)) then
    Raises (ValueError
              (name +++ "s should have " +++ CommonMetaArgMetadata.form cls
               +++ " " +++ word +++ " their first metadata argument, " +++
               "but found '" +++ form +++ "'."))
  else Returns tt.

(** A class attribute that may be missing. *)
Definition attribute (value : option nat) (attribute : string)
    : Outcome nat :=
  match value with
  | Some i => Returns i
  | None => Raises (AttributeError attribute)
  end.

(** [check_remaining_args], given [str(fparser2_tree)] and what the
    constructor of the class did with the metadata arguments: it
    returned, or it raised the
    ValueError whose message is given. *)
Definition check_remaining_args (cls : Class) (fparser2_tree : string)
    (constructed : option string) : Outcome unit :=
  match constructed with
  | None => Returns tt
  | Some message =>
      let index :=
        if contains "datatype descriptor" message then
          Returns (datatype_arg_index cls)
        else if contains "access descriptor" message then
          Returns (access_arg_index cls)
        else if contains "function space" message then
          Returns (function_space_arg_index cls)
        else if contains "mesh_arg" message then
          attribute (mesh_arg_index cls) "mesh_arg_index"
        else if contains "function_space_to" message then
          attribute (function_space_to_arg_index cls)
            "function_space_to_arg_index"
        else if contains "function_space_from" message then
          attribute (function_space_from_arg_index cls)
            "function_space_from_arg_index"
        else
          Raises (InternalError
                    ("Unexpected error message found '" +++ message +++ "'"))
      in
      match index with
      | Returns index =>
          Raises (ValueError
                    ("At argument index '" +++ str (Z.of_nat index) +++
                     "' for metadata '" +++ fparser2_tree +++ "'. " +++
                     message))
      | Raises e => Raises e
      end
  end.

(** [get_and_check_vector_length], given the text [vector_datatype] that
    [get_arg] returned for the argument at [vector_length_arg_index]. *)
Definition get_and_check_vector_length (strip : string -> string)
    (vector_datatype : string) : Outcome string :=
  let components := split star vector_datatype in
  if negb (List.length components =? 2)%nat then
    Raises (TypeError
              ("The vector length metadata should be in the form " +++
               "'form*vector_length' but found '" +++ vector_datatype +++
               "'."))
  else
    let vector_length := strip (nth 1 components EmptyString) in
    Returns vector_length.

(** The number of occurrences of a character in a text. *)
Fixpoint count (c : Ascii.ascii) (s : string) : nat :=
  match s with
  | EmptyString => 0
  | String a rest => (if Ascii.eqb a c then 1 else 0) + count c rest
  end.

(** A [strip] for the examples: it removes spaces at both ends. *)
Fixpoint lstrip_spaces (s : string) : string :=
  match s with
  | String c rest =>
      if Ascii.eqb c (Ascii.ascii_of_nat 32) then lstrip_spaces rest else s
  | EmptyString => EmptyString
  end.

Definition reverse (s : string) : string :=
  string_of_list_ascii (rev (list_ascii_of_string s)).

Definition strip_spaces (s : string) : string :=
  reverse (lstrip_spaces (reverse (lstrip_spaces s))).

End CommonMetaArgMetadata.

(** * A small implementation of the collaborators

    A symbol table that is a list of tagged symbols, newest first, and
    simple stand-ins for the other collaborators. It lets the methods run
    on concrete kernels. *)

Module Sample.

Definition Table := list (string * Symbol).

Definition by_tag (t : Table) (tag : string) : option Symbol :=
  match find (fun e => fst e =? tag) t with
  | Some e => Some (snd e)
  | None => None
  end.

Definition by_name (t : Table) (name : string) : option Symbol :=
  match find (fun e => sym_name (snd e) =? name) t with
  | Some e => Some (snd e)
  | None => None
  end.

Definition declare (t : Table) (name : string) (tag : option string)
    (kind : SymbolType) : Symbol * Table :=
  let sym := {| sym_name := name; symbol_type := kind |} in
  (sym, (match tag with Some g => g | None => name end, sym) :: t).

Definition find_or_declare (t : Table) (name : string)
    (tag : option string) (kind : SymbolType) : Symbol * Table :=
  match by_tag t (match tag with Some g => g | None => name end) with
  | Some sym => (sym, t)
  | None => declare t name tag kind
  end.

(** A mesh-property helper that asks for one integer argument: it pushes
    the reference node itself and returns the name for the flat list. *)
Definition nfaces_kern_args (var_accesses : bool) : @M Table (list string) :=
  bind (with_symtab
          (fun t => find_or_declare t "nfaces_re_h" None DataSymbol))
    (fun sym =>
       bind (psyir_append (Reference sym))
         (fun _ => ret [sym_name sym])).

#[export] Instance collaborators : @Collaborators Table := {|
  lookup_with_tag := by_tag;
  lookup := by_name;
  new_symbol := fun t name tag decl =>
    declare t name tag
      (match decl with AsContainer => ContainerSymbol | _ => DataSymbol end);
  find_or_create_type := fun t module user_type =>
    match by_name t user_type with
    | Some sym => (sym, t)
    | None => declare t user_type None DataTypeSymbol
    end;
  find_or_create_integer_symbol := fun t name tag =>
    find_or_declare t name tag DataSymbol;
  find_or_create_array := fun t name rank intrinsic tag =>
    find_or_declare t name (Some tag) DataSymbol;
  args_filter := fun l meshes => filter (fun a => str_in (mesh a) meshes) l;
  dofmap_size_symbol := fun t arg =>
    find_or_declare t (name arg +++ "_stencil_size") None DataSymbol;
  dofmap_symbol := fun t arg =>
    find_or_declare t (name arg +++ "_stencil_dofmap") None DataSymbol;
  stencil_unique_str := fun arg context =>
    "stencil_" +++ context +++ "_" +++ name arg;
  cma_same_fs_params :=
    ["nrow"; "bandwidth"; "alpha"; "beta"; "gamma_m"; "gamma_p"];
  cma_diff_fs_params :=
    ["nrow"; "ncol"; "bandwidth"; "alpha"; "beta"; "gamma_m"; "gamma_p"];
  operator_module := "operator_mod";
  operator_proxy_type := "operator_proxy_type";
  VALID_FIELD_NAMES := "['gh_field']";
  psyir_from_expression := fun text =>
    if text =? "" then None else Some (Parsed text);
  get_basis_name := fun fs qr_var on_space =>
    "basis_" +++ orig_name fs +++ "_" +++
    match qr_var, on_space with
    | Some q, _ => q
    | None, Some target => "on_" +++ orig_name target
    | None, None => ""
    end;
  get_diff_basis_name := fun fs qr_var on_space =>
    "diff_basis_" +++ orig_name fs +++ "_" +++
    match qr_var, on_space with
    | Some q, _ => q
    | None, Some target => "on_" +++ orig_name target
    | None, None => ""
    end;
  kern_args := nfaces_kern_args
|}.

Definition w1 : FunctionSpace :=
  {| orig_name := "w1"; ndf_name := "ndf_w1"; undf_name := "undf_w1";
     map_name := "map_w1" |}.

Definition w2 : FunctionSpace :=
  {| orig_name := "w2"; ndf_name := "ndf_w2"; undf_name := "undf_w2";
     map_name := "map_w2" |}.

(** A field argument [f1] on [w1], written by the kernel. *)
Definition f1 : Arg :=
  {| name := "f1"; proxy_name := "f1_proxy";
     proxy_name_indexed := "f1_proxy"; module_name := "field_mod";
     proxy_data_type := "field_proxy_type"; access := WRITE;
     metadata_index := 0; vector_size := 1; is_literal := false;
     is_field := true; argument_type := "gh_field"; mesh := "";
     function_space_to := w1; function_space_from := w1;
     direction_arg_varname := "" |}.

(** A field vector [chi] of three components, read by the kernel. *)
Definition chi : Arg :=
  {| name := "chi"; proxy_name := "chi_proxy";
     proxy_name_indexed := "chi_proxy(1)"; module_name := "field_mod";
     proxy_data_type := "field_proxy_type"; access := READ;
     metadata_index := 1; vector_size := 3; is_literal := false;
     is_field := true; argument_type := "gh_field"; mesh := "";
     function_space_to := w1; function_space_from := w1;
     direction_arg_varname := "" |}.

(** A CMA operator mapping [w2] to [w1], and one mapping [w1] to itself. *)
Definition cma_op1 : Arg :=
  {| name := "cma_op1"; proxy_name := "cma_op1_proxy";
     proxy_name_indexed := "cma_op1_proxy";
     module_name := "operator_mod";
     proxy_data_type := "columnwise_operator_proxy_type";
     access := READWRITE; metadata_index := 2; vector_size := 1;
     is_literal := false; is_field := false;
     argument_type := "gh_columnwise_operator"; mesh := "";
     function_space_to := w1; function_space_from := w2;
     direction_arg_varname := "" |}.

Definition cma_op2 : Arg :=
  {| name := "cma_op2"; proxy_name := "cma_op2_proxy";
     proxy_name_indexed := "cma_op2_proxy";
     module_name := "operator_mod";
     proxy_data_type := "columnwise_operator_proxy_type";
     access := WRITE; metadata_index := 3; vector_size := 1;
     is_literal := false; is_field := false;
     argument_type := "gh_columnwise_operator"; mesh := "";
     function_space_to := w1; function_space_from := w1;
     direction_arg_varname := "" |}.

Definition qr_xyoz : QrRule :=
  {| psy_name := "qr_xyoz";
     kernel_args := ["np_xy_qr_xyoz"; "np_z_qr_xyoz"; "weights_xy_qr_xyoz";
                     "weights_z_qr_xyoz"] |}.

Definition qr_face : QrRule :=
  {| psy_name := "qr_face";
     kernel_args := ["nfaces_qr_face"; "np_xyz_qr_face";
                     "weights_xyz_qr_face"] |}.

Definition qr_edge : QrRule :=
  {| psy_name := "qr_edge";
     kernel_args := ["nedges_qr_edge"; "np_xyz_qr_edge";
                     "weights_xyz_qr_edge"] |}.

(** A kernel over cell columns with the given colouring, quadrature rules
    and evaluator targets. *)
Definition kern_with (coloured : bool) (rules : list (string * QrRule))
    (shapes : list string) (targets : list (string * (FunctionSpace * Arg)))
    (domain : string) : Kern :=
  {| kern_name := "testkern_code"; iterates_over := domain;
     is_coloured := coloured; colourmap := "cmap";
     qr_rules := rules; eval_shapes := shapes; eval_targets := targets;
     args := [f1; chi; cma_op1; cma_op2]; unique_fss := [w1; w2];
     get_arg_on_space := fun fs =>
       match fs with
       | Some s => if orig_name s =? "w1" then Some f1 else None
       | None => None
       end;
     mesh_properties_requested := true |}.

(** A coloured kernel over cell columns with two quadrature rules and an
    evaluator with three targets. *)
Definition kern_coloured : Kern :=
  kern_with true
    [("gh_quadrature_xyoz", qr_xyoz); ("gh_quadrature_face", qr_face)]
    ["gh_evaluator"]
    [("w0", (w1, f1)); ("w1", (w1, f1)); ("w2", (w2, f1))]
    "cell_column".

(** A kernel over dofs. *)
Definition kern_dof : Kern := kern_with false [] [] [] "dof".

(** A kernel whose second quadrature rule has a shape that [quad_rule]
    does not know. *)
Definition kern_unknown_shape : Kern :=
  kern_with false
    [("gh_quadrature_xyoz", qr_xyoz); ("gh_quadrature_vertex", qr_face)]
    [] [] "cell_column".

(** A kernel over the domain. *)
Definition kern_domain : Kern := kern_with false [] [] [] "domain".

(** A rule with an argument whose generic name [quad_rule] does not
    know. *)
Definition qr_bogus : QrRule :=
  {| psy_name := "qr";
     kernel_args := ["np_xy_qr"; "bogus_qr"; "np_z_qr"] |}.

(** A literal scalar and a named scalar. *)
Definition one_literal : Arg :=
  {| name := "1.0_r_def"; proxy_name := ""; proxy_name_indexed := "";
     module_name := ""; proxy_data_type := ""; access := READ;
     metadata_index := 0; vector_size := 1; is_literal := true;
     is_field := false; argument_type := "gh_scalar"; mesh := "";
     function_space_to := w1; function_space_from := w1;
     direction_arg_varname := "" |}.

Definition alpha : Arg :=
  {| name := "alpha"; proxy_name := ""; proxy_name_indexed := "";
     module_name := ""; proxy_data_type := ""; access := INC;
     metadata_index := 0; vector_size := 1; is_literal := false;
     is_field := false; argument_type := "gh_scalar"; mesh := "";
     function_space_to := w1; function_space_from := w1;
     direction_arg_varname := "" |}.

(** The symbols the sample table makes for the witnesses. *)
Definition data (name : string) : Symbol :=
  {| sym_name := name; symbol_type := DataSymbol |}.

(** A new orderer for a kernel, with an empty symbol table and an empty
    access log. *)
Definition fresh (kern : Kern) : @World Table :=
  {| self := __init__ kern []; accesses := [] |}.

End Sample.

(** * Reasoning about the orderer *)

Section Theory.

Context {SymbolTable : Type} {C : @Collaborators SymbolTable}.

Local Abbreviation World := (@World SymbolTable).
Local Abbreviation M := (@M SymbolTable).
Local Abbreviation shifts m d := (@shifts SymbolTable _ m d).

Implicit Types (w : World) (E : Exception -> World -> Prop).

(** ** Rules of the weakest-precondition calculus *)

Lemma wp_ret {A} (a : A) (Q : A -> World -> Prop) E w :
  Q a w -> wp (ret a) Q E w.
Proof. exact (fun H => H). Qed.

Lemma wp_raise {A} (e : Exception) (Q : A -> World -> Prop) E w :
  E e w -> wp (raise e) Q E w.
Proof. exact (fun H => H). Qed.

Lemma wp_bind {A B} (m : M A) (f : A -> M B) (Q : B -> World -> Prop) E w :
  wp m (fun a w' => wp (f a) Q E w') E w -> wp (bind m f) Q E w.
Proof.
  unfold wp, bind. destruct (m w) as [[a | e] w']; trivial.
Qed.

Lemma wp_mono {A} (m : M A) (Q Q' : A -> World -> Prop) E E' w :
  wp m Q E w ->
  (forall a w', Q a w' -> Q' a w') ->
  (forall e w', E e w' -> E' e w') ->
  wp m Q' E' w.
Proof.
  unfold wp. destruct (m w) as [[a | e] w']; auto.
Qed.

Lemma wp_ok {A} (m : M A) (Q : A -> World -> Prop) w :
  wp m Q (fun _ _ => False) w <->
  exists a w', m w = (Ok a, w') /\ Q a w'.
Proof.
  unfold wp. destruct (m w) as [[a | e] w']; split.
  - intros H. exists a, w'. auto.
  - intros (a' & w'' & Heq & H). inversion Heq. subst. exact H.
  - intros [].
  - intros (a' & w'' & Heq & H). discriminate Heq.
Qed.

(** A loop establishes what an invariant on the items still to visit
    gives once none is left. *)
Lemma wp_for_each {A} (I : list A -> World -> Prop) (xs : list A)
    (body : A -> M unit) (Q : unit -> World -> Prop) E w :
  I xs w ->
  (forall x rest w1, I (x :: rest) w1 ->
     wp (body x) (fun _ w2 => I rest w2) E w1) ->
  (forall w1, I [] w1 -> Q tt w1) ->
  wp (for_each xs body) Q E w.
Proof.
  intros HI Hbody HQ. revert w HI.
  induction xs as [| x rest IH]; intros w HI.
  - apply wp_ret. auto.
  - cbn [for_each]. apply wp_bind.
    eapply wp_mono; [apply (Hbody x rest w HI) | | auto].
    intros u w2 H2. cbn beta. apply IH. exact H2.
Qed.

(** ** How each operation moves the surplus of the flat list *)

Lemma wp_shifts {A} (m : M A) (d : Z) (Q : A -> World -> Prop) w :
  shifts m d ->
  (forall a w', (surplus w' = surplus w + d)%Z -> Q a w') ->
  wp m Q (fun _ _ => True) w.
Proof.
  intros Hm HQ. eapply wp_mono; [apply Hm | | auto].
  intros a w' H. apply HQ. exact H.
Qed.

Create HintDb shifts.

Ltac surplus_arith :=
  unfold surplus, n_args, n_nodes in *; cbn in *;
  repeat rewrite ?length_app, ?Nat2Z.inj_add in *; cbn in *; lia.

Lemma shifts_ret {A} (a : A) : shifts (ret a) 0.
Proof. intros w. apply wp_ret. lia. Qed.

Lemma shifts_get_self : shifts get_self 0.
Proof. intros w. unfold wp, get_self. lia. Qed.

Lemma shifts_with_symtab {A} (op : SymbolTable -> A * SymbolTable) :
  shifts (with_symtab op) 0.
Proof.
  intros w. unfold wp, with_symtab.
  destruct (op (_symtab (self w))) as [a t]. surplus_arith.
Qed.

Lemma shifts_add_access sig mode indices :
  shifts (add_access sig mode indices) 0.
Proof. intros w. unfold wp, add_access. surplus_arith. Qed.

Lemma shifts_psyir_append node : shifts (psyir_append node) (-1).
Proof. intros w. unfold wp, psyir_append, update_self. surplus_arith. Qed.

Lemma shifts_first {A} (l : list A) : shifts (first l) 0.
Proof.
  intros w. destruct l; [exact I | apply wp_ret; lia].
Qed.

Lemma shifts_symbol_of ref : shifts (symbol_of ref) 0.
Proof.
  intros w. destruct ref; first [exact I | apply wp_ret; lia].
Qed.

Lemma shifts_arg_on_space fs : shifts (arg_on_space fs) 0.
Proof.
  intros w. unfold wp, arg_on_space, bind, get_self.
  destruct (get_arg_on_space _ fs); cbn; [lia | exact I].
Qed.

Lemma shifts_num_args : shifts num_args 0.
Proof. intros w. unfold wp, num_args, bind, get_self, ret. lia. Qed.

Lemma shifts_update_positions (f : KernCallArgList -> KernCallArgList) :
  (forall s, _arglist (f s) = _arglist s) ->
  (forall s, _psyir_arglist (f s) = _psyir_arglist s) ->
  shifts (update_self f) 0.
Proof.
  intros Ha Hp w. unfold wp, update_self, surplus, n_args, n_nodes.
  cbn. rewrite Ha, Hp. lia.
Qed.

Hint Resolve shifts_ret shifts_get_self shifts_with_symtab
  shifts_add_access shifts_psyir_append shifts_first shifts_symbol_of
  shifts_arg_on_space shifts_num_args : shifts.

Lemma shifts_for_each {A} (xs : list A) (body : A -> M unit) (d : Z) :
  (forall x, shifts (body x) d) ->
  shifts (for_each xs body) (Z.of_nat (List.length xs) * d).
Proof.
  intros Hbody w.
  apply wp_for_each with
    (I := fun rest w1 =>
            (surplus w1 + Z.of_nat (List.length rest) * d =
             surplus w + Z.of_nat (List.length xs) * d)%Z).
  - reflexivity.
  - intros x rest w1 H1. eapply wp_shifts; [apply Hbody |].
    intros _ w2 H2. cbn [List.length] in H1. lia.
  - intros w1 H1. cbn [List.length] in H1. lia.
Qed.

(** Symbolic execution of a method for its shift: split a sequence, use
    the known shift of its first command, follow a branch, and treat a
    loop whose body leaves the surplus alone as one command. *)
Ltac wp_run :=
  repeat (cbv beta zeta;
    lazymatch goal with
    | |- wp (bind _ _) _ _ _ => apply wp_bind
    | |- wp (raise _) _ _ _ => exact I
    | |- wp (if ?b then _ else _) _ _ _ => destruct b
    | |- wp (match ?x with _ => _ end) _ _ _ => destruct x
    | |- wp (update_self _) _ _ _ =>
        eapply wp_shifts;
        [apply shifts_update_positions; reflexivity | intros ? ? ?]
    | |- wp (for_each _ _) _ _ _ =>
        eapply wp_shifts;
        [apply shifts_for_each with (d := 0%Z); intros ? ?; wp_run;
         cbn [List.length] in *; lia
        | intros ? ? ?]
    | |- wp _ _ _ _ =>
        eapply wp_shifts; [solve [eauto with shifts] | intros ? ? ?]
    end).

Ltac shifts_auto :=
  intros w; wp_run; try (cbn [List.length] in *; lia).

Lemma shifts_append var_name var_accesses var_access_name mode posn :
  shifts (append var_name var_accesses var_access_name mode posn) 1.
Proof.
  intros w. unfold append. apply wp_bind.
  unfold wp at 1. unfold update_self.
  destruct var_accesses; [destruct (truthy var_access_name) |];
    unfold wp, add_access, ret; surplus_arith.
Qed.

Lemma shifts_extend list_var_name var_accesses :
  shifts (extend list_var_name var_accesses)
    (Z.of_nat (List.length list_var_name)).
Proof.
  intros w. unfold extend. apply wp_bind.
  unfold wp at 1. unfold update_self.
  destruct var_accesses.
  - eapply wp_shifts.
    + apply shifts_for_each with (d := 0%Z). intros v.
      apply shifts_add_access.
    + intros _ w' H. revert H. surplus_arith.
  - apply wp_ret. surplus_arith.
Qed.

Hint Resolve shifts_append shifts_extend : shifts.

Lemma shifts_append_integer_reference name tag :
  shifts (append_integer_reference name tag) (-1).
Proof. unfold append_integer_reference. shifts_auto. Qed.

Lemma shifts_get_array_reference array_name indices intrinsic_type symbol :
  shifts (get_array_reference array_name indices intrinsic_type symbol) 0.
Proof. unfold get_array_reference. shifts_auto. Qed.

Hint Resolve shifts_append_integer_reference shifts_get_array_reference
  : shifts.

Lemma shifts_append_array_reference array_name indices intrinsic_type symbol :
  shifts (append_array_reference array_name indices intrinsic_type symbol)
    (-1).
Proof. unfold append_array_reference. shifts_auto. Qed.

Lemma shifts_ArgOrdering_scalar scalar_arg var_accesses :
  shifts (ArgOrdering_scalar scalar_arg var_accesses) 1.
Proof. unfold ArgOrdering_scalar. shifts_auto. Qed.

Lemma shifts_get_user_type module_name user_type name tag shape :
  shifts (get_user_type module_name user_type name tag shape) 0.
Proof. unfold get_user_type. shifts_auto. Qed.

Hint Resolve shifts_append_array_reference shifts_ArgOrdering_scalar
  shifts_get_user_type : shifts.

Lemma shifts_ArgOrdering_fs_common function_space var_accesses :
  shifts (ArgOrdering_fs_common function_space var_accesses) 0.
Proof. unfold ArgOrdering_fs_common. shifts_auto. Qed.

Lemma shifts_append_user_type module_name user_type member_list name tag :
  shifts (append_user_type module_name user_type member_list name tag) (-1).
Proof. unfold append_user_type. shifts_auto. Qed.

Lemma shifts_cell_ref_name var_accesses :
  shifts (cell_ref_name var_accesses) 0.
Proof. unfold cell_ref_name. shifts_auto. Qed.

Hint Resolve shifts_ArgOrdering_fs_common shifts_append_user_type
  shifts_cell_ref_name : shifts.

(** ** Every emit method leaves the surplus where it was *)

Lemma shifts_cell_position va : shifts (cell_position va) 0.
Proof. unfold cell_position. shifts_auto. Qed.

Lemma shifts_cell_map va : shifts (cell_map va) 0.
Proof. unfold cell_map. shifts_auto. Qed.

Lemma shifts_mesh_height va : shifts (mesh_height va) 0.
Proof.
  unfold mesh_height. shifts_auto.
Qed.

Lemma shifts_scalar a va : shifts (scalar a va) 0.
Proof. unfold scalar. shifts_auto. Qed.

Lemma shifts_mesh_ncell2d va : shifts (_mesh_ncell2d va) 0.
Proof. unfold _mesh_ncell2d. shifts_auto. Qed.

Lemma shifts_mesh_ncell2d_no_halos va : shifts (_mesh_ncell2d_no_halos va) 0.
Proof. unfold _mesh_ncell2d_no_halos. shifts_auto. Qed.

Lemma shifts_cma_operator a va : shifts (cma_operator a va) 0.
Proof.
  unfold cma_operator. intros w0. eapply wp_shifts.
  - apply shifts_for_each with (d := 0%Z). intros component.
    unfold cma_operator_component. shifts_auto.
  - intros _ w' H. lia.
Qed.

Lemma shifts_field_vector a va : shifts (field_vector a va) 0.
Proof. unfold field_vector. shifts_auto. Qed.

Lemma shifts_field a va : shifts (field a va) 0.
Proof. unfold field. shifts_auto. Qed.

Lemma shifts_stencil_unknown_extent a va :
  shifts (stencil_unknown_extent a va) 0.
Proof. unfold stencil_unknown_extent. shifts_auto. Qed.

Lemma shifts_stencil_2d_unknown_extent a va :
  shifts (stencil_2d_unknown_extent a va) 0.
Proof. unfold stencil_2d_unknown_extent. shifts_auto. Qed.

Lemma shifts_stencil_2d_max_extent a va :
  shifts (stencil_2d_max_extent a va) 0.
Proof. unfold stencil_2d_max_extent. shifts_auto. Qed.

Lemma shifts_stencil_unknown_direction a va :
  shifts (stencil_unknown_direction a va) 0.
Proof. unfold stencil_unknown_direction. shifts_auto. Qed.

Lemma shifts_stencil a va : shifts (stencil a va) 0.
Proof. unfold stencil. shifts_auto. Qed.

Lemma shifts_stencil_2d a va : shifts (stencil_2d a va) 0.
Proof. unfold stencil_2d. shifts_auto. Qed.

Lemma shifts_operator a va : shifts (operator a va) 0.
Proof. unfold operator. shifts_auto. Qed.

Lemma shifts_fs_common fs va : shifts (fs_common fs va) 0.
Proof.
  unfold fs_common. shifts_auto.
Qed.

Lemma shifts_fs_compulsory_field fs va :
  shifts (fs_compulsory_field fs va) 0.
Proof. unfold fs_compulsory_field. shifts_auto. Qed.

Hint Resolve shifts_fs_common shifts_fs_compulsory_field : shifts.

Lemma shifts_fs_intergrid fs va : shifts (fs_intergrid fs va) 0.
Proof. unfold fs_intergrid. shifts_auto. Qed.

Lemma shifts_basis fs va : shifts (basis fs va) 0.
Proof. unfold basis. shifts_auto. Qed.

Lemma shifts_diff_basis fs va : shifts (diff_basis fs va) 0.
Proof. unfold diff_basis. shifts_auto. Qed.

Lemma shifts_field_bcs_kernel fs va : shifts (field_bcs_kernel fs va) 0.
Proof. unfold field_bcs_kernel. shifts_auto. Qed.

Lemma shifts_operator_bcs_kernel fs va :
  shifts (operator_bcs_kernel fs va) 0.
Proof. unfold operator_bcs_kernel. shifts_auto. Qed.

Lemma shifts_quad_rule_psyir rule :
  shifts (quad_rule_psyir rule)
    (Z.of_nat (List.length (kernel_args rule)) * (-1)).
Proof.
  unfold quad_rule_psyir. apply shifts_for_each. intros arg. shifts_auto.
Qed.

Hint Resolve shifts_quad_rule_psyir : shifts.

Lemma shifts_quad_rule_item item va : shifts (quad_rule_item item va) 0.
Proof. unfold quad_rule_item. destruct item as [shape rule]. shifts_auto. Qed.

Lemma shifts_quad_rule_items items va : shifts (quad_rule_items items va) 0.
Proof.
  unfold quad_rule_items. intros w.
  eapply wp_shifts.
  - apply shifts_for_each with (d := 0%Z). intros item.
    apply shifts_quad_rule_item.
  - intros _ w' H. lia.
Qed.

Lemma shifts_quad_rule va : shifts (quad_rule va) 0.
Proof.
  unfold quad_rule. intros w. apply wp_bind. unfold wp at 1, get_self.
  apply shifts_quad_rule_items.
Qed.

Lemma shifts_mesh_properties va :
  kern_args_contract -> shifts (mesh_properties va) 0.
Proof.
  intros Hc w. unfold mesh_properties. apply wp_bind.
  unfold wp at 1, get_self.
  destruct (mesh_properties_requested _); [| apply wp_ret; lia].
  apply wp_bind. unfold wp at 1.
  destruct (kern_args va w) as [[names | e] w1] eqn:Hk; [| exact I].
  destruct (Hc va w names w1 Hk) as [Ha Hn].
  eapply wp_shifts; [apply shifts_extend |].
  intros _ w2 H2. unfold surplus in *. lia.
Qed.

Lemma shifts_emit op va : op_contract op -> shifts (emit op va) 0.
Proof.
  destruct op; intros Hc; cbn [emit];
    auto using shifts_cell_position, shifts_cell_map, shifts_mesh_height,
      shifts_scalar, shifts_mesh_ncell2d, shifts_mesh_ncell2d_no_halos,
      shifts_cma_operator, shifts_field_vector, shifts_field,
      shifts_stencil_unknown_extent, shifts_stencil_2d_unknown_extent,
      shifts_stencil_2d_max_extent, shifts_stencil_unknown_direction,
      shifts_stencil, shifts_stencil_2d, shifts_operator, shifts_fs_common,
      shifts_fs_compulsory_field, shifts_fs_intergrid, shifts_basis,
      shifts_diff_basis, shifts_field_bcs_kernel,
      shifts_operator_bcs_kernel, shifts_mesh_properties, shifts_quad_rule.
Qed.

Lemma in_sync_surplus w : in_sync w <-> surplus w = 0%Z.
Proof. unfold in_sync, surplus. lia. Qed.

Lemma emit_in_sync op va w u w' :
  op_contract op -> in_sync w -> emit op va w = (Ok u, w') -> in_sync w'.
Proof.
  intros Hc Hs Hrun. apply in_sync_surplus.
  pose proof (@shifts_emit op va Hc w) as H. unfold wp in H.
  rewrite Hrun in H. apply in_sync_surplus in Hs. lia.
Qed.

Lemma init_in_sync kern (symtab : SymbolTable) acc :
  in_sync {| self := __init__ kern symtab; accesses := acc |}.
Proof. reflexivity. Qed.

(** C1. Along any traversal that starts with the two argument lists of
    equal length, as a new orderer has them, the flat list and the
    reference tree have the same number of entries after every emit call
    that returns normally. *)
Theorem lists_in_sync_at_every_observation ops va w :
  Forall op_contract ops ->
  in_sync w ->
  Forall in_sync (observations ops va w).
Proof.
  intros Hc. revert w.
  induction Hc as [| op rest Hop Hrest IH]; intros w Hs; cbn [observations].
  - constructor.
  - destruct (emit op va w) as [[u | e] w'] eqn:Hrun; [| constructor].
    assert (in_sync w') as Hs' by (eapply emit_in_sync; eauto).
    constructor; auto.
Qed.

(** ** What single methods emit *)

Lemma emitted_refl w : emitted w w [] [] [].
Proof. unfold emitted. rewrite !app_nil_r. repeat split. Qed.

Lemma emitted_trans w w1 w2 names1 nodes1 events1 names2 nodes2 events2 :
  emitted w w1 names1 nodes1 events1 ->
  emitted w1 w2 names2 nodes2 events2 ->
  emitted w w2 (names1 ++ names2) (nodes1 ++ nodes2) (events1 ++ events2).
Proof.
  unfold emitted.
  intros (Ha & Hp & Hl & Hk & Hg & H1 & H2 & H3)
         (Ha' & Hp' & Hl' & Hk' & Hg' & H1' & H2' & H3').
  rewrite !app_assoc. repeat split; congruence.
Qed.

Ltac emitted_lists :=
  cbn; rewrite <- ?app_assoc; cbn; rewrite ?app_nil_r; reflexivity.

(** Run a method on a symbolic world: take the innermost pending
    symbol-table result or branch apart, again and again. *)
Ltac exec :=
  repeat (cbn -[String.append String.eqb str];
          match goal with
          | |- context [match ?x with _ => _ end] =>
              lazymatch x with
              | context [match _ with _ => _ end] => fail
              | _ => destruct x eqn:?
              end
          end).

Lemma get_user_type_only_symtab module_name user_type name tag shape w :
  exists sym t,
    get_user_type module_name user_type name tag shape w =
      (Ok sym, {| self := set_symtab t (self w); accesses := accesses w |}).
Proof.
  unfold get_user_type, bind, get_self, ret, with_symtab.
  destruct w as [s acc]. destruct s. exec; do 2 eexists; reflexivity.
Qed.

(** C3. Given an access log, [cell_position] on a coloured kernel pushes
    the one entry [<colourmap>(colour,cell)], with the array reference
    into the colour map as its node, and logs exactly three reads: of the
    colour loop variable, of the cell loop variable and of the colour map,
    in this order. On a kernel that is not coloured it pushes the one
    entry naming the cell loop variable and logs exactly one read, under
    the name [cell]. *)
Theorem cell_position_accesses w :
  let (cell_sym, t1) :=
    find_or_create_integer_symbol (_symtab (self w)) "cell"
      (Some "cell_loop_idx") in
  if is_coloured (_kern (self w)) then
    let (colour_sym, t2) :=
      find_or_create_integer_symbol t1 "colour" (Some "colours_loop_idx") in
    let (cmap_sym, t3) := find_or_create_array t2 "cmap" 2 INTEGER "cmap" in
    exists w',
      cell_position true w = (Ok tt, w') /\
      emitted w w'
        [colourmap (_kern (self w)) +++ "(colour,cell)"]
        [ArrayReference cmap_sym [Reference colour_sym; Reference cell_sym]]
        [event w (sym_name colour_sym) READ None;
         event w (sym_name cell_sym) READ None;
         event w (sym_name cmap_sym) READ (Some ["colour"; "cell"])]
  else
    exists w',
      cell_position true w = (Ok tt, w') /\
      emitted w w' [sym_name cell_sym] [Reference cell_sym]
        [event w "cell" READ None].
Proof.
  unfold cell_position, cell_ref_name, get_array_reference, append,
    psyir_append, symbol_of, bind, get_self, ret, with_symtab, add_access,
    update_self, truthy, emitted, event.
  destruct w as [s acc]. destruct s. exec;
    eexists; (split; [reflexivity | repeat split; emitted_lists]).
Qed.

Lemma truthy_nonempty (n : string) : n <> "" -> truthy (Some n) = Some n.
Proof.
  intros Hn. unfold truthy. destruct (n =? "") eqn:He; [| reflexivity].
  apply String.eqb_eq in He. contradiction.
Qed.

(** C8. [field] pushes exactly one entry, [<proxy_name>%data], and exactly
    one node, the structure reference to member [data] of the symbol that
    [get_user_type] yields for the proxy name; given an access log it logs
    exactly one access, under the name of the field itself and with the
    access mode of the metadata. *)
Theorem field_access_under_field_name arg va w :
  name arg <> "" ->
  exists sym wt w',
    get_user_type (module_name arg) (proxy_data_type arg) (proxy_name arg)
      None [] w = (Ok sym, wt) /\
    field arg va w = (Ok tt, w') /\
    emitted w w'
      [proxy_name arg +++ "%data"]
      [StructureReference sym ["data"]]
      (if va then [event w (name arg) (access arg) None] else []).
Proof.
  intros Hn.
  unfold field, append, append_user_type, get_user_type, psyir_append, bind,
    get_self, ret, with_symtab, add_access, update_self, emitted, event.
  rewrite (truthy_nonempty Hn).
  destruct w as [s acc]. destruct s. destruct va; exec;
    do 3 eexists;
    (split; [reflexivity | split; [reflexivity | repeat split; emitted_lists]]).
Qed.

(** C9. On a kernel whose iteration domain is neither [cell_column] nor
    [domain], [fs_common] returns at once and leaves the orderer and the
    access log exactly as they were: no entry, no node, no ndf position.
    [mesh_height] has the same guard and does the same. *)
Theorem fs_common_skips_other_domains function_space va w :
  iterates_over (_kern (self w)) <> "cell_column" ->
  iterates_over (_kern (self w)) <> "domain" ->
  fs_common function_space va w = (Ok tt, w) /\
  mesh_height va w = (Ok tt, w).
Proof.
  intros Hc Hd.
  assert (str_in (iterates_over (_kern (self w))) ["cell_column"; "domain"]
          = false) as Hguard.
  { unfold str_in. cbn [existsb].
    destruct (iterates_over (_kern (self w)) =? "cell_column") eqn:E1.
    - apply String.eqb_eq in E1. contradiction.
    - destruct (iterates_over (_kern (self w)) =? "domain") eqn:E2;
        [| reflexivity].
      apply String.eqb_eq in E2. contradiction. }
  unfold fs_common, mesh_height, bind, get_self. rewrite Hguard.
  split; reflexivity.
Qed.

(** ** The position records *)

Lemma fresh_orderer_is_open kern (symtab : SymbolTable) :
  _generate_called (__init__ kern symtab) = false.
Proof. reflexivity. Qed.

Lemma generate_freezes schema va w :
  wp (generate schema va)
    (fun _ w' => _generate_called (self w') = true) (fun _ _ => True) w.
Proof.
  unfold generate. apply wp_bind.
  unfold wp at 1.
  destruct (for_each schema (fun op => emit op va) w) as [[u | e] w1];
    [reflexivity | exact I].
Qed.

(** C2. Each of the three position queries raises the InternalError that
    asks for [generate()] to be called first whenever the orderer is not
    Frozen, and returns the positions recorded so far, without changing
    anything, whenever it is. *)
Theorem position_queries_need_frozen w :
  nlayers_positions w =
    ((if _generate_called (self w) then Ok (_nlayers_positions (self w))
      else Raise (generate_not_called "nlayers_positions")), w) /\
  nqp_positions w =
    ((if _generate_called (self w) then Ok (_nqp_positions (self w))
      else Raise (generate_not_called "nqp_positions")), w) /\
  ndf_positions w =
    ((if _generate_called (self w) then Ok (_ndf_positions (self w))
      else Raise (generate_not_called "ndf_positions")), w).
Proof.
  unfold nlayers_positions, nqp_positions, ndf_positions, bind, get_self.
  destruct (_generate_called (self w)); repeat split.
Qed.

(** ** Loops that always return *)

Lemma bind_ok {A B} {m : M A} (f : A -> M B) {w a w1} :
  m w = (Ok a, w1) -> bind m f w = f a w1.
Proof. intros H. unfold bind. rewrite H. reflexivity. Qed.

(** A loop whose body always returns and pushes one entry and one node
    pushes as many of each as there are items. *)
Lemma for_each_counts {A} (body : A -> M unit) (xs : list A) :
  (forall x w, exists w',
      body x w = (Ok tt, w') /\
      n_args w' = S (n_args w) /\ n_nodes w' = S (n_nodes w)) ->
  forall w, exists w',
    for_each xs body w = (Ok tt, w') /\
    n_args w' = n_args w + List.length xs /\
    n_nodes w' = n_nodes w + List.length xs.
Proof.
  intros Hbody. induction xs as [| x rest IH]; intros w.
  - exists w. cbn. repeat split; lia.
  - destruct (Hbody x w) as (w1 & Hrun & Ha & Hn).
    destruct (IH w1) as (w' & Hrest & Ha' & Hn').
    exists w'. cbn [for_each List.length].
    rewrite (bind_ok _ Hrun). repeat split; [exact Hrest | lia | lia].
Qed.

Lemma array_argument_counts array_name indices intrinsic_type va w :
  exists w',
    bind (append_array_reference array_name indices intrinsic_type None)
      (fun sym => append (sym_name sym) va None READ None) w = (Ok tt, w') /\
    n_args w' = S (n_args w) /\ n_nodes w' = S (n_nodes w).
Proof.
  unfold append_array_reference, get_array_reference, append, psyir_append,
    symbol_of, bind, ret, with_symtab, add_access, update_self, truthy,
    n_args, n_nodes.
  destruct w as [s acc]. destruct s. destruct va; exec;
    eexists; (split; [reflexivity |]); cbn; rewrite !length_app; cbn; lia.
Qed.

(** C6. [basis] always returns, and pushes one entry and one node for
    each quadrature rule of the kernel, followed, when [gh_evaluator] is
    among the evaluator shapes, by one more of each for each evaluator
    target: [R + T] of them, and [R] when no evaluator is requested. *)
Theorem basis_emits_rules_plus_targets function_space va w :
  let k := _kern (self w) in
  let r := List.length (qr_rules k) in
  let t :=
    if str_in "gh_evaluator" (eval_shapes k)
    then List.length (eval_targets k) else 0 in
  exists w',
    basis function_space va w = (Ok tt, w') /\
    n_args w' = n_args w + (r + t) /\
    n_nodes w' = n_nodes w + (r + t).
Proof.
  intros k r t. unfold basis.
  rewrite (bind_ok (m := get_self) (w := w) _ eq_refl).
  destruct (for_each_counts
              (fun rule =>
                 bind (append_array_reference
                         (get_basis_name function_space
                            (Some (psy_name rule)) None)
                         [Range; Range; Range; Range] REAL None)
                   (fun sym => append (sym_name sym) va None READ None))
              (map snd (qr_rules (_kern (self w))))
              (fun rule w0 => array_argument_counts _ _ _ va w0) w)
    as (w1 & Hrun1 & Ha1 & Hn1).
  rewrite length_map in Ha1, Hn1.
  rewrite (bind_ok _ Hrun1).
  subst t. fold k. destruct (str_in "gh_evaluator" (eval_shapes k)).
  - destruct (for_each_counts
                (fun target : string * (FunctionSpace * Arg) =>
                   bind (append_array_reference
                           (get_basis_name function_space None
                              (Some (fst (snd target))))
                           [Range; Range; Range] REAL None)
                     (fun sym => append (sym_name sym) va None READ None))
                (eval_targets k)
                (fun target w0 => array_argument_counts _ _ _ va w0) w1)
      as (w2 & Hrun2 & Ha2 & Hn2).
    exists w2. split; [exact Hrun2 |]. subst r k. split; lia.
  - exists w1. split; [reflexivity |]. subst r k. split; lia.
Qed.

(** A loop whose body always returns, pushes one entry and one node and
    logs nothing pushes the entries and the nodes of its items in order. *)
Lemma for_each_emitted {A} (body : A -> M unit) (text : A -> string)
    (node : A -> Node) (xs : list A) :
  (forall x w, exists w',
      body x w = (Ok tt, w') /\ emitted w w' [text x] [node x] []) ->
  forall w, exists w',
    for_each xs body w = (Ok tt, w') /\
    emitted w w' (map text xs) (map node xs) [].
Proof.
  intros Hbody. induction xs as [| x rest IH]; intros w.
  - exists w. split; [reflexivity | apply emitted_refl].
  - destruct (Hbody x w) as (w1 & Hrun & H1).
    destruct (IH w1) as (w' & Hrest & H').
    exists w'. cbn [for_each]. rewrite (bind_ok _ Hrun).
    split; [exact Hrest |].
    exact (emitted_trans H1 H').
Qed.

Lemma range_from_1 (n : Z) :
  range 1 (n + 1) = map Z.of_nat (seq 1 (Z.to_nat n)).
Proof.
  unfold range. replace (n + 1 - 1)%Z with n by lia.
  rewrite <- seq_shift, map_map. apply map_ext. intros i. lia.
Qed.

Lemma range_from_1_length (n : Z) :
  (0 <= n)%Z -> Z.of_nat (List.length (range 1 (n + 1))) = n.
Proof.
  intros Hn. rewrite range_from_1, length_map, length_seq. lia.
Qed.

(** C4. For a vector of size [N >= 0], [field_vector] pushes exactly [N]
    entries and [N] nodes, the structure accesses [<sym>(i)%data] into the
    one array-of-proxies symbol for [i] from 1 to [N] in order, and, given
    an access log, logs exactly one access, under the name of the field
    and with its access mode. *)
Theorem field_vector_one_access argvect va w :
  (0 <= vector_size argvect)%Z ->
  let n := vector_size argvect in
  exists sym wt w',
    get_user_type (module_name argvect) (proxy_data_type argvect)
      (proxy_name argvect) None [Literal (str n) INTEGER_SINGLE_TYPE] w =
      (Ok sym, wt) /\
    field_vector argvect va w = (Ok tt, w') /\
    emitted w w'
      (map (fun idx => sym_name sym +++ "(" +++ str idx +++ ")%data")
         (range 1 (n + 1)))
      (map (fun idx =>
              ArrayOfStructuresReference sym
                [Literal (str idx) INTEGER_SINGLE_TYPE] ["data"])
         (range 1 (n + 1)))
      (if va then [event w (name argvect) (access argvect) None] else []) /\
    range 1 (n + 1) = map Z.of_nat (seq 1 (Z.to_nat n)) /\
    Z.of_nat (n_args w') = (Z.of_nat (n_args w) + n)%Z /\
    Z.of_nat (n_nodes w') = (Z.of_nat (n_nodes w) + n)%Z.
Proof.
  intros Hn n.
  destruct (get_user_type_only_symtab (module_name argvect)
              (proxy_data_type argvect) (proxy_name argvect) None
              [Literal (str n) INTEGER_SINGLE_TYPE] w) as (sym & t & Hsym).
  set (w1 := {| self := set_symtab t (self w); accesses := accesses w |})
    in Hsym.
  assert (emitted w w1 [] [] []) as H1.
  { unfold emitted, w1. cbn. rewrite !app_nil_r. repeat split. }
  destruct (for_each_emitted
              (fun idx =>
                 bind (psyir_append
                         (ArrayOfStructuresReference sym
                            [Literal (str idx) INTEGER_SINGLE_TYPE]
                            ["data"]))
                   (fun _ =>
                      append (sym_name sym +++ "(" +++ str idx +++ ")%data")
                        false None READ (Some (metadata_index argvect))))
              (fun idx => sym_name sym +++ "(" +++ str idx +++ ")%data")
              (fun idx =>
                 ArrayOfStructuresReference sym
                   [Literal (str idx) INTEGER_SINGLE_TYPE] ["data"])
              (range 1 (n + 1))) with (w := w1) as (w2 & Hloop & H2).
  { intros idx w0. eexists. split; [reflexivity |].
    unfold emitted. cbn. rewrite !app_nil_r. repeat split. }
  pose proof (emitted_trans H1 H2) as H12. cbn [app] in H12.
  assert (exists w',
             field_vector argvect va w = (Ok tt, w') /\
             emitted w2 w' [] []
               (if va then [event w (name argvect) (access argvect) None]
                else [])) as (w' & Hrun & H3).
  { unfold field_vector. fold n. rewrite (bind_ok _ Hsym).
    rewrite (bind_ok _ Hloop).
    destruct va.
    - eexists. split; [reflexivity |].
      destruct H12 as (_ & _ & _ & Hk & _).
      unfold emitted, event. cbn. rewrite Hk, !app_nil_r. repeat split.
    - eexists. split; [reflexivity | apply emitted_refl]. }
  pose proof (emitted_trans H12 H3) as H. rewrite !app_nil_r in H.
  cbn [app] in H.
  exists sym, w1, w'. split; [exact Hsym |]. split; [exact Hrun |].
  split; [exact H |]. split; [apply range_from_1 |].
  destruct H as (Ha & Hp & _). unfold n_args, n_nodes.
  rewrite Ha, Hp, !length_app, !length_map, !Nat2Z.inj_add.
  pose proof (range_from_1_length Hn) as Hl. fold n in Hl.
  rewrite Hl. split; reflexivity.
Qed.

Lemma event_same_kern w w1 variable mode indices :
  _kern (self w1) = _kern (self w) ->
  event w1 variable mode indices = event w variable mode indices.
Proof. intros H. unfold event. rewrite H. reflexivity. Qed.

Lemma cma_parameter_emitted arg va component w :
  component <> "matrix" ->
  exists sym w',
    cma_operator_component arg va component w = (Ok tt, w') /\
    parameter_symbol arg component sym /\
    emitted w w' [sym_name sym] [Reference sym]
      (if va then [event w (sym_name sym) READ None] else []).
Proof.
  intros Hc. apply String.eqb_neq in Hc.
  unfold cma_operator_component, append_integer_reference, append,
    psyir_append, bind, ret, with_symtab, add_access, update_self, truthy,
    emitted, event, parameter_symbol.
  rewrite Hc.
  destruct w as [s acc]. destruct s. destruct va; exec;
    do 2 eexists;
    (split; [reflexivity |
             split; [do 2 eexists; eassumption
                    | repeat split; emitted_lists]]).
Qed.

Lemma cma_parameters_emitted arg va (aux : list string) :
  Forall (fun c => c <> "matrix") aux ->
  forall w, exists syms w',
    for_each aux (cma_operator_component arg va) w = (Ok tt, w') /\
    Forall2 (parameter_symbol arg) aux syms /\
    emitted w w' (map sym_name syms) (map Reference syms)
      (if va
       then map (fun sym => event w (sym_name sym) READ None) syms
       else []).
Proof.
  induction 1 as [| c rest Hc Hrest IH]; intros w.
  - exists [], w. split; [reflexivity |]. split; [constructor |].
    destruct va; apply emitted_refl.
  - destruct (cma_parameter_emitted arg va w Hc)
      as (sym & w1 & Hrun & Hsym & H1).
    destruct (IH w1) as (syms & w' & Hloop & Hsyms & H2).
    exists (sym :: syms), w'. cbn [for_each]. rewrite (bind_ok _ Hrun).
    split; [exact Hloop |]. split; [constructor; assumption |].
    pose proof (emitted_trans H1 H2) as H.
    assert (_kern (self w1) = _kern (self w)) as Hk by apply H1.
    destruct va; cbn [app map] in *; [| exact H].
    replace (map (fun s => event w1 (sym_name s) READ None) syms)
      with (map (fun s => event w (sym_name s) READ None) syms) in H;
      [exact H |].
    apply map_ext. intros s. symmetry. apply event_same_kern. exact Hk.
Qed.

Lemma cma_matrix_emitted arg va w :
  exists sym t w',
    find_or_create_array (_symtab (self w)) (name arg +++ "_" +++ "matrix")
      3 REAL (name arg +++ "_" +++ "matrix") = (sym, t) /\
    cma_operator_component arg va "matrix" w = (Ok tt, w') /\
    emitted w w' [sym_name sym] [ArrayReference sym [Range; Range; Range]]
      (if va then [event w (sym_name sym) (access arg) None] else []).
Proof.
  unfold cma_operator_component, append_array_reference,
    get_array_reference, symbol_of, append, psyir_append, bind, ret,
    with_symtab, add_access, update_self, truthy, emitted, event.
  change ("matrix" =? "matrix") with true.
  destruct w as [s acc]. destruct s. destruct va; exec;
    do 3 eexists;
    (split; [reflexivity |
             split; [reflexivity | repeat split; emitted_lists]]).
Qed.

(** C5. [cma_operator] pushes the matrix first, an array reference of
    rank three logged with the access mode of the metadata whether or not
    the two function spaces are the same, and then one integer reference
    for each parameter of [cma_diff_fs_params] when the original names of
    the two spaces differ and of [cma_same_fs_params] when they are equal,
    in order, each logged as a read. The parameter lists are those of
    [DynCMAOperators]; none of their members is called [matrix], and
    nothing else is asked of them: the two lists may share members. *)
Theorem cma_operator_matrix_then_parameters arg va w :
  let aux :=
    if orig_name (function_space_to arg) =?
       orig_name (function_space_from arg)
    then cma_same_fs_params else cma_diff_fs_params in
  Forall (fun c => c <> "matrix") aux ->
  exists matrix_sym t aux_syms w',
    find_or_create_array (_symtab (self w)) (name arg +++ "_" +++ "matrix")
      3 REAL (name arg +++ "_" +++ "matrix") = (matrix_sym, t) /\
    Forall2 (parameter_symbol arg) aux aux_syms /\
    cma_operator arg va w = (Ok tt, w') /\
    emitted w w'
      (sym_name matrix_sym :: map sym_name aux_syms)
      (ArrayReference matrix_sym [Range; Range; Range]
         :: map Reference aux_syms)
      (if va
       then event w (sym_name matrix_sym) (access arg) None
              :: map (fun sym => event w (sym_name sym) READ None) aux_syms
       else []).
Proof.
  intros aux Haux.
  destruct (cma_matrix_emitted arg va w) as (msym & t & w1 & Hm & Hrun1 & H1).
  destruct (cma_parameters_emitted arg va Haux w1)
    as (syms & w' & Hrun2 & Hsyms & H2).
  exists msym, t, syms, w'. split; [exact Hm |]. split; [exact Hsyms |].
  split.
  - unfold cma_operator.
    replace (if negb (orig_name (function_space_to arg) =?
                      orig_name (function_space_from arg))
             then cma_diff_fs_params else cma_same_fs_params) with aux
      by (unfold aux; destruct (_ =? _); reflexivity).
    cbn [app for_each]. rewrite (bind_ok _ Hrun1). exact Hrun2.
  - pose proof (emitted_trans H1 H2) as H.
    assert (_kern (self w1) = _kern (self w)) as Hk by apply H1.
    destruct va; cbn [app map] in *; [| exact H].
    replace (map (fun s => event w1 (sym_name s) READ None) syms)
      with (map (fun s => event w (sym_name s) READ None) syms) in H;
      [exact H |].
    apply map_ext. intros s. symmetry. apply event_same_kern. exact Hk.
Qed.

(** ** Quadrature rules *)

Lemma wp_both {A} (m : M A) (P : World -> Prop) w :
  wp m (fun _ w' => P w') (fun _ w' => P w') w -> P (snd (m w)).
Proof. unfold wp. destruct (m w) as [[a | e] w']; trivial. Qed.

(** The nodes of a rule never touch the flat list or the recorded
    positions, whether the loop finishes or raises. *)
Lemma quad_rule_psyir_frame rule w :
  _arglist (self (snd (quad_rule_psyir rule w))) = _arglist (self w) /\
  _nqp_positions (self (snd (quad_rule_psyir rule w))) =
    _nqp_positions (self w).
Proof.
  apply wp_both with
    (P := fun w' => _arglist (self w') = _arglist (self w) /\
                    _nqp_positions (self w') = _nqp_positions (self w)).
  unfold quad_rule_psyir.
  apply wp_for_each with
    (I := fun (_ : list string) w1 =>
            _arglist (self w1) = _arglist (self w) /\
            _nqp_positions (self w1) = _nqp_positions (self w)).
  - split; reflexivity.
  - intros arg rest w1 [Ha Hq].
    unfold wp, append_integer_reference, append_array_reference,
      get_array_reference, symbol_of, psyir_append, bind, ret, raise,
      with_symtab, update_self.
    destruct w1 as [s1 acc1]. destruct s1. cbn in Ha, Hq.
    exec; split; assumption.
  - intros w1 H. exact H.
Qed.

Lemma extend_effect names va w :
  exists w',
    extend names va w = (Ok tt, w') /\
    _arglist (self w') = _arglist (self w) ++ names /\
    _nqp_positions (self w') = _nqp_positions (self w).
Proof.
  unfold extend, bind, update_self. destruct va.
  - match goal with
    | |- context [for_each names ?b ?w0] =>
        assert (wp (for_each names b)
                  (fun _ w' =>
                     _arglist (self w') = _arglist (self w) ++ names /\
                     _nqp_positions (self w') = _nqp_positions (self w))
                  (fun _ _ => False) w0) as H
    end.
    { apply wp_for_each with
        (I := fun (_ : list string) w1 =>
                _arglist (self w1) = _arglist (self w) ++ names /\
                _nqp_positions (self w1) = _nqp_positions (self w)).
      - split; reflexivity.
      - intros v rest w1 H1. exact H1.
      - intros w1 H1. exact H1. }
    apply wp_ok in H. destruct H as ([] & w' & Hrun & H). eauto.
  - eexists. split; [reflexivity |]. split; reflexivity.
Qed.

(** What one item of [qr_rules] does to the recorded positions, however
    it ends, and to the length of the flat list when it returns. *)
Lemma quad_rule_item_effect shape rule va w :
  _nqp_positions (self (snd (quad_rule_item (shape, rule) va w))) =
    _nqp_positions (self w) ++
    (if shape =? "gh_quadrature_xyoz" then [nqp_entry (n_args w)] else []) /\
  (forall u w',
     quad_rule_item (shape, rule) va w = (Ok u, w') ->
     n_args w' = n_args w + List.length (kernel_args rule)).
Proof.
  assert (forall w1 : World,
            _arglist (self w1) = _arglist (self w) ++ kernel_args rule ->
            forall u w',
              quad_rule_psyir rule w1 = (Ok u, w') ->
              n_args w' = n_args w + List.length (kernel_args rule))
    as Hcount.
  { intros w1 Ha1 u w' Hrun.
    destruct (quad_rule_psyir_frame rule w1) as [Ha _].
    rewrite Hrun in Ha. cbn [snd] in Ha. unfold n_args.
    rewrite Ha, Ha1, length_app. reflexivity. }
  unfold quad_rule_item.
  destruct (shape =? "gh_quadrature_xyoz") eqn:Exyoz.
  - destruct (extend_effect (kernel_args rule) va
                {| self := set_nqp_positions
                             (_nqp_positions (self w) ++
                              [nqp_entry (n_args w)]) (self w);
                   accesses := accesses w |})
      as (w1 & Hext & Ha1 & Hq1).
    cbn in Ha1, Hq1.
    rewrite (bind_ok (w := w) (w1 := w1) (a := tt) _ Hext).
    destruct (quad_rule_psyir_frame rule w1) as [_ Hq].
    split; [rewrite Hq; exact Hq1 | exact (Hcount w1 Ha1)].
  - destruct (shape =? "gh_quadrature_edge") eqn:Eedge;
      [| destruct (shape =? "gh_quadrature_face") eqn:Eface].
    + destruct (extend_effect (kernel_args rule) va w)
        as (w1 & Hext & Ha1 & Hq1).
      rewrite (bind_ok _ Hext).
      destruct (quad_rule_psyir_frame rule w1) as [_ Hq].
      split; [rewrite Hq, Hq1, app_nil_r; reflexivity | exact (Hcount w1 Ha1)].
    + destruct (extend_effect (kernel_args rule) va w)
        as (w1 & Hext & Ha1 & Hq1).
      rewrite (bind_ok _ Hext).
      destruct (quad_rule_psyir_frame rule w1) as [_ Hq].
      split; [rewrite Hq, Hq1, app_nil_r; reflexivity | exact (Hcount w1 Ha1)].
    + split; [cbn; rewrite app_nil_r; reflexivity |].
      intros u w' Hrun. discriminate Hrun.
Qed.

Lemma quad_rule_items_positions items va :
  forall w,
    wp (quad_rule_items items va)
      (fun _ w' =>
         _nqp_positions (self w') =
           _nqp_positions (self w) ++ nqp_entries (n_args w) items)
      (fun _ _ => True) w.
Proof.
  unfold quad_rule_items.
  induction items as [| [shape rule] rest IH]; intros w.
  - apply wp_ret. cbn. rewrite app_nil_r. reflexivity.
  - cbn [for_each nqp_entries]. apply wp_bind.
    destruct (quad_rule_item_effect shape rule va w) as [Hq Hn].
    unfold wp at 1.
    destruct (quad_rule_item (shape, rule) va w) as [[u | e] w1] eqn:Hrun;
      [| exact I].
    cbn [snd] in Hq. specialize (Hn u w1 eq_refl).
    eapply wp_mono; [apply IH | | auto].
    intros u' w' H. cbn beta in H. rewrite H, Hq, Hn, app_assoc.
    reflexivity.
Qed.

(** C10. However it ends, the processing of an item of [qr_rules] of
    shape [gh_quadrature_xyoz] records exactly one entry, with
    [horizontal] at [n + 1] and [vertical] at [n + 2] for [n] the length
    of the flat list before the arguments of the rule are pushed; an item
    of shape [gh_quadrature_edge] or [gh_quadrature_face] records none.
    So when [quad_rule] returns, the new entries of [_nqp_positions] are
    those of the XYoZ items alone. *)
Theorem quad_rule_records_xyoz_positions_only rule va w :
  _nqp_positions
    (self (snd (quad_rule_item ("gh_quadrature_xyoz", rule) va w))) =
    _nqp_positions (self w) ++
    [[("horizontal", n_args w + 1); ("vertical", n_args w + 2)]] /\
  _nqp_positions
    (self (snd (quad_rule_item ("gh_quadrature_edge", rule) va w))) =
    _nqp_positions (self w) /\
  _nqp_positions
    (self (snd (quad_rule_item ("gh_quadrature_face", rule) va w))) =
    _nqp_positions (self w) /\
  wp (quad_rule va)
    (fun _ w' =>
       _nqp_positions (self w') =
         _nqp_positions (self w) ++
         nqp_entries (n_args w) (qr_rules (_kern (self w))))
    (fun _ _ => True) w.
Proof.
  repeat split.
  - apply (quad_rule_item_effect "gh_quadrature_xyoz" rule va w).
  - rewrite (proj1 (quad_rule_item_effect "gh_quadrature_edge" rule va w)).
    apply app_nil_r.
  - rewrite (proj1 (quad_rule_item_effect "gh_quadrature_face" rule va w)).
    apply app_nil_r.
  - unfold quad_rule. apply wp_bind. unfold wp at 1, get_self.
    apply quad_rule_items_positions.
Qed.

Lemma for_each_app {A} (body : A -> M unit) (xs ys : list A) w w1 :
  for_each xs body w = (Ok tt, w1) ->
  for_each (xs ++ ys) body w = for_each ys body w1.
Proof.
  revert w. induction xs as [| x rest IH]; intros w Hrun.
  - cbn in Hrun. inversion Hrun. reflexivity.
  - cbn [app for_each] in *. unfold bind in *.
    destruct (body x w) as [[u | e] w2]; [| discriminate Hrun].
    apply IH. exact Hrun.
Qed.

(** C7, amended. When [qr_rules] holds an item of a shape outside
    [supported_qr_shapes] and the items before it are processed without
    an error, [quad_rule] raises the NotImplementedError for that shape
    and leaves the orderer as those earlier items left it: it pushes
    nothing for the unsupported item or for any item after it. When the
    unsupported item is the first one, nothing is pushed at all. *)
Theorem quad_rule_rejects_unsupported_shape pre shape rule post va w w1 :
  str_in shape supported_qr_shapes = false ->
  qr_rules (_kern (self w)) = pre ++ (shape, rule) :: post ->
  quad_rule_items pre va w = (Ok tt, w1) ->
  quad_rule va w = (Raise (unsupported_shape shape), w1).
Proof.
  intros Hshape Hrules Hpre.
  unfold quad_rule.
  rewrite (bind_ok (m := get_self) (w := w) _ eq_refl). rewrite Hrules.
  unfold quad_rule_items in *.
  rewrite (@for_each_app _ _ _ _ _ _ Hpre).
  unfold str_in, supported_qr_shapes in Hshape. cbn [existsb] in Hshape.
  apply orb_false_elim in Hshape. destruct Hshape as [Hxyoz Hshape].
  apply orb_false_elim in Hshape. destruct Hshape as [Hedge Hshape].
  apply orb_false_elim in Hshape. destruct Hshape as [Hface _].
  cbn [for_each]. unfold quad_rule_item, bind.
  rewrite Hxyoz, Hedge, Hface. reflexivity.
Qed.

End Theory.

(** * Further properties of the orderer *)

Section Coverage.

Context {SymbolTable : Type} {C : @Collaborators SymbolTable}.

Local Abbreviation World := (@World SymbolTable).
Local Abbreviation M := (@M SymbolTable).
Local Abbreviation keeps m R := (@keeps SymbolTable _ m R).

Implicit Types (w : World).

(** ** The relation [steps] *)

Lemma advances_refl va w : advances va w w.
Proof.
  unfold advances. repeat split; exists []; rewrite app_nil_r; auto.
Qed.

Lemma advances_trans va w w1 w2 :
  advances va w w1 -> advances va w1 w2 -> advances va w w2.
Proof.
  unfold advances.
  intros (Hk & Hg & [a Ha] & [p Hp] & [l Hl] & [q Hq] & [d Hd]
          & [e [He Hs]])
         (Hk' & Hg' & [a' Ha'] & [p' Hp'] & [l' Hl'] & [q' Hq'] & [d' Hd']
          & [e' [He' Hs']]).
  split; [congruence |]. split; [congruence |].
  split; [exists (a ++ a'); rewrite Ha', Ha, app_assoc; reflexivity |].
  split; [exists (p ++ p'); rewrite Hp', Hp, app_assoc; reflexivity |].
  split; [exists (l ++ l'); rewrite Hl', Hl, app_assoc; reflexivity |].
  split; [exists (q ++ q'); rewrite Hq', Hq, app_assoc; reflexivity |].
  split; [exists (d ++ d'); rewrite Hd', Hd, app_assoc; reflexivity |].
  exists (e ++ e'). split; [rewrite He', He, app_assoc; reflexivity |].
  intros Hva. rewrite (Hs Hva), (Hs' Hva). reflexivity.
Qed.

Lemma steps_refl va w : steps va w w.
Proof. split; [apply advances_refl | auto]. Qed.

Lemma steps_trans va w w1 w2 :
  steps va w w1 -> steps va w1 w2 -> steps va w w2.
Proof.
  intros [Ha Hr] [Ha' Hr']. split; [eapply advances_trans; eauto | auto].
Qed.

Lemma steps_intro va w w' names nodes nq events :
  _kern (self w') = _kern (self w) ->
  _generate_called (self w') = _generate_called (self w) ->
  _arglist (self w') = _arglist (self w) ++ names ->
  _psyir_arglist (self w') = _psyir_arglist (self w) ++ nodes ->
  _nlayers_positions (self w') = _nlayers_positions (self w) ->
  _nqp_positions (self w') = _nqp_positions (self w) ++ nq ->
  _ndf_positions (self w') = _ndf_positions (self w) ->
  accesses w' = accesses w ++ events ->
  (va = false -> events = []) ->
  steps va w w'.
Proof.
  intros Hk Hg Ha Hp Hl Hq Hd He Hs. split.
  - unfold advances. split; [exact Hk |]. split; [exact Hg |].
    split; [eauto |]. split; [eauto |].
    split; [exists []; rewrite app_nil_r; exact Hl |].
    split; [eauto |].
    split; [exists []; rewrite app_nil_r; exact Hd |]. eauto.
  - unfold positions_in_range, n_args. rewrite Hl, Hd, Ha, length_app.
    intros [H1 H2]. split; (eapply Forall_impl; [| eassumption]);
      cbn beta; intros; lia.
Qed.

Lemma keeps_intro {A} (m : M A) va :
  (forall w, steps va w w ->
     wp m (fun _ w' => steps va w w') (fun _ w' => steps va w w') w) ->
  keeps m (steps va).
Proof.
  intros H w. specialize (H w (steps_refl va w)). unfold wp in H.
  destruct (m w) as [[a | e] w']; exact H.
Qed.

Lemma wp_keeps {A} (m : M A) va w0 w1 (Q : A -> World -> Prop) :
  keeps m (steps va) ->
  steps va w0 w1 ->
  (forall a w2, steps va w0 w2 -> Q a w2) ->
  wp m Q (fun _ w' => steps va w0 w') w1.
Proof.
  intros Hm H01 HQ. pose proof (Hm w1) as H12. unfold wp.
  destruct (m w1) as [[a | e] w2]; cbn [snd] in H12.
  - apply HQ. eapply steps_trans; eassumption.
  - eapply steps_trans; eassumption.
Qed.

Lemma keeps_unchanged {A} (m : M A) va :
  (forall w, snd (m w) = w) -> keeps m (steps va).
Proof. intros H w. rewrite H. apply steps_refl. Qed.

Lemma keeps_ret {A} (a : A) va : keeps (ret a) (steps va).
Proof. apply keeps_unchanged. reflexivity. Qed.

Lemma keeps_raise {A} e va : keeps (raise e : M A) (steps va).
Proof. apply keeps_unchanged. reflexivity. Qed.

Lemma keeps_get_self va : keeps get_self (steps va).
Proof. apply keeps_unchanged. reflexivity. Qed.

Lemma keeps_num_args va : keeps num_args (steps va).
Proof. apply keeps_unchanged. reflexivity. Qed.

Lemma keeps_first {A} (l : list A) va : keeps (first l) (steps va).
Proof. apply keeps_unchanged. destruct l; reflexivity. Qed.

Lemma keeps_symbol_of ref va : keeps (symbol_of ref) (steps va).
Proof. apply keeps_unchanged. destruct ref; reflexivity. Qed.

Lemma keeps_arg_on_space fs va : keeps (arg_on_space fs) (steps va).
Proof.
  apply keeps_unchanged. intros w. unfold arg_on_space, bind, get_self.
  destruct (get_arg_on_space _ fs); reflexivity.
Qed.

Lemma keeps_with_symtab {A} (op : SymbolTable -> A * SymbolTable) va :
  keeps (with_symtab op) (steps va).
Proof.
  intros w. unfold with_symtab. destruct (op _) as [a t].
  eapply steps_intro with (names := []) (nodes := []) (nq := [])
    (events := []); cbn; try reflexivity; rewrite ?app_nil_r; reflexivity.
Qed.

Lemma keeps_add_access sig mode indices :
  keeps (add_access sig mode indices) (steps true).
Proof.
  intros w. unfold add_access.
  eapply steps_intro with (names := []) (nodes := []) (nq := []);
    cbn; try reflexivity; rewrite ?app_nil_r; try reflexivity;
    discriminate.
Qed.

Lemma keeps_psyir_append node va : keeps (psyir_append node) (steps va).
Proof.
  intros w. unfold psyir_append, update_self.
  eapply steps_intro with (names := []) (nq := []) (events := []);
    cbn; try reflexivity; rewrite ?app_nil_r; reflexivity.
Qed.

Lemma keeps_record_nqp entry va :
  keeps (update_self
           (fun s => set_nqp_positions (_nqp_positions s ++ [entry]) s))
    (steps va).
Proof.
  intros w. unfold update_self.
  eapply steps_intro with (names := []) (nodes := []) (events := []);
    cbn; try reflexivity; rewrite ?app_nil_r; reflexivity.
Qed.

Lemma keeps_append var_name va var_access_name mode posn :
  keeps (append var_name va var_access_name mode posn) (steps va).
Proof.
  intros w. unfold append, bind, update_self, add_access, ret.
  destruct va; [destruct (truthy var_access_name) |]; cbn [snd];
    eapply steps_intro with (nodes := []) (nq := []);
    cbn; try reflexivity; rewrite ?app_nil_r; try reflexivity;
    try discriminate.
Qed.

Lemma keeps_append_silent var_name va var_access_name mode posn :
  keeps (append var_name false var_access_name mode posn) (steps va).
Proof.
  intros w. unfold append, bind, update_self, ret. cbn [snd].
  eapply steps_intro with (nodes := []) (nq := []) (events := []);
    cbn; try reflexivity; rewrite ?app_nil_r; reflexivity.
Qed.

Lemma keeps_for_each {A} (xs : list A) (body : A -> M unit) va :
  (forall x, keeps (body x) (steps va)) ->
  keeps (for_each xs body) (steps va).
Proof.
  intros Hbody. apply keeps_intro. intros w Hw.
  apply wp_for_each with (I := fun (_ : list A) w1 => steps va w w1).
  - exact Hw.
  - intros x rest w1 H1. apply wp_keeps; auto.
  - auto.
Qed.

Lemma keeps_extend names va : keeps (extend names va) (steps va).
Proof.
  apply keeps_intro. intros w Hw. unfold extend. apply wp_bind.
  unfold wp at 1, update_self.
  assert (steps va w
            {| self := set_arglist (_arglist (self w) ++ names) (self w);
               accesses := accesses w |}) as H1.
  { eapply steps_intro with (nodes := []) (nq := []) (events := []);
      cbn; try reflexivity; rewrite ?app_nil_r; reflexivity. }
  destruct va.
  - apply wp_keeps; [| exact H1 | auto].
    apply keeps_for_each. intros v. apply keeps_add_access.
  - exact H1.
Qed.

Lemma keeps_extend_silent names va : keeps (extend names false) (steps va).
Proof.
  intros w. unfold extend, bind, update_self, ret. cbn [snd].
  eapply steps_intro with (nodes := []) (nq := []) (events := []);
    cbn; try reflexivity; rewrite ?app_nil_r; reflexivity.
Qed.

Create HintDb keeps.

Hint Resolve keeps_ret keeps_get_self keeps_num_args keeps_first
  keeps_symbol_of keeps_arg_on_space keeps_with_symtab keeps_add_access
  keeps_psyir_append keeps_record_nqp keeps_append keeps_append_silent
  keeps_extend keeps_extend_silent : keeps.

(** Symbolic execution of a method for [steps]: split a sequence, use
    what its first command is known to keep, follow a branch, and treat a
    loop as one command. *)
Ltac keeps_run :=
  repeat (cbv beta zeta;
    lazymatch goal with
    | |- wp (bind _ _) _ _ _ => apply wp_bind
    | |- wp (raise _) _ _ _ => apply wp_raise; eassumption
    | |- wp (ret _) _ _ _ => apply wp_ret
    | |- wp (if ?b then _ else _) _ _ _ => destruct b
    | |- wp (match ?x with _ => _ end) _ _ _ => destruct x
    | |- wp (for_each _ _) _ _ _ =>
        eapply wp_keeps;
        [apply keeps_for_each; intros ?; apply keeps_intro; intros ? ?;
         keeps_run
        | eassumption | intros ? ? ?]
    | |- wp _ _ _ _ =>
        eapply wp_keeps;
        [solve [eauto with keeps] | eassumption | intros ? ? ?]
    | |- steps _ _ _ => eassumption
    end).

Ltac keeps_auto := apply keeps_intro; intros ? ?; keeps_run.

Lemma keeps_append_integer_reference name tag va :
  keeps (append_integer_reference name tag) (steps va).
Proof. unfold append_integer_reference. keeps_auto. Qed.

Lemma keeps_get_array_reference array_name indices intrinsic_type symbol va :
  keeps (get_array_reference array_name indices intrinsic_type symbol)
    (steps va).
Proof. unfold get_array_reference. keeps_auto. Qed.

Hint Resolve keeps_append_integer_reference keeps_get_array_reference
  : keeps.

Lemma keeps_append_array_reference array_name indices intrinsic_type symbol
    va :
  keeps (append_array_reference array_name indices intrinsic_type symbol)
    (steps va).
Proof. unfold append_array_reference. keeps_auto. Qed.

Lemma keeps_ArgOrdering_scalar scalar_arg va :
  keeps (ArgOrdering_scalar scalar_arg va) (steps va).
Proof. unfold ArgOrdering_scalar. keeps_auto. Qed.

Lemma keeps_get_user_type module_name user_type name tag shape va :
  keeps (get_user_type module_name user_type name tag shape) (steps va).
Proof. unfold get_user_type. keeps_auto. Qed.

Hint Resolve keeps_append_array_reference keeps_ArgOrdering_scalar
  keeps_get_user_type : keeps.

Lemma keeps_ArgOrdering_fs_common function_space va :
  keeps (ArgOrdering_fs_common function_space va) (steps va).
Proof. unfold ArgOrdering_fs_common. keeps_auto. Qed.

Lemma keeps_append_user_type module_name user_type member_list name tag va :
  keeps (append_user_type module_name user_type member_list name tag)
    (steps va).
Proof. unfold append_user_type. keeps_auto. Qed.

Lemma keeps_cell_ref_name va : keeps (cell_ref_name va) (steps va).
Proof. unfold cell_ref_name. keeps_auto. Qed.

Hint Resolve keeps_ArgOrdering_fs_common keeps_append_user_type
  keeps_cell_ref_name : keeps.

(** Run a method on a symbolic world: take the innermost pending
    symbol-table result or branch apart, again and again. *)
Ltac run_all :=
  repeat (cbn -[String.append String.eqb str];
          match goal with
          | |- context [match ?x with _ => _ end] =>
              lazymatch x with
              | context [match _ with _ => _ end] => fail
              | _ => destruct x eqn:?
              end
          end).

Lemma positions_after_push w w' :
  (exists names, _arglist (self w') = _arglist (self w) ++ names) ->
  Forall (fun p => 1 <= p <= n_args w) (_nlayers_positions (self w)) ->
  Forall (fun p => 1 <= p <= n_args w') (_nlayers_positions (self w)).
Proof.
  intros [names Ha] H. eapply Forall_impl; [| exact H].
  cbn beta. unfold n_args. rewrite Ha, length_app. intros; lia.
Qed.

Lemma ndf_positions_after_push w w' :
  (exists names, _arglist (self w') = _arglist (self w) ++ names) ->
  Forall (fun i => 1 <= position i <= n_args w) (_ndf_positions (self w)) ->
  Forall (fun i => 1 <= position i <= n_args w')
    (_ndf_positions (self w)).
Proof.
  intros [names Ha] H. eapply Forall_impl; [| exact H].
  cbn beta. unfold n_args. rewrite Ha, length_app. intros; lia.
Qed.

(** Pushing an entry and recording the length of the flat list as an
    nlayers position, as [mesh_height] does. *)
Lemma keeps_record_nlayers var_name va var_access_name mode posn :
  keeps (bind (append var_name va var_access_name mode posn)
           (fun _ =>
              bind num_args
                (fun n =>
                   update_self
                     (fun s =>
                        set_nlayers_positions
                          (_nlayers_positions s ++ [n]) s))))
    (steps va).
Proof.
  intros w.
  unfold append, num_args, bind, get_self, ret, update_self, add_access.
  assert (forall acc' events,
            acc' = accesses w ++ events ->
            (va = false -> events = []) ->
            steps va w
              {| self :=
                   set_nlayers_positions
                     (_nlayers_positions (self w) ++
                      [List.length (_arglist (self w) ++ [var_name])])
                     (set_arglist (_arglist (self w) ++ [var_name])
                        (self w));
                 accesses := acc' |}) as H.
  { intros acc' events Hacc Hs. split.
    - unfold advances. cbn. repeat apply conj;
        first [reflexivity | eexists; reflexivity
              | exists []; symmetry; apply app_nil_r | eauto].
    - intros [H1 H2]. unfold positions_in_range, n_args. cbn. split.
      + apply Forall_app. split.
        * eapply Forall_impl; [| exact H1]. cbn beta. unfold n_args.
          rewrite length_app. intros; lia.
        * constructor; [| constructor]. rewrite length_app. cbn. lia.
      + eapply Forall_impl; [| exact H2]. cbn beta. unfold n_args.
        rewrite length_app. intros; lia. }
  destruct va; [destruct (truthy var_access_name) |]; cbn [snd].
  - eapply H; [reflexivity | discriminate].
  - eapply H; [reflexivity | discriminate].
  - apply (H _ []); [symmetry; apply app_nil_r | reflexivity].
Qed.

(** Pushing the ndf argument and recording the length of the flat list
    as its position, as [fs_common] does. *)
Lemma keeps_record_ndf function_space va :
  keeps (bind (ArgOrdering_fs_common function_space va)
           (fun _ =>
              bind num_args
                (fun n =>
                   update_self
                     (fun s =>
                        set_ndf_positions
                          (_ndf_positions s ++
                           [{| position := n;
                               function_space := orig_name function_space |}])
                          s))))
    (steps va).
Proof.
  intros w.
  unfold ArgOrdering_fs_common, append_integer_reference, psyir_append,
    append, num_args, bind, get_self, ret, update_self, add_access,
    with_symtab, truthy.
  destruct (find_or_create_integer_symbol _ _ _) as [sym t].
  assert (forall acc' events,
            acc' = accesses w ++ events ->
            (va = false -> events = []) ->
            steps va w
              {| self :=
                   set_ndf_positions
                     (_ndf_positions (self w) ++
                      [{| position :=
                            List.length (_arglist (self w) ++ [sym_name sym]);
                          function_space := orig_name function_space |}])
                     (set_arglist (_arglist (self w) ++ [sym_name sym])
                        (set_psyir_arglist
                           (_psyir_arglist (self w) ++ [Reference sym])
                           (set_symtab t (self w))));
                 accesses := acc' |}) as H.
  { intros acc' events Hacc Hs. split.
    - unfold advances. cbn. repeat apply conj;
        first [reflexivity | eexists; reflexivity
              | exists []; symmetry; apply app_nil_r | eauto].
    - intros [H1 H2]. unfold positions_in_range, n_args. cbn. split.
      + eapply Forall_impl; [| exact H1]. cbn beta. unfold n_args.
        rewrite length_app. intros; lia.
      + apply Forall_app. split.
        * eapply Forall_impl; [| exact H2]. cbn beta. unfold n_args.
          rewrite length_app. intros; lia.
        * constructor; [| constructor]. cbn. rewrite length_app. cbn. lia. }
  destruct va; cbn [snd].
  - eapply H; [reflexivity | discriminate].
  - apply (H _ []); [symmetry; apply app_nil_r | reflexivity].
Qed.

(** ** Every emit method keeps [steps] *)

Lemma keeps_cell_position va : keeps (cell_position va) (steps va).
Proof. unfold cell_position. keeps_auto. Qed.

Lemma keeps_cell_map va : keeps (cell_map va) (steps va).
Proof. unfold cell_map. keeps_auto. Qed.

Lemma keeps_mesh_height va : keeps (mesh_height va) (steps va).
Proof.
  apply keeps_intro. intros w Hw. unfold mesh_height. apply wp_bind.
  eapply wp_keeps; [apply keeps_get_self | eassumption | intros s w1 H1].
  cbv beta. destruct (negb _); [apply wp_ret; assumption |].
  apply wp_bind.
  eapply wp_keeps;
    [apply keeps_append_integer_reference | eassumption | intros sym w2 H2].
  cbv beta.
  eapply wp_keeps; [apply keeps_record_nlayers | eassumption | auto].
Qed.

Lemma keeps_scalar a va : keeps (scalar a va) (steps va).
Proof. unfold scalar. keeps_auto. Qed.

Lemma keeps_mesh_ncell2d va : keeps (_mesh_ncell2d va) (steps va).
Proof. unfold _mesh_ncell2d. keeps_auto. Qed.

Lemma keeps_mesh_ncell2d_no_halos va :
  keeps (_mesh_ncell2d_no_halos va) (steps va).
Proof. unfold _mesh_ncell2d_no_halos. keeps_auto. Qed.

Lemma keeps_cma_operator a va : keeps (cma_operator a va) (steps va).
Proof.
  unfold cma_operator. apply keeps_for_each. intros component.
  unfold cma_operator_component. keeps_auto.
Qed.

Lemma keeps_field_vector a va : keeps (field_vector a va) (steps va).
Proof. unfold field_vector. keeps_auto. Qed.

Lemma keeps_field a va : keeps (field a va) (steps va).
Proof. unfold field. keeps_auto. Qed.

Lemma keeps_stencil_unknown_extent a va :
  keeps (stencil_unknown_extent a va) (steps va).
Proof. unfold stencil_unknown_extent. keeps_auto. Qed.

Lemma keeps_stencil_2d_unknown_extent a va :
  keeps (stencil_2d_unknown_extent a va) (steps va).
Proof. unfold stencil_2d_unknown_extent. keeps_auto. Qed.

Lemma keeps_stencil_2d_max_extent a va :
  keeps (stencil_2d_max_extent a va) (steps va).
Proof. unfold stencil_2d_max_extent. keeps_auto. Qed.

Lemma keeps_stencil_unknown_direction a va :
  keeps (stencil_unknown_direction a va) (steps va).
Proof. unfold stencil_unknown_direction. keeps_auto. Qed.

Lemma keeps_stencil a va : keeps (stencil a va) (steps va).
Proof. unfold stencil. keeps_auto. Qed.

Lemma keeps_stencil_2d a va : keeps (stencil_2d a va) (steps va).
Proof. unfold stencil_2d. keeps_auto. Qed.

Lemma keeps_operator a va : keeps (operator a va) (steps va).
Proof. unfold operator. keeps_auto. Qed.

Lemma keeps_fs_common fs va : keeps (fs_common fs va) (steps va).
Proof.
  apply keeps_intro. intros w Hw. unfold fs_common. apply wp_bind.
  eapply wp_keeps; [apply keeps_get_self | eassumption | intros s w1 H1].
  cbv beta. destruct (negb _); [apply wp_ret; assumption |].
  eapply wp_keeps; [apply keeps_record_ndf | eassumption | auto].
Qed.

Lemma keeps_fs_compulsory_field fs va :
  keeps (fs_compulsory_field fs va) (steps va).
Proof. unfold fs_compulsory_field. keeps_auto. Qed.

Hint Resolve keeps_fs_common keeps_fs_compulsory_field : keeps.

Lemma keeps_fs_intergrid fs va : keeps (fs_intergrid fs va) (steps va).
Proof. unfold fs_intergrid. keeps_auto. Qed.

Lemma keeps_basis fs va : keeps (basis fs va) (steps va).
Proof. unfold basis. keeps_auto. Qed.

Lemma keeps_diff_basis fs va : keeps (diff_basis fs va) (steps va).
Proof. unfold diff_basis. keeps_auto. Qed.

Lemma keeps_field_bcs_kernel fs va :
  keeps (field_bcs_kernel fs va) (steps va).
Proof. unfold field_bcs_kernel. keeps_auto. Qed.

Lemma keeps_operator_bcs_kernel fs va :
  keeps (operator_bcs_kernel fs va) (steps va).
Proof. unfold operator_bcs_kernel. keeps_auto. Qed.

Lemma keeps_quad_rule_psyir rule va :
  keeps (quad_rule_psyir rule) (steps va).
Proof. unfold quad_rule_psyir. keeps_auto. Qed.

Hint Resolve keeps_quad_rule_psyir : keeps.

Lemma keeps_quad_rule va : keeps (quad_rule va) (steps va).
Proof.
  unfold quad_rule, quad_rule_items. apply keeps_intro. intros w Hw.
  apply wp_bind.
  eapply wp_keeps; [apply keeps_get_self | eassumption | intros s w1 H1].
  cbv beta.
  eapply wp_keeps; [| eassumption | auto].
  apply keeps_for_each. intros [shape rule]. unfold quad_rule_item.
  keeps_auto.
Qed.

Lemma keeps_mesh_properties va :
  kern_args_steps -> keeps (mesh_properties va) (steps va).
Proof.
  intros Hc. unfold mesh_properties. apply keeps_intro. intros w Hw.
  apply wp_bind.
  eapply wp_keeps; [apply keeps_get_self | eassumption | intros s w1 H1].
  cbv beta. destruct (mesh_properties_requested _);
    [| apply wp_ret; assumption].
  apply wp_bind.
  eapply wp_keeps; [apply Hc | eassumption | intros names w2 H2].
  cbv beta.
  eapply wp_keeps; [apply keeps_extend_silent | eassumption | auto].
Qed.

Lemma keeps_emit op va :
  op_steps_contract op -> keeps (emit op va) (steps va).
Proof.
  destruct op; intros Hc; cbn [emit];
    auto using keeps_cell_position, keeps_cell_map, keeps_mesh_height,
      keeps_scalar, keeps_mesh_ncell2d, keeps_mesh_ncell2d_no_halos,
      keeps_cma_operator, keeps_field_vector, keeps_field,
      keeps_stencil_unknown_extent, keeps_stencil_2d_unknown_extent,
      keeps_stencil_2d_max_extent, keeps_stencil_unknown_direction,
      keeps_stencil, keeps_stencil_2d, keeps_operator, keeps_fs_common,
      keeps_fs_compulsory_field, keeps_fs_intergrid, keeps_basis,
      keeps_diff_basis, keeps_field_bcs_kernel, keeps_operator_bcs_kernel,
      keeps_mesh_properties, keeps_quad_rule.
Qed.

(** ** Invariants of every emit call *)

(** X1. However an emit call ends, by returning or by raising, it has only
    appended to the two argument lists, to the access log and to the three
    position records, and it has left the kernel and the Open or Frozen
    state alone. *)
Theorem emit_only_appends op va w :
  op_steps_contract op -> advances va w (snd (emit op va w)).
Proof. intros Hc. apply (@keeps_emit op va Hc w). Qed.

(** X2. An emit call that is not passed an access log logs nothing,
    however it ends. *)
Theorem emit_without_log_is_silent op w :
  op_steps_contract op -> accesses (snd (emit op false w)) = accesses w.
Proof.
  intros Hc. destruct (@keeps_emit op false Hc w) as [Ha _].
  destruct Ha as (_ & _ & _ & _ & _ & _ & _ & events & He & Hs).
  rewrite He, (Hs eq_refl). apply app_nil_r.
Qed.

(** X3. Along a traversal every recorded nlayers position and every
    recorded ndf position is a 1-based index into the flat list as it
    stands at each observation point. *)
Theorem positions_stay_in_range ops va w :
  Forall op_steps_contract ops ->
  positions_in_range w ->
  Forall positions_in_range (observations ops va w).
Proof.
  intros Hc. revert w.
  induction Hc as [| op rest Hop Hrest IH]; intros w Hw; cbn [observations].
  - constructor.
  - pose proof (@keeps_emit op va Hop w) as [_ Hr].
    destruct (emit op va w) as [[u | e] w']; [| constructor].
    cbn [snd] in Hr. constructor; auto.
Qed.

(** X4. No emit call freezes the orderer: along a traversal that starts
    Open every position query still raises at each observation point. *)
Theorem traversal_stays_open ops va w :
  Forall op_steps_contract ops ->
  _generate_called (self w) = false ->
  Forall
    (fun w' =>
       fst (nlayers_positions w') =
         Raise (generate_not_called "nlayers_positions") /\
       fst (nqp_positions w') = Raise (generate_not_called "nqp_positions")
       /\
       fst (ndf_positions w') = Raise (generate_not_called "ndf_positions"))
    (observations ops va w).
Proof.
  intros Hc. revert w.
  induction Hc as [| op rest Hop Hrest IH]; intros w Hw; cbn [observations].
  - constructor.
  - pose proof (@keeps_emit op va Hop w) as [Ha _].
    destruct (emit op va w) as [[u | e] w']; [| constructor].
    destruct Ha as (_ & Hg & _). cbn [snd] in Hg.
    assert (_generate_called (self w') = false) as Hw' by congruence.
    constructor; [| auto].
    unfold nlayers_positions, nqp_positions, ndf_positions, bind, get_self.
    rewrite Hw'. repeat split.
Qed.

(** ** Where the recorded positions point *)

Lemma in_domains_guard (d : string) :
  d = "cell_column" \/ d = "domain" ->
  negb (str_in d ["cell_column"; "domain"]) = false.
Proof.
  intros [H | H]; subst; reflexivity.
Qed.

Lemma nth_error_pushed {A} (l : list A) (x : A) :
  nth_error (l ++ [x]) (List.length l + 1 - 1) = Some x.
Proof.
  replace (List.length l + 1 - 1) with (List.length l) by lia.
  rewrite nth_error_app2 by lia. rewrite Nat.sub_diag. reflexivity.
Qed.

(** X5. On a kernel over cell columns or over the domain, [mesh_height]
    pushes the name of the nlayers symbol and a reference to it, logs one
    read of it when an access log is passed, and records as nlayers
    position the 1-based index at which that name now sits in the flat
    list. *)
Theorem mesh_height_records_where_nlayers_is va w :
  iterates_over (_kern (self w)) = "cell_column" \/
  iterates_over (_kern (self w)) = "domain" ->
  let (sym, t) :=
    find_or_create_integer_symbol (_symtab (self w)) "nlayers"
      (Some "nlayers") in
  exists w',
    mesh_height va w = (Ok tt, w') /\
    _arglist (self w') = _arglist (self w) ++ [sym_name sym] /\
    _psyir_arglist (self w') = _psyir_arglist (self w) ++ [Reference sym] /\
    accesses w' =
      accesses w ++ (if va then [event w (sym_name sym) READ None] else [])
    /\
    _nlayers_positions (self w') =
      _nlayers_positions (self w) ++ [n_args w + 1] /\
    nth_error (_arglist (self w')) (n_args w + 1 - 1) = Some (sym_name sym).
Proof.
  intros Hd. apply in_domains_guard in Hd.
  unfold mesh_height, append_integer_reference, append, psyir_append,
    num_args, bind, get_self, ret, with_symtab, add_access, update_self,
    truthy, event, n_args.
  rewrite Hd.
  destruct w as [s acc]. destruct s. destruct va; run_all;
    eexists; (split; [reflexivity |]); cbn;
    rewrite ?app_nil_r, ?length_app; cbn;
    repeat apply conj; try reflexivity; apply nth_error_pushed.
Qed.

(** X6. On a kernel over cell columns or over the domain, a call of
    [fs_common] that returns has recorded exactly one ndf entry: the
    original name of the function space, with the length of the flat list
    at return as its position. The two argument lists have grown by one
    entry each. *)
Theorem fs_common_records_last_position function_space va w u w' :
  iterates_over (_kern (self w)) = "cell_column" \/
  iterates_over (_kern (self w)) = "domain" ->
  fs_common function_space va w = (Ok u, w') ->
  _ndf_positions (self w') =
    _ndf_positions (self w) ++
    [{| position := n_args w';
        function_space := orig_name function_space |}] /\
  n_args w' = n_args w + 1 /\
  n_nodes w' = n_nodes w + 1.
Proof.
  intros Hd. apply in_domains_guard in Hd.
  unfold fs_common, ArgOrdering_fs_common, append_integer_reference, append,
    psyir_append, num_args, bind, get_self, ret, with_symtab, add_access,
    update_self, truthy, n_args, n_nodes.
  rewrite Hd.
  destruct w as [s acc]. destruct s. destruct va; run_all;
    intros Hrun; inversion Hrun; subst; cbn;
    rewrite ?length_app; cbn; repeat apply conj; reflexivity.
Qed.

(** ** Quadrature arguments *)

Lemma length_append (a b : string) :
  String.length (a +++ b) = String.length a + String.length b.
Proof. induction a as [| c a IH]; cbn; [reflexivity | rewrite IH; reflexivity]. Qed.

Lemma substring_0_append (a b : string) :
  substring 0 (String.length a) (a +++ b) = a.
Proof.
  induction a as [| c a IH]; cbn.
  - destruct b; reflexivity.
  - rewrite IH. reflexivity.
Qed.

(** Removing the suffix [_<psy_name>] from a name that carries it gives
    the name back. *)
Lemma generic_name_of_suffixed rule (g : string) :
  generic_name rule (g +++ "_" +++ psy_name rule) = g.
Proof.
  unfold generic_name, drop_last.
  rewrite length_append. cbn [String.append String.length].
  replace (String.length g + S (String.length (psy_name rule)) -
           (String.length (psy_name rule) + 1))
    with (String.length g) by lia.
  apply substring_0_append.
Qed.

Lemma recognised_tests rule arg :
  recognised rule arg =
    (str_in (generic_name rule arg)
       ["np_xy"; "np_z"; "nfaces"; "np_xyz"; "nedges"]
     || (str_in (generic_name rule arg) ["weights_xy"; "weights_z"]
         || str_in (generic_name rule arg) ["weights_xyz"])).
Proof.
  unfold recognised, known_generic_names, str_in. cbn [existsb].
  repeat rewrite <- orb_assoc. repeat rewrite orb_false_r. reflexivity.
Qed.

(** The node of one argument of a rule: pushed when the generic name is
    known, and otherwise InternalError with nothing touched. *)
Lemma quad_rule_node rule arg w :
  if recognised rule arg then
    exists w',
      quad_rule_psyir {| psy_name := psy_name rule; kernel_args := [arg] |} w
        = (Ok tt, w') /\
      _arglist (self w') = _arglist (self w) /\
      n_nodes w' = S (n_nodes w)
  else
    quad_rule_psyir {| psy_name := psy_name rule; kernel_args := [arg] |} w
      = (Raise (InternalError
                  ("Found invalid kernel argument '" +++ arg +++ "'.")), w).
Proof.
  rewrite recognised_tests.
  unfold quad_rule_psyir, generic_name. cbn [kernel_args psy_name for_each].
  unfold append_integer_reference, append_array_reference,
    get_array_reference, symbol_of, psyir_append, bind, ret, raise,
    with_symtab, update_self, n_nodes.
  destruct (str_in _ ["np_xy"; "np_z"; "nfaces"; "np_xyz"; "nedges"]);
    cbn [orb].
  - destruct w as [s acc]; destruct s; run_all.
    eexists; (split; [reflexivity |]); cbn; rewrite length_app; cbn.
    split; [reflexivity | lia].
  - destruct (str_in _ ["weights_xy"; "weights_z"]); cbn [orb].
    + destruct w as [s acc]; destruct s; run_all.
      eexists; (split; [reflexivity |]); cbn; rewrite length_app; cbn.
      split; [reflexivity | lia].
    + destruct (str_in _ ["weights_xyz"]).
      * destruct w as [s acc]; destruct s; run_all.
        eexists; (split; [reflexivity |]); cbn; rewrite length_app; cbn.
        split; [reflexivity | lia].
      * reflexivity.
Qed.

Lemma for_each_cons {A} (body : A -> M unit) (x : A) (rest : list A) w :
  for_each (x :: rest) body w =
    match for_each [x] body w with
    | (Ok _, w1) => for_each rest body w1
    | (Raise e, w1) => (Raise e, w1)
    end.
Proof.
  cbn [for_each]. unfold bind.
  destruct (body x w) as [[u | e] w1]; reflexivity.
Qed.

Lemma quad_rule_psyir_cons psy arg rest w :
  quad_rule_psyir {| psy_name := psy; kernel_args := arg :: rest |} w =
    match quad_rule_psyir {| psy_name := psy; kernel_args := [arg] |} w with
    | (Ok _, w1) =>
        quad_rule_psyir {| psy_name := psy; kernel_args := rest |} w1
    | (Raise e, w1) => (Raise e, w1)
    end.
Proof.
  unfold quad_rule_psyir. cbn [kernel_args psy_name]. apply for_each_cons.
Qed.

Lemma recognised_psy rule psy args arg :
  psy_name rule = psy ->
  recognised {| psy_name := psy; kernel_args := args |} arg =
    recognised rule arg.
Proof. intros <-. reflexivity. Qed.

(** The nodes of arguments that are all recognised. *)
Lemma quad_rule_psyir_all psy args :
  forallb (recognised {| psy_name := psy; kernel_args := args |}) args
    = true ->
  forall w, exists w',
    quad_rule_psyir {| psy_name := psy; kernel_args := args |} w
      = (Ok tt, w') /\
    _arglist (self w') = _arglist (self w) /\
    n_nodes w' = n_nodes w + List.length args.
Proof.
  generalize args at 1 as dummy. intros dummy.
  induction args as [| arg rest IH]; intros Hall w.
  - exists w. split; [reflexivity | split; [reflexivity | cbn; lia]].
  - cbn [forallb] in Hall. apply andb_prop in Hall. destruct Hall as [H1 H2].
    rewrite quad_rule_psyir_cons.
    pose proof (quad_rule_node
                  {| psy_name := psy; kernel_args := dummy |} arg w) as Hn.
    rewrite H1 in Hn. cbn [psy_name] in Hn.
    destruct Hn as (w1 & Hrun & Ha & Hp). rewrite Hrun.
    destruct (IH H2 w1) as (w' & Hrun' & Ha' & Hp').
    exists w'. split; [exact Hrun' |]. split; [congruence |].
    cbn [List.length]. lia.
Qed.

(** The nodes stop at the first argument that is not recognised. *)
Lemma quad_rule_psyir_stops psy good bad rest :
  forallb (recognised {| psy_name := psy; kernel_args := [] |}) good
    = true ->
  recognised {| psy_name := psy; kernel_args := [] |} bad = false ->
  forall w, exists w',
    quad_rule_psyir
      {| psy_name := psy; kernel_args := good ++ bad :: rest |} w =
      (Raise (InternalError
                ("Found invalid kernel argument '" +++ bad +++ "'.")), w')
    /\
    _arglist (self w') = _arglist (self w) /\
    n_nodes w' = n_nodes w + List.length good.
Proof.
  intros Hgood Hbad.
  induction good as [| arg good IH]; intros w; cbn [app].
  - rewrite quad_rule_psyir_cons.
    pose proof (quad_rule_node
                  {| psy_name := psy; kernel_args := [] |} bad w) as Hn.
    rewrite Hbad in Hn. cbn [psy_name] in Hn. rewrite Hn.
    exists w. split; [reflexivity | split; [reflexivity | cbn; lia]].
  - cbn [forallb] in Hgood. apply andb_prop in Hgood.
    destruct Hgood as [H1 H2].
    rewrite quad_rule_psyir_cons.
    pose proof (quad_rule_node
                  {| psy_name := psy; kernel_args := [] |} arg w) as Hn.
    rewrite H1 in Hn. cbn [psy_name] in Hn.
    destruct Hn as (w1 & Hrun & Ha & Hp). rewrite Hrun.
    destruct (IH H2 w1) as (w' & Hrun' & Ha' & Hp').
    exists w'. split; [exact Hrun' |]. split; [congruence |].
    cbn [List.length]. lia.
Qed.

Lemma log_all (names : list string) :
  forall w,
    for_each names (fun v => add_access (Sig v) READ None) w =
      (Ok tt,
       {| self := self w;
          accesses :=
            accesses w ++ map (fun v => event w v READ None) names |}).
Proof.
  induction names as [| v rest IH]; intros w.
  - cbn. rewrite app_nil_r. destruct w; reflexivity.
  - cbn [for_each map]. unfold bind, add_access at 1. rewrite IH.
    cbn. rewrite <- app_assoc. reflexivity.
Qed.

(** What [extend] does, in full. *)
Lemma extend_pushes names va w :
  exists w',
    extend names va w = (Ok tt, w') /\
    emitted w w' names []
      (if va then map (fun v => event w v READ None) names else []).
Proof.
  unfold extend, bind, update_self. destruct va.
  - rewrite log_all. eexists. split; [reflexivity |].
    unfold emitted. cbn. rewrite !app_nil_r. repeat split.
  - eexists. split; [reflexivity |].
    unfold emitted. cbn. rewrite !app_nil_r. repeat split.
Qed.

Lemma supported_shape_cases shape :
  str_in shape supported_qr_shapes = true ->
  shape = "gh_quadrature_xyoz" \/ shape = "gh_quadrature_edge" \/
  shape = "gh_quadrature_face".
Proof.
  unfold str_in, supported_qr_shapes. cbn [existsb].
  rewrite orb_false_r. intros H.
  apply orb_prop in H. destruct H as [H | H];
    [left; apply String.eqb_eq; exact H |].
  apply orb_prop in H. destruct H as [H | H];
    [right; left | right; right]; apply String.eqb_eq; exact H.
Qed.

(** For a supported shape, the first half of the loop body of [quad_rule]
    pushes the arguments of the rule onto the flat list, logs a read of
    each when an access log is passed, and hands over to the second
    half. Only an XYoZ rule records a position. *)
Lemma quad_rule_item_supported shape rule va w :
  str_in shape supported_qr_shapes = true ->
  exists w1,
    quad_rule_item (shape, rule) va w = quad_rule_psyir rule w1 /\
    _kern (self w1) = _kern (self w) /\
    _arglist (self w1) = _arglist (self w) ++ kernel_args rule /\
    _psyir_arglist (self w1) = _psyir_arglist (self w) /\
    accesses w1 =
      accesses w ++
      (if va then map (fun v => event w v READ None) (kernel_args rule)
       else []).
Proof.
  intros Hs. apply supported_shape_cases in Hs.
  unfold quad_rule_item.
  destruct Hs as [-> | [-> | ->]];
    cbn [String.eqb Ascii.eqb Bool.eqb].
  - destruct (extend_pushes (kernel_args rule) va
                {| self := set_nqp_positions
                             (_nqp_positions (self w) ++
                              [nqp_entry (n_args w)]) (self w);
                   accesses := accesses w |})
      as (w1 & Hext & Ha & Hp & Hl & Hk & _).
    cbn in Ha, Hp, Hl, Hk. rewrite app_nil_r in Hp.
    exists w1.
    rewrite (bind_ok (w := w) (w1 := w1) (a := tt) _ Hext).
    repeat split; assumption.
  - destruct (extend_pushes (kernel_args rule) va w)
      as (w1 & Hext & Ha & Hp & Hl & Hk & _).
    rewrite app_nil_r in Hp. exists w1. rewrite (bind_ok _ Hext).
    repeat split; assumption.
  - destruct (extend_pushes (kernel_args rule) va w)
      as (w1 & Hext & Ha & Hp & Hl & Hk & _).
    rewrite app_nil_r in Hp. exists w1. rewrite (bind_ok _ Hext).
    repeat split; assumption.
Qed.

Lemma quad_rule_psyir_quiet rule w :
  _kern (self (snd (quad_rule_psyir rule w))) = _kern (self w) /\
  _arglist (self (snd (quad_rule_psyir rule w))) = _arglist (self w) /\
  accesses (snd (quad_rule_psyir rule w)) = accesses w.
Proof.
  destruct (keeps_quad_rule_psyir rule false w) as [Ha _].
  destruct Ha as (Hk & _ & _ & _ & _ & _ & _ & events & He & Hs).
  split; [exact Hk |]. split; [apply quad_rule_psyir_frame |].
  rewrite He, (Hs eq_refl). apply app_nil_r.
Qed.

Lemma quad_rule_item_unsupported shape rule va w :
  str_in shape supported_qr_shapes = false ->
  quad_rule_item (shape, rule) va w = (Raise (unsupported_shape shape), w).
Proof.
  unfold str_in, supported_qr_shapes. cbn [existsb]. intros H.
  apply orb_false_elim in H. destruct H as [Hxyoz H].
  apply orb_false_elim in H. destruct H as [Hedge H].
  apply orb_false_elim in H. destruct H as [Hface _].
  unfold quad_rule_item, bind. rewrite Hxyoz, Hedge, Hface. reflexivity.
Qed.

Lemma quad_rule_item_returns shape rule va w u w' :
  quad_rule_item (shape, rule) va w = (Ok u, w') ->
  _kern (self w') = _kern (self w) /\
  _arglist (self w') = _arglist (self w) ++ kernel_args rule /\
  accesses w' =
    accesses w ++
    (if va then map (fun v => event w v READ None) (kernel_args rule)
     else []).
Proof.
  intros Hrun.
  destruct (str_in shape supported_qr_shapes) eqn:Hs.
  - destruct (quad_rule_item_supported shape rule va w Hs)
      as (w1 & Hitem & Hk & Ha & _ & He).
    rewrite Hitem in Hrun.
    destruct (quad_rule_psyir_quiet rule w1) as (Hk' & Ha' & He').
    rewrite Hrun in Hk', Ha', He'. cbn [snd] in Hk', Ha', He'.
    repeat split; congruence.
  - rewrite (quad_rule_item_unsupported shape rule va w Hs) in Hrun.
    discriminate Hrun.
Qed.

(** X7. When [quad_rule] returns, it has pushed onto the flat list the
    arguments of every rule of the kernel, rule by rule in the order of
    [qr_rules], and, given an access log, has logged one read of each of
    them in that order and nothing else. *)
Theorem quad_rule_pushes_rule_arguments va w u w' :
  quad_rule va w = (Ok u, w') ->
  let pushed :=
    List.concat
      (map (fun item => kernel_args (snd item)) (qr_rules (_kern (self w))))
  in
  _arglist (self w') = _arglist (self w) ++ pushed /\
  accesses w' =
    accesses w ++
    (if va then map (fun v => event w v READ None) pushed else []).
Proof.
  unfold quad_rule.
  rewrite (bind_ok (m := get_self) (w := w) _ eq_refl).
  unfold quad_rule_items.
  generalize (qr_rules (_kern (self w))) as items. intros items.
  assert (forall w0,
            for_each items (fun item => quad_rule_item item va) w0
              = (Ok u, w') ->
            _kern (self w') = _kern (self w0) /\
            _arglist (self w') =
              _arglist (self w0) ++
              List.concat (map (fun item => kernel_args (snd item)) items) /\
            accesses w' =
              accesses w0 ++
              (if va
               then map (fun v => event w0 v READ None)
                      (List.concat
                         (map (fun item => kernel_args (snd item)) items))
               else [])) as H.
  { induction items as [| [shape rule] rest IH]; intros w0 Hrun.
    - cbn in Hrun. inversion Hrun. subst. cbn.
      destruct va; rewrite !app_nil_r; repeat split.
    - cbn [for_each] in Hrun. unfold bind in Hrun.
      destruct (quad_rule_item (shape, rule) va w0) as [[u1 | e] w1] eqn:H1;
        [| discriminate Hrun].
      destruct (quad_rule_item_returns shape rule va w0 H1) as (Hk1 & Ha1 & He1).
      destruct (IH w1 Hrun) as (Hk & Ha & He).
      cbn [map List.concat snd].
      split; [congruence |].
      split; [rewrite Ha, Ha1, app_assoc; reflexivity |].
      rewrite He, He1. destruct va; [| rewrite !app_nil_r; reflexivity].
      rewrite (map_ext (fun v => event w1 v READ None)
                 (fun v => event w0 v READ None))
        by (intros v; apply event_same_kern; exact Hk1).
      rewrite map_app, app_assoc. reflexivity. }
  intros Hrun. cbv zeta. destruct (H w Hrun) as (_ & Ha & He).
  split; assumption.
Qed.

(** X8. When the processing of an XYoZ rule returns, the recorded
    [horizontal] position is the 1-based index of the first argument of
    the rule in the flat list and the recorded [vertical] position that
    of its second argument. *)
Theorem xyoz_positions_index_first_two_arguments rule va w u w' :
  quad_rule_item ("gh_quadrature_xyoz", rule) va w = (Ok u, w') ->
  _nqp_positions (self w') =
    _nqp_positions (self w) ++
    [[("horizontal", n_args w + 1); ("vertical", n_args w + 2)]] /\
  nth_error (_arglist (self w')) (n_args w + 1 - 1) =
    nth_error (kernel_args rule) 0 /\
  nth_error (_arglist (self w')) (n_args w + 2 - 1) =
    nth_error (kernel_args rule) 1.
Proof.
  intros Hrun.
  destruct (quad_rule_item_returns _ rule va w Hrun) as (_ & Ha & _).
  destruct (quad_rule_item_effect "gh_quadrature_xyoz" rule va w)
    as [Hq _].
  rewrite Hrun in Hq. cbn [snd] in Hq.
  split; [exact Hq |]. rewrite Ha. unfold n_args.
  split; rewrite nth_error_app2 by lia; f_equal; lia.
Qed.

(** X9. When an argument of a rule of a supported shape has a generic
    name that [quad_rule] does not know, and the arguments before it are
    all known, the processing of the rule raises the InternalError that
    names the argument. By then every argument of the rule is in the flat
    list, but only the nodes of the arguments before the unknown one are
    in the reference tree. *)
Theorem quad_rule_stops_at_unknown_argument shape rule good bad rest va w :
  str_in shape supported_qr_shapes = true ->
  kernel_args rule = good ++ bad :: rest ->
  forallb (recognised rule) good = true ->
  recognised rule bad = false ->
  exists w',
    quad_rule_item (shape, rule) va w =
      (Raise (InternalError
                ("Found invalid kernel argument '" +++ bad +++ "'.")), w')
    /\
    n_args w' = n_args w + List.length (kernel_args rule) /\
    n_nodes w' = n_nodes w + List.length good.
Proof.
  intros Hs Hargs Hgood Hbad.
  destruct (quad_rule_item_supported shape rule va w Hs)
    as (w1 & Hitem & _ & Ha & Hp & _).
  destruct rule as [psy args]. cbn [kernel_args] in *. subst args.
  destruct (quad_rule_psyir_stops psy good bad rest Hgood Hbad w1)
    as (w' & Hrun & Ha' & Hp').
  exists w'. rewrite Hitem. split; [exact Hrun |].
  unfold n_args, n_nodes in *. rewrite Ha', Ha, length_app.
  split; [reflexivity |]. rewrite Hp', Hp. reflexivity.
Qed.

(** X10. Arguments named [<generic>_<psy_name>] with each generic name one
    of the eight that [quad_rule] knows are all accepted: removing the
    suffix gives the generic name back, so the second half of the loop
    body returns, with one node pushed for each argument and the flat list
    untouched. *)
Theorem suffixed_known_names_are_accepted psy (generics : list string) w :
  forallb (fun g => str_in g known_generic_names) generics = true ->
  let rule :=
    {| psy_name := psy;
       kernel_args := map (fun g => g +++ "_" +++ psy) generics |} in
  exists w',
    quad_rule_psyir rule w = (Ok tt, w') /\
    _arglist (self w') = _arglist (self w) /\
    n_nodes w' = n_nodes w + List.length generics.
Proof.
  intros Hall rule.
  assert (forallb (recognised rule) (kernel_args rule) = true) as Hrec.
  { unfold rule. cbn [kernel_args]. rewrite forallb_forall in *.
    intros arg Hin. apply in_map_iff in Hin.
    destruct Hin as (g & <- & Hg). unfold recognised.
    replace (generic_name {| psy_name := psy; kernel_args := _ |}
               (g +++ "_" +++ psy)) with g.
    - apply Hall. exact Hg.
    - symmetry.
      apply (generic_name_of_suffixed
               {| psy_name := psy; kernel_args := [] |} g). }
  destruct (quad_rule_psyir_all psy (kernel_args rule) Hrec w)
    as (w' & Hrun & Ha & Hp).
  exists w'. split; [exact Hrun |]. split; [exact Ha |].
  rewrite Hp. unfold rule. cbn [kernel_args]. rewrite length_map.
  reflexivity.
Qed.

(** ** Scalars *)

Ltac emitted_done :=
  unfold emitted; cbn; rewrite <- ?app_assoc; cbn; rewrite ?app_nil_r;
  repeat apply conj; reflexivity.

(** X11. For a literal scalar, [scalar] pushes the text of the literal
    and the node the Fortran reader makes of it, and logs nothing even
    when an access log is passed. When the reader rejects the text it
    raises InternalError, and the text is already in the flat list with no
    node beside it. *)
Theorem literal_scalar_is_never_logged scalar_arg va w :
  is_literal scalar_arg = true ->
  match psyir_from_expression (name scalar_arg) with
  | Some literal =>
      exists w',
        scalar scalar_arg va w = (Ok tt, w') /\
        emitted w w' [name scalar_arg] [literal] []
  | None =>
      exists w',
        scalar scalar_arg va w =
          (Raise (InternalError
                    ("Unexpected literal expression '" +++ name scalar_arg
                     +++ "' in scalar() when processing kernel '" +++
                     kern_name (_kern (self w)) +++ "'.")), w') /\
        emitted w w' [name scalar_arg] [] []
  end.
Proof.
  intros Hlit.
  unfold scalar, ArgOrdering_scalar, append, psyir_append, bind, get_self,
    ret, raise, update_self.
  rewrite Hlit.
  destruct (psyir_from_expression (name scalar_arg));
    eexists; (split; [reflexivity | emitted_done]).
Qed.

(** X12. For a scalar that is not a literal, [scalar] pushes its name,
    logs one access of it, with the access mode that the metadata of the
    scalar declares, when an access log is passed, and pushes a reference
    to the symbol of that name. When the symbol table has no such symbol
    it raises KeyError, and the name is already in the flat list, and
    logged, with no node beside it. *)
Theorem named_scalar_needs_its_symbol scalar_arg (va : bool) w :
  is_literal scalar_arg = false ->
  let logged : list AccessEvent :=
    if va then [event w (name scalar_arg) (access scalar_arg) None]
    else [] in
  match lookup (_symtab (self w)) (name scalar_arg) with
  | Some sym =>
      exists w',
        scalar scalar_arg va w = (Ok tt, w') /\
        emitted w w' [name scalar_arg] [Reference sym] logged
  | None =>
      exists w',
        scalar scalar_arg va w = (Raise (KeyError (name scalar_arg)), w') /\
        emitted w w' [name scalar_arg] [] logged
  end.
Proof.
  intros Hlit logged. subst logged.
  unfold scalar, ArgOrdering_scalar, append, psyir_append, bind, get_self,
    ret, raise, update_self, add_access, truthy, event.
  rewrite Hlit. cbn [self _symtab set_arglist].
  destruct va; cbn [self _symtab set_arglist];
    destruct (lookup (_symtab (self w)) (name scalar_arg));
    eexists; (split; [reflexivity | emitted_done]).
Qed.

(** ** Boundary-condition kernels *)

Lemma last_cons {A} (l : list A) (x d : A) : last (x :: l) d = last l x.
Proof.
  revert x d. induction l as [| y l IH]; intros x d; [reflexivity |].
  change (last (x :: y :: l) d) with (last (y :: l) d).
  rewrite !IH. reflexivity.
Qed.

(** X13. The function space that [field_bcs_kernel] looks an argument up
    on: the first of the kernel's unique function spaces called
    [any_space_1] when there is one, and otherwise the last of them,
    whatever it is called; none when the kernel has no function space. *)
Theorem any_space_1_or_else_the_last (fss : list FunctionSpace) :
  any_space_1_or_last None fss =
    match find (fun f => orig_name f =? "any_space_1") fss with
    | Some f => Some f
    | None => last (map Some fss) None
    end.
Proof.
  assert (forall init,
            any_space_1_or_last init fss =
              match find (fun f => orig_name f =? "any_space_1") fss with
              | Some f => Some f
              | None => last (map Some fss) init
              end) as H.
  { induction fss as [| f rest IH]; intros init;
      cbn [any_space_1_or_last find].
    - reflexivity.
    - destruct (orig_name f =? "any_space_1"); [reflexivity |].
      rewrite IH. destruct (find _ rest); [reflexivity |].
      cbn [map]. symmetry. apply last_cons. }
  apply H.
Qed.

(** X14. [field_bcs_kernel] takes no notice of the function space it is
    passed. It raises GenerationError, with nothing pushed or logged, when
    the argument on the space it picks is not a field; otherwise it
    pushes the rank-two integer array [boundary_dofs_<name of that field>]
    and logs a read of it. *)
Theorem field_bcs_kernel_needs_a_field function_space va w :
  let k := _kern (self w) in
  match get_arg_on_space k (any_space_1_or_last None (unique_fss k)) with
  | None =>
      field_bcs_kernel function_space va w = (Raise FieldNotFoundError, w)
  | Some farg =>
      if is_field farg then
        let (sym, t) :=
          find_or_create_array (_symtab (self w))
            ("boundary_dofs_" +++ name farg) 2 INTEGER
            ("boundary_dofs_" +++ name farg) in
        exists w',
          field_bcs_kernel function_space va w = (Ok tt, w') /\
          emitted w w' [sym_name sym] [ArrayReference sym [Range; Range]]
            (if va then [event w (sym_name sym) READ None] else [])
      else
        field_bcs_kernel function_space va w =
          (Raise (GenerationError
                    ("Expected an argument of " +++ VALID_FIELD_NAMES +++
                     " type from which to look-up boundary dofs for kernel "
                     +++ kern_name k +++ " but got '" +++
                     argument_type farg +++ "'")), w)
  end.
Proof.
  intros k. subst k.
  unfold field_bcs_kernel, arg_on_space, append_array_reference,
    get_array_reference, symbol_of, append, psyir_append, bind, get_self,
    ret, raise, with_symtab, update_self, add_access, truthy, event.
  destruct (get_arg_on_space _ _) as [farg |]; [| reflexivity].
  destruct (is_field farg); cbn [negb]; [| reflexivity].
  destruct w as [s acc]. destruct s. destruct va; run_all;
    eexists; (split; [reflexivity | emitted_done]).
Qed.

(** X15. [operator_bcs_kernel] raises IndexError, with nothing pushed,
    for a kernel without arguments; otherwise it pushes the rank-two
    integer array [boundary_dofs_<name of the first argument>] and logs a
    read of it. *)
Theorem operator_bcs_kernel_uses_first_argument function_space va w :
  match args (_kern (self w)) with
  | [] => operator_bcs_kernel function_space va w = (Raise IndexError, w)
  | op_arg :: _ =>
      let (sym, t) :=
        find_or_create_array (_symtab (self w))
          ("boundary_dofs_" +++ name op_arg) 2 INTEGER
          ("boundary_dofs_" +++ name op_arg) in
      exists w',
        operator_bcs_kernel function_space va w = (Ok tt, w') /\
        emitted w w' [sym_name sym] [ArrayReference sym [Range; Range]]
          (if va then [event w (sym_name sym) READ None] else [])
  end.
Proof.
  unfold operator_bcs_kernel, first, append_array_reference,
    get_array_reference, symbol_of, append, psyir_append, bind, get_self,
    ret, raise, with_symtab, update_self, add_access, truthy, event.
  destruct (args (_kern (self w))) as [| op_arg rest]; [reflexivity |].
  destruct w as [s acc]. destruct s. destruct va; run_all;
    eexists; (split; [reflexivity | emitted_done]).
Qed.

(** ** Inter-grid kernels, operators and dofmaps *)

(** X16. [cell_map] needs an argument on the coarse mesh and one on the
    fine mesh: without either it raises IndexError and has pushed nothing.
    With both it returns with four more entries in the flat list and four
    more nodes in the reference tree. *)
Theorem cell_map_needs_both_meshes va w :
  match args_filter (args (_kern (self w))) ["gh_coarse"],
        args_filter (args (_kern (self w))) ["gh_fine"] with
  | carg :: _, farg :: _ =>
      exists w',
        cell_map va w = (Ok tt, w') /\
        n_args w' = n_args w + 4 /\ n_nodes w' = n_nodes w + 4
  | _, _ => cell_map va w = (Raise IndexError, w)
  end.
Proof.
  unfold cell_map, first, cell_ref_name, append_array_reference,
    append_integer_reference, get_array_reference, symbol_of, append,
    psyir_append, bind, get_self, ret, raise, with_symtab, update_self,
    add_access, truthy, n_args, n_nodes.
  destruct (args_filter (args (_kern (self w))) ["gh_coarse"])
    as [| carg cargs];
    [destruct (args_filter (args (_kern (self w))) ["gh_fine"]);
     reflexivity |].
  destruct (args_filter (args (_kern (self w))) ["gh_fine"])
    as [| farg fargs]; [reflexivity |].
  destruct w as [s acc]. destruct s. destruct va; run_all;
    eexists; (split; [reflexivity |]); cbn;
    rewrite ?length_app; cbn; split; lia.
Qed.

(** Two requests of the same user type on orderers with the same symbol
    table give the same symbol and leave the same table. *)
Lemma get_user_type_same_table module_name user_type name tag shape w wa :
  _symtab (self wa) = _symtab (self w) ->
  exists sym t,
    get_user_type module_name user_type name tag shape w =
      (Ok sym, {| self := set_symtab t (self w); accesses := accesses w |})
    /\
    get_user_type module_name user_type name tag shape wa =
      (Ok sym,
       {| self := set_symtab t (self wa); accesses := accesses wa |}).
Proof.
  unfold get_user_type, bind, get_self, ret, with_symtab.
  destruct w as [s acc]. destruct s. destruct wa as [sa acca]. destruct sa.
  cbn [self _symtab]. intros ->.
  run_all; do 2 eexists; split; reflexivity.
Qed.

(** X17. [operator] always returns and pushes two entries in a fixed
    order, [<proxy>%ncell_3d] and then [<proxy>%local_stencil]. The node
    of each is the structure reference to that member of the symbol that
    [get_user_type] yields for the indexed proxy name of the operator,
    asked for first on the symbol table as it stood and then on the table
    the first request left. Given an access log it logs the first entry
    as a read and the second with the access mode of the metadata. *)
Theorem operator_pushes_ncell_3d_then_local_stencil arg va w :
  exists sym1 w1 sym2 w2 w',
    get_user_type operator_module operator_proxy_type
      (proxy_name_indexed arg) None [] w = (Ok sym1, w1) /\
    get_user_type operator_module operator_proxy_type
      (proxy_name_indexed arg) None [] w1 = (Ok sym2, w2) /\
    operator arg va w = (Ok tt, w') /\
    _symtab (self w') = _symtab (self w2) /\
    emitted w w'
      [proxy_name_indexed arg +++ "%ncell_3d";
       proxy_name_indexed arg +++ "%local_stencil"]
      [StructureReference sym1 ["ncell_3d"];
       StructureReference sym2 ["local_stencil"]]
      (if va
       then [event w (proxy_name_indexed arg +++ "%ncell_3d") READ None;
             event w (proxy_name_indexed arg +++ "%local_stencil")
               (access arg) None]
       else []).
Proof.
  destruct (get_user_type_only_symtab operator_module operator_proxy_type
              (proxy_name_indexed arg) None [] w) as (sym1 & t1 & H1).
  set (w1 := {| self := set_symtab t1 (self w); accesses := accesses w |})
    in *.
  pose (wa :=
          snd (append (proxy_name_indexed arg +++ "%ncell_3d") va None READ
                 None
                 (snd (psyir_append (StructureReference sym1 ["ncell_3d"])
                         w1)))).
  assert (_symtab (self wa) = _symtab (self w1)) as Heq
    by (destruct va; reflexivity).
  destruct (get_user_type_same_table operator_module operator_proxy_type
              (proxy_name_indexed arg) None [] w1 wa Heq)
    as (sym2 & t2 & H2 & H2a).
  assert (operator arg va w =
            append (proxy_name_indexed arg +++ "%local_stencil") va None
              (access arg) (Some (metadata_index arg))
              (snd (psyir_append
                      (StructureReference sym2 ["local_stencil"])
                      {| self := set_symtab t2 (self wa);
                         accesses := accesses wa |}))) as Hrun.
  { unfold operator, append_user_type, bind at 1 2. rewrite H1.
    cbn [fst snd]. unfold bind at 1 2 3.
    unfold psyir_append at 1, update_self at 1.
    unfold ret at 1.
    destruct va; cbn -[get_user_type String.append];
      unfold bind at 1;
      match goal with
      | |- context [get_user_type ?a ?b ?c ?d ?e ?x] =>
          change (get_user_type a b c d e x)
            with (get_user_type a b c d e wa)
      end;
      rewrite H2a; reflexivity. }
  exists sym1, w1, sym2,
    {| self := set_symtab t2 (self w1); accesses := accesses w1 |},
    (snd (operator arg va w)).
  split; [exact H1 |]. split; [exact H2 |].
  rewrite Hrun. subst wa w1. unfold event.
  destruct va; (split; [reflexivity |]); (split; [reflexivity |]);
    emitted_done.
Qed.


(** Identify the results of the same symbol-table request, and close a
    branch that the hypotheses rule out. *)
Ltac same_requests :=
  repeat match goal with
         | H1 : ?f = (_, _), H2 : ?f = (_, _) |- _ =>
             rewrite H1 in H2; inversion H2; subst; clear H2
         | H : (_, _) = (_, _) |- _ => inversion H; subst; clear H
         end.

Ltac ruled_out :=
  solve [ congruence
        | match goal with
          | H : (?x =? ?y) = true, N : ?x <> ?y |- _ =>
              apply String.eqb_eq in H; contradiction
          end ].

(** X18. On a kernel over the domain, [fs_compulsory_field] pushes the
    undf count and then the whole rank-two dofmap; the cell index is
    neither looked up nor logged. *)
Theorem fs_compulsory_field_whole_map_for_domain function_space va w :
  iterates_over (_kern (self w)) = "domain" ->
  let (undf, t1) :=
    find_or_create_integer_symbol (_symtab (self w))
      (undf_name function_space) (Some (undf_name function_space)) in
  let (dofmap, t2) :=
    find_or_create_array t1 (map_name function_space) 2 INTEGER
      (map_name function_space) in
  exists w',
    fs_compulsory_field function_space va w = (Ok tt, w') /\
    emitted w w'
      [sym_name undf; sym_name dofmap]
      [Reference undf; ArrayReference dofmap [Range; Range]]
      (if va
       then [event w (sym_name undf) READ None;
             event w (sym_name dofmap) READ None]
       else []).
Proof.
  intros Hd.
  unfold fs_compulsory_field, append_array_reference,
    append_integer_reference, get_array_reference, symbol_of, append,
    psyir_append, bind, get_self, ret, raise, with_symtab, update_self,
    add_access, truthy, event.
  destruct w as [s acc]. destruct s. cbn in Hd.
  destruct va; run_all;
    try (match goal with
         | H : (_ =? "domain") = false |- _ =>
             rewrite Hd in H; vm_compute in H; discriminate H
         end);
    repeat match goal with
           | H : (_, _) = (_, _) |- _ => inversion H; subst; clear H
           end;
    eexists; (split; [reflexivity | emitted_done]).
Qed.

(** X19. On a kernel that is neither over the domain nor coloured,
    [fs_compulsory_field] pushes the undf count and then the column
    [<map>(:,<cell>)] of the dofmap, indexed by a reference to the cell
    loop variable. Given an access log it logs, in order, reads of the
    undf count, of [cell] and of the dofmap under the name of its symbol,
    not under the indexed text. *)
Theorem fs_compulsory_field_column_for_cell function_space w undf t1 cell t2
    dofmap t3 :
  iterates_over (_kern (self w)) <> "domain" ->
  is_coloured (_kern (self w)) = false ->
  find_or_create_integer_symbol (_symtab (self w))
    (undf_name function_space) (Some (undf_name function_space))
    = (undf, t1) ->
  find_or_create_integer_symbol t1 "cell" (Some "cell_loop_idx")
    = (cell, t2) ->
  find_or_create_array t2 (map_name function_space) 2 INTEGER
    (map_name function_space) = (dofmap, t3) ->
  sym_name dofmap <> "" ->
  exists w',
    fs_compulsory_field function_space true w = (Ok tt, w') /\
    emitted w w'
      [sym_name undf; sym_name dofmap +++ "(:," +++ sym_name cell +++ ")"]
      [Reference undf; ArrayReference dofmap [Range; Reference cell]]
      [event w (sym_name undf) READ None;
       event w "cell" READ None;
       event w (sym_name dofmap) READ None].
Proof.
  intros Hd Hcol Hundf Hcell Hmap Hname.
  apply String.eqb_neq in Hd.
  unfold fs_compulsory_field, cell_ref_name, append_array_reference,
    append_integer_reference, get_array_reference, symbol_of, append,
    psyir_append, bind, get_self, ret, raise, with_symtab, update_self,
    add_access, truthy, event.
  destruct w as [s acc]. destruct s. cbn in Hd, Hcol, Hundf.
  run_all; same_requests; try ruled_out;
    eexists; (split; [reflexivity | emitted_done]).
Qed.

(** X20. On a kernel that is not coloured, [stencil] always returns and
    pushes one entry, the stencil dofmap indexed by the cell loop variable
    in its last dimension, with the rank-three array reference as its
    node. Given an access log it logs a read of [cell] and a read under
    the name of the dofmap symbol alone, not under the indexed text of the
    entry. [stencil_2d] does the same with one more dimension. *)
Theorem stencil_dofmap_is_logged_under_symbol_name arg w var_sym t0 cell t1 :
  is_coloured (_kern (self w)) = false ->
  dofmap_symbol (_symtab (self w)) arg = (var_sym, t0) ->
  find_or_create_integer_symbol t0 "cell" (Some "cell_loop_idx")
    = (cell, t1) ->
  sym_name var_sym <> "" ->
  (exists w',
     stencil arg true w = (Ok tt, w') /\
     emitted w w'
       [sym_name var_sym +++ "(:,:," +++ sym_name cell +++ ")"]
       [ArrayReference var_sym [Range; Range; Reference cell]]
       [event w "cell" READ None; event w (sym_name var_sym) READ None]) /\
  (exists w',
     stencil_2d arg true w = (Ok tt, w') /\
     emitted w w'
       [sym_name var_sym +++ "(:,:,:," +++ sym_name cell +++ ")"]
       [ArrayReference var_sym [Range; Range; Range; Reference cell]]
       [event w "cell" READ None; event w (sym_name var_sym) READ None]).
Proof.
  intros Hcol Hv Hc Hname.
  unfold stencil, stencil_2d, cell_ref_name, append_array_reference,
    get_array_reference, symbol_of, append, psyir_append, bind, get_self,
    ret, raise, with_symtab, update_self, add_access, truthy, event.
  destruct w as [s acc]. destruct s. cbn in Hcol, Hv.
  split; run_all; same_requests;
    try rewrite String.eqb_refl in *; try ruled_out;
    eexists; (split; [reflexivity | emitted_done]).
Qed.

(** ** Differential basis functions and inter-grid function spaces *)

(** X21. [diff_basis] always returns, and pushes one entry and one node
    for each quadrature rule of the kernel, followed, when [gh_evaluator]
    is among the evaluator shapes, by one more of each for each evaluator
    target. *)
Theorem diff_basis_emits_rules_plus_targets function_space va w :
  let k := _kern (self w) in
  let r := List.length (qr_rules k) in
  let t :=
    if str_in "gh_evaluator" (eval_shapes k)
    then List.length (eval_targets k) else 0 in
  exists w',
    diff_basis function_space va w = (Ok tt, w') /\
    n_args w' = n_args w + (r + t) /\
    n_nodes w' = n_nodes w + (r + t).
Proof.
  intros k r t. unfold diff_basis.
  rewrite (bind_ok (m := get_self) (w := w) _ eq_refl).
  destruct (for_each_counts
              (fun rule =>
                 bind (append_array_reference
                         (get_diff_basis_name function_space
                            (Some (psy_name rule)) None)
                         [Range; Range; Range; Range] INTEGER None)
                   (fun sym => append (sym_name sym) va None READ None))
              (map snd (qr_rules (_kern (self w))))
              (fun rule w0 => array_argument_counts _ _ _ va w0) w)
    as (w1 & Hrun1 & Ha1 & Hn1).
  rewrite length_map in Ha1, Hn1.
  rewrite (bind_ok _ Hrun1).
  subst t. fold k. destruct (str_in "gh_evaluator" (eval_shapes k)).
  - destruct (for_each_counts
                (fun target : string * (FunctionSpace * Arg) =>
                   bind (append_array_reference
                           (get_diff_basis_name function_space None
                              (Some (fst (snd target))))
                           [Range; Range; Range] REAL None)
                     (fun sym => append (sym_name sym) va None READ None))
                (eval_targets k)
                (fun target w0 => array_argument_counts _ _ _ va w0) w1)
      as (w2 & Hrun2 & Ha2 & Hn2).
    exists w2. split; [exact Hrun2 |]. subst r k. split; lia.
  - exists w1. split; [reflexivity |]. subst r k. split; lia.
Qed.

(** X22. [fs_intergrid] raises FieldNotFoundError, with nothing pushed,
    when the kernel has no argument on the function space. For a space of
    the coarse mesh it is [fs_compulsory_field]. For a space of the fine
    mesh it returns having pushed the ndf count, the undf count and the
    whole dofmap when the kernel is over cell columns or the domain, and
    only the last two otherwise, since [fs_common] then skips the ndf
    count. *)
Theorem fs_intergrid_by_mesh function_space va w :
  match get_arg_on_space (_kern (self w)) (Some function_space) with
  | None =>
      fs_intergrid function_space va w = (Raise FieldNotFoundError, w)
  | Some arg =>
      if mesh arg =? "gh_fine" then
        exists w',
          fs_intergrid function_space va w = (Ok tt, w') /\
          let pushed :=
            if str_in (iterates_over (_kern (self w)))
                 ["cell_column"; "domain"]
            then 3 else 2 in
          n_args w' = n_args w + pushed /\
          n_nodes w' = n_nodes w + pushed /\
          List.length (_ndf_positions (self w')) =
            List.length (_ndf_positions (self w)) + (pushed - 2)
      else
        fs_intergrid function_space va w =
          fs_compulsory_field function_space va w
  end.
Proof.
  unfold fs_intergrid.
  assert (arg_on_space (Some function_space) w =
            match get_arg_on_space (_kern (self w)) (Some function_space)
            with
            | Some a => (Ok a, w)
            | None => (Raise FieldNotFoundError, w)
            end) as Harg.
  { unfold arg_on_space, bind, get_self.
    destruct (get_arg_on_space _ _); reflexivity. }
  destruct (get_arg_on_space _ _) as [arg |];
    [rewrite (bind_ok _ Harg) | unfold bind; rewrite Harg; reflexivity].
  destruct (mesh arg =? "gh_fine"); [| reflexivity].
  unfold fs_common, ArgOrdering_fs_common, append_array_reference,
    append_integer_reference, get_array_reference, symbol_of, append,
    psyir_append, num_args, bind, get_self, ret, raise, with_symtab,
    update_self, add_access, truthy, n_args, n_nodes.
  destruct w as [s acc]. destruct s. destruct va; run_all;
    eexists; (split; [reflexivity |]); cbn;
    rewrite ?length_app; cbn; repeat apply conj; lia.
Qed.

(** ** User-defined types *)

(** X23. [get_user_type] always returns, and changes nothing but the
    symbol table. When the tag, or the name if no tag is given, is
    already known to the symbol table, it returns the symbol found there
    and changes nothing at all: the module and the type asked for are not
    looked at. *)
Theorem get_user_type_reuses_tagged_symbol module_name user_type name tag
    shape w :
  exists sym t,
    get_user_type module_name user_type name tag shape w =
      (Ok sym, {| self := set_symtab t (self w); accesses := accesses w |})
    /\
    forall known,
      lookup_with_tag (_symtab (self w))
        (match truthy tag with Some g => g | None => name end) = Some known
      ->
      sym = known /\
      get_user_type module_name user_type name tag shape w = (Ok sym, w).
Proof.
  destruct (get_user_type_only_symtab module_name user_type name tag shape w)
    as (sym & t & Hrun).
  exists sym, t. split; [exact Hrun |].
  intros known Hknown. revert Hrun.
  unfold get_user_type, bind, get_self, ret. rewrite Hknown.
  intros Hrun. inversion Hrun. subst. split; reflexivity.
Qed.

End Coverage.

(** * Properties of the metadata checks *)

Section MetaArgChecks.

Import CommonMetaArgMetadata.

Variables strip lower : string -> string.

Lemma split_length c s : List.length (split c s) = S (count c s).
Proof.
  induction s as [| a rest IH]; cbn [split count]; [reflexivity |].
  destruct (Ascii.eqb a c); cbn [List.length]; [rewrite IH; reflexivity |].
  destruct (split c rest) as [| h t]; [discriminate IH |].
  cbn [List.length] in *. exact IH.
Qed.

Lemma split_without_separator c s : count c s = 0 -> split c s = [s].
Proof.
  induction s as [| a rest IH]; cbn [split count]; [reflexivity |].
  destruct (Ascii.eqb a c); [discriminate |].
  intros H. rewrite (IH H). reflexivity.
Qed.

Lemma split_at_first_separator c a b :
  count c a = 0 -> split c (a +++ String c b) = a :: split c b.
Proof.
  induction a as [| x a IH]; cbn [String.append split count].
  - rewrite Ascii.eqb_refl. reflexivity.
  - destruct (Ascii.eqb x c); [discriminate |].
    intros H. rewrite (IH H). reflexivity.
Qed.

(** X24. [get_and_check_vector_length] returns exactly when the text
    holds one [*], and raises TypeError, quoting the text, when it holds
    none or more than one. *)
Theorem vector_length_needs_exactly_one_star vector_datatype :
  match get_and_check_vector_length strip vector_datatype with
  | Returns _ => count star vector_datatype = 1
  | Raises e =>
      count star vector_datatype <> 1 /\
      e = TypeError
            ("The vector length metadata should be in the form " +++
             "'form*vector_length' but found '" +++ vector_datatype +++
             "'.")
  end.
Proof.
  unfold get_and_check_vector_length. rewrite split_length.
  destruct (S (count star vector_datatype) =? 2)%nat eqn:E; cbn [negb].
  - apply Nat.eqb_eq in E. lia.
  - apply Nat.eqb_neq in E. split; [lia | reflexivity].
Qed.

(** X25. For a text [<form>*<length>] in which neither part holds a [*],
    [get_and_check_vector_length] returns the part after the [*],
    stripped. *)
Theorem vector_length_is_the_part_after_the_star form_text length_text :
  count star form_text = 0 ->
  count star length_text = 0 ->
  get_and_check_vector_length strip (form_text +++ "*" +++ length_text) =
    Returns (strip length_text).
Proof.
  intros Hf Hl. unfold get_and_check_vector_length.
  change ("*" +++ length_text) with (String star length_text).
  rewrite (split_at_first_separator star _ _ Hf),
    (split_without_separator star _ Hl).
  reflexivity.
Qed.

(** X26. For vector metadata, [check_first_arg] looks only at the text
    before the first [*]: what follows it changes neither whether the
    check passes nor the message of the ValueError. *)
Theorem check_first_arg_ignores_vector_length cls form_text rest name :
  count star form_text = 0 ->
  check_first_arg strip lower cls (form_text +++ "*" +++ rest) name true =
    check_first_arg strip lower cls form_text name true.
Proof.
  intros Hf. unfold check_first_arg.
  change ("*" +++ rest) with (String star rest).
  rewrite (split_at_first_separator star _ _ Hf),
    (split_without_separator star _ Hf).
  reflexivity.
Qed.

(** X27. [check_remaining_args] returns when the constructor did. When
    the constructor raised a ValueError it never returns, and what it
    raises is decided by the first of six keywords, in the order given,
    that occurs in the message: a ValueError whose message is the
    original one behind the argument index that the class holds for that
    keyword and the text of the metadata, or an AttributeError naming the
    index when the class does not hold it. It raises the InternalError
    that quotes the message exactly when none of the six keywords occurs
    in it. So a message that mentions the datatype descriptor is always
    put down to the datatype argument, whatever else it mentions. *)
Theorem check_remaining_args_reraises cls tree message :
  let indices :=
    [("datatype descriptor", "datatype_arg_index",
      Some (datatype_arg_index cls));
     ("access descriptor", "access_arg_index", Some (access_arg_index cls));
     ("function space", "function_space_arg_index",
      Some (function_space_arg_index cls));
     ("mesh_arg", "mesh_arg_index", mesh_arg_index cls);
     ("function_space_to", "function_space_to_arg_index",
      function_space_to_arg_index cls);
     ("function_space_from", "function_space_from_arg_index",
      function_space_from_arg_index cls)] in
  let at_index (index : nat) :=
    ValueError
      ("At argument index '" +++ str (Z.of_nat index) +++
       "' for metadata '" +++ tree +++ "'. " +++ message) in
  let unexpected :=
    InternalError ("Unexpected error message found '" +++ message +++ "'")
  in
  check_remaining_args cls tree None = Returns tt /\
  check_remaining_args cls tree (Some message) =
    match find (fun row => contains (fst (fst row)) message) indices with
    | Some (_, _, Some index) => Raises (at_index index)
    | Some (_, attribute, None) => Raises (AttributeError attribute)
    | None => Raises unexpected
    end /\
  check_remaining_args cls tree (Some message) <> Returns tt /\
  (check_remaining_args cls tree (Some message) = Raises unexpected <->
   forallb (fun row => negb (contains (fst (fst row)) message)) indices
     = true) /\
  (contains "datatype descriptor" message = true ->
   check_remaining_args cls tree (Some message) =
     Raises (at_index (datatype_arg_index cls))).
Proof.
  intros indices at_index unexpected. subst indices at_index unexpected.
  unfold check_remaining_args, attribute. cbn [find forallb fst snd].
  split; [reflexivity |].
  repeat match goal with
         | |- context [contains ?keyword message] =>
             destruct (contains keyword message) eqn:?
         end;
    destruct (mesh_arg_index cls), (function_space_to_arg_index cls),
      (function_space_from_arg_index cls);
    cbn [negb andb];
    (split; [reflexivity |]); (split; [discriminate |]);
    (split; [split; intros; first [reflexivity | discriminate] |]);
    intros; first [reflexivity | discriminate].
Qed.

End MetaArgChecks.

(** * The results on sample kernels *)

#[local] Existing Instance Sample.collaborators.

Lemma sample_kern_args_contract :
  @kern_args_contract Sample.Table Sample.collaborators.
Proof.
  intros va w names w' H. cbn in H.
  unfold Sample.nfaces_kern_args, bind, with_symtab, psyir_append,
    update_self, ret in H.
  destruct (Sample.find_or_declare _ _ _ _) as [sym t] in H.
  inversion H. subst. unfold n_args, n_nodes. cbn.
  rewrite length_app. cbn. lia.
Qed.

(** A traversal of nine emit calls on a coloured kernel: the two lists
    have the same length at each of its observation points. *)
Lemma lists_in_sync_witness :
  let ops :=
    [Cell_position; Mesh_height; Field Sample.f1; Field_vector Sample.chi;
     Cma_operator Sample.cma_op1; Mesh_properties; Fs_common Sample.w1;
     Basis Sample.w1; Quad_rule] in
  let w := Sample.fresh Sample.kern_coloured in
  Forall (op_contract (C := Sample.collaborators)) ops /\
  in_sync w /\
  Forall in_sync (observations (C := Sample.collaborators) ops true w).
Proof.
  intros ops w.
  assert (Forall (op_contract (C := Sample.collaborators)) ops) as Hc.
  { repeat (constructor;
            [first [exact I | exact sample_kern_args_contract] |]).
    constructor. }
  split; [exact Hc |]. split; [reflexivity |].
  apply lists_in_sync_at_every_observation; [exact Hc | reflexivity].
Defined.

Example nine_calls_nine_observations :
  map (fun w => (n_args w, n_nodes w))
    (observations (C := Sample.collaborators)
       [Cell_position; Mesh_height; Field Sample.f1; Field_vector Sample.chi;
        Cma_operator Sample.cma_op1; Mesh_properties; Fs_common Sample.w1;
        Basis Sample.w1; Quad_rule] true
       (Sample.fresh Sample.kern_coloured)) =
  [(1, 1); (2, 2); (3, 3); (6, 6); (14, 14); (15, 15); (16, 16); (21, 21);
   (28, 28)].
Proof. vm_compute. reflexivity. Qed.

Example fresh_orderer_refuses_queries :
  fst (nlayers_positions (Sample.fresh Sample.kern_coloured)) =
    Raise (InternalError
             "KernCallArgList: the generate() method should be called before the nlayers_positions() method") /\
  fst (bind (generate (C := Sample.collaborators)
               [Mesh_height; Fs_common Sample.w1; Quad_rule] true)
         (fun _ =>
            bind nlayers_positions (fun l =>
            bind nqp_positions (fun q =>
            bind ndf_positions (fun d => ret (l, q, d)))))
         (Sample.fresh Sample.kern_coloured)) =
    Ok ([1],
        [[("horizontal", 3); ("vertical", 4)]],
        [{| position := 2; function_space := "w1" |}]).
Proof. split; vm_compute; reflexivity. Qed.

Example coloured_cell_position_logs_three_reads :
  let w' :=
    snd (cell_position (C := Sample.collaborators) true
           (Sample.fresh Sample.kern_coloured)) in
  _arglist (self w') = ["cmap(colour,cell)"] /\
  map (fun e => (signature e, access_kind e)) (accesses w') =
    [(Sig "colour", READ); (Sig "cell", READ); (Sig "cmap", READ)].
Proof. split; vm_compute; reflexivity. Qed.

Lemma field_vector_witness :
  let w := Sample.fresh Sample.kern_coloured in
  (0 <= vector_size Sample.chi)%Z /\
  exists sym wt w',
    get_user_type (C := Sample.collaborators) "field_mod" "field_proxy_type"
      "chi_proxy" None [Literal (str 3) INTEGER_SINGLE_TYPE] w =
      (Ok sym, wt) /\
    field_vector Sample.chi true w = (Ok tt, w') /\
    emitted w w'
      (map (fun idx => sym_name sym +++ "(" +++ str idx +++ ")%data")
         (range 1 (3 + 1)))
      (map (fun idx =>
              ArrayOfStructuresReference sym
                [Literal (str idx) INTEGER_SINGLE_TYPE] ["data"])
         (range 1 (3 + 1)))
      [event w "chi" READ None] /\
    range 1 (3 + 1) = map Z.of_nat (seq 1 (Z.to_nat 3)) /\
    Z.of_nat (n_args w') = (Z.of_nat (n_args w) + 3)%Z /\
    Z.of_nat (n_nodes w') = (Z.of_nat (n_nodes w) + 3)%Z.
Proof.
  intros w. split; [cbn; lia |].
  apply (@field_vector_one_access _ Sample.collaborators Sample.chi true w).
  cbn. lia.
Defined.

Example field_vector_of_three :
  let w' :=
    snd (field_vector (C := Sample.collaborators) Sample.chi true
           (Sample.fresh Sample.kern_coloured)) in
  _arglist (self w') =
    ["chi_proxy(1)%data"; "chi_proxy(2)%data"; "chi_proxy(3)%data"] /\
  map (fun e => (signature e, access_kind e)) (accesses w') =
    [(Sig "chi", READ)].
Proof. split; vm_compute; reflexivity. Qed.

Lemma cma_operator_witness :
  let w := Sample.fresh Sample.kern_coloured in
  Forall (fun c => c <> "matrix")
    (cma_diff_fs_params (Collaborators := Sample.collaborators)) /\
  exists matrix_sym t aux_syms w',
    find_or_create_array (Collaborators := Sample.collaborators)
      (_symtab (self w)) ("cma_op1" +++ "_" +++ "matrix") 3 REAL
      ("cma_op1" +++ "_" +++ "matrix") = (matrix_sym, t) /\
    Forall2 (parameter_symbol Sample.cma_op1)
      (cma_diff_fs_params (Collaborators := Sample.collaborators))
      aux_syms /\
    cma_operator Sample.cma_op1 true w = (Ok tt, w') /\
    emitted w w'
      (sym_name matrix_sym :: map sym_name aux_syms)
      (ArrayReference matrix_sym [Range; Range; Range]
         :: map Reference aux_syms)
      (event w (sym_name matrix_sym) READWRITE None
         :: map (fun sym => event w (sym_name sym) READ None) aux_syms).
Proof.
  intros w.
  assert (Forall (fun c => c <> "matrix")
            (cma_diff_fs_params (Collaborators := Sample.collaborators)))
    as Haux.
  { cbn. repeat (constructor; [discriminate |]). constructor. }
  split; [exact Haux |].
  apply (@cma_operator_matrix_then_parameters _ Sample.collaborators
           Sample.cma_op1 true w).
  exact Haux.
Defined.

Example cma_operator_on_one_space :
  let w' :=
    snd (cma_operator (C := Sample.collaborators) Sample.cma_op2 true
           (Sample.fresh Sample.kern_coloured)) in
  _arglist (self w') =
    ["cma_op2_matrix"; "cma_op2_nrow"; "cma_op2_bandwidth"; "cma_op2_alpha";
     "cma_op2_beta"; "cma_op2_gamma_m"; "cma_op2_gamma_p"] /\
  map access_kind (accesses w') =
    [WRITE; READ; READ; READ; READ; READ; READ].
Proof. split; vm_compute; reflexivity. Qed.

(** The two parameter lists are not disjoint: with the lists of the
    sample, the different-spaces list is the same-space list with [ncol]
    added, and [cma_operator] pushes [<name>_nrow], among others, both for
    an operator between two spaces and for an operator on one space. *)
Lemma cma_parameter_sets_share_names :
  let w := Sample.fresh Sample.kern_coloured in
  let differ :=
    cma_operator (C := Sample.collaborators) Sample.cma_op1 true w in
  let same :=
    cma_operator (C := Sample.collaborators) Sample.cma_op2 true w in
  let diff_params :=
    cma_diff_fs_params (Collaborators := Sample.collaborators) in
  let same_params :=
    cma_same_fs_params (Collaborators := Sample.collaborators) in
  orig_name (function_space_to Sample.cma_op1) <>
    orig_name (function_space_from Sample.cma_op1) /\
  orig_name (function_space_to Sample.cma_op2) =
    orig_name (function_space_from Sample.cma_op2) /\
  diff_params =
    ["nrow"; "ncol"; "bandwidth"; "alpha"; "beta"; "gamma_m"; "gamma_p"] /\
  same_params =
    ["nrow"; "bandwidth"; "alpha"; "beta"; "gamma_m"; "gamma_p"] /\
  fst differ = Ok tt /\
  fst same = Ok tt /\
  _arglist (self (snd differ)) =
    map (fun p => "cma_op1" +++ "_" +++ p) ("matrix" :: diff_params) /\
  _arglist (self (snd same)) =
    map (fun p => "cma_op2" +++ "_" +++ p) ("matrix" :: same_params) /\
  In "nrow" diff_params /\
  In "nrow" same_params /\
  ~ (forall p, In p diff_params -> ~ In p same_params).
Proof.
  intros w differ same diff_params same_params.
  split; [vm_compute; discriminate |].
  repeat (split; [vm_compute; reflexivity |]).
  assert (In "nrow" diff_params) as Hd by (left; reflexivity).
  assert (In "nrow" same_params) as Hs by (left; reflexivity).
  split; [exact Hd |]. split; [exact Hs |].
  intros H. exact (H "nrow" Hd Hs).
Qed.

Example basis_two_rules_three_targets :
  let w' :=
    snd (basis (C := Sample.collaborators) Sample.w1 true
           (Sample.fresh Sample.kern_coloured)) in
  n_args w' = 2 + 3 /\ n_nodes w' = 2 + 3.
Proof. split; vm_compute; reflexivity. Qed.

Lemma quad_rule_rejects_witness :
  let w := Sample.fresh Sample.kern_unknown_shape in
  let pre := [("gh_quadrature_xyoz", Sample.qr_xyoz)] in
  let w1 := snd (quad_rule_items (C := Sample.collaborators) pre true w) in
  str_in "gh_quadrature_vertex" supported_qr_shapes = false /\
  qr_rules (_kern (self w)) =
    pre ++ [("gh_quadrature_vertex", Sample.qr_face)] /\
  quad_rule_items pre true w = (Ok tt, w1) /\
  quad_rule true w = (Raise (unsupported_shape "gh_quadrature_vertex"), w1).
Proof.
  intros w pre w1.
  split; [reflexivity |]. split; [reflexivity |].
  split; [vm_compute; reflexivity |].
  apply (@quad_rule_rejects_unsupported_shape _ Sample.collaborators pre
           "gh_quadrature_vertex" Sample.qr_face [] true w w1).
  - reflexivity.
  - reflexivity.
  - vm_compute. reflexivity.
Defined.

(** The kernel declares a shape outside the supported set, [quad_rule]
    raises the NotImplementedError, and yet four arguments, their four
    nodes and one position entry have been pushed: those of the XYoZ rule
    that comes first in [qr_rules]. *)
Lemma quad_rule_pushes_before_rejecting :
  let w := Sample.fresh Sample.kern_unknown_shape in
  let r := quad_rule (C := Sample.collaborators) true w in
  In "gh_quadrature_vertex" (map fst (qr_rules (_kern (self w)))) /\
  str_in "gh_quadrature_vertex" supported_qr_shapes = false /\
  fst r = Raise (unsupported_shape "gh_quadrature_vertex") /\
  _arglist (self w) = [] /\
  _arglist (self (snd r)) =
    ["np_xy_qr_xyoz"; "np_z_qr_xyoz"; "weights_xy_qr_xyoz";
     "weights_z_qr_xyoz"] /\
  n_nodes (snd r) = 4 /\
  _nqp_positions (self (snd r)) = [[("horizontal", 1); ("vertical", 2)]] /\
  _arglist (self (snd r)) <> _arglist (self w).
Proof.
  intros w r.
  split; [cbn; auto |].
  repeat (split; [vm_compute; reflexivity |]).
  vm_compute. discriminate.
Qed.

Lemma field_witness :
  let w := Sample.fresh Sample.kern_coloured in
  name Sample.f1 <> "" /\
  exists sym wt w',
    get_user_type (C := Sample.collaborators) "field_mod" "field_proxy_type"
      "f1_proxy" None [] w = (Ok sym, wt) /\
    field Sample.f1 true w = (Ok tt, w') /\
    emitted w w' ["f1_proxy" +++ "%data"] [StructureReference sym ["data"]]
      [event w "f1" WRITE None].
Proof.
  intros w. split; [cbn; discriminate |].
  apply (@field_access_under_field_name _ Sample.collaborators Sample.f1
           true w).
  cbn. discriminate.
Defined.

Example field_logged_under_its_own_name :
  let w' :=
    snd (field (C := Sample.collaborators) Sample.f1 true
           (Sample.fresh Sample.kern_coloured)) in
  _arglist (self w') = ["f1_proxy%data"] /\
  _psyir_arglist (self w') =
    [StructureReference
       {| sym_name := "f1_proxy"; symbol_type := DataSymbol |} ["data"]] /\
  map (fun e => (signature e, access_kind e)) (accesses w') =
    [(Sig "f1", WRITE)].
Proof. repeat split; vm_compute; reflexivity. Qed.

Lemma fs_common_witness :
  let w := Sample.fresh Sample.kern_dof in
  iterates_over (_kern (self w)) <> "cell_column" /\
  iterates_over (_kern (self w)) <> "domain" /\
  fs_common (C := Sample.collaborators) Sample.w1 true w = (Ok tt, w) /\
  mesh_height (C := Sample.collaborators) true w = (Ok tt, w).
Proof.
  intros w. split; [cbn; discriminate |]. split; [cbn; discriminate |].
  apply (@fs_common_skips_other_domains _ Sample.collaborators Sample.w1
           true w); cbn; discriminate.
Defined.

Example xyoz_then_face_positions :
  _nqp_positions
    (self (snd (bind (cell_position (C := Sample.collaborators) true)
                  (fun _ => quad_rule true)
                  (Sample.fresh Sample.kern_coloured)))) =
  [[("horizontal", 2); ("vertical", 3)]].
Proof. vm_compute. reflexivity. Qed.

(** * Further results on sample kernels *)

Lemma sample_kern_args_steps :
  @kern_args_steps Sample.Table Sample.collaborators.
Proof.
  intros va w. cbn.
  unfold Sample.nfaces_kern_args, bind, with_symtab, psyir_append,
    update_self, ret.
  destruct (Sample.find_or_declare _ _ _ _) as [sym t]. cbn [snd].
  eapply steps_intro with (names := []) (nq := []) (events := []);
    cbn; try reflexivity; rewrite ?app_nil_r; reflexivity.
Qed.

Lemma emit_only_appends_witness :
  let w := Sample.fresh Sample.kern_coloured in
  op_steps_contract Mesh_properties /\
  advances true w (snd (emit Mesh_properties true w)).
Proof.
  intros w. split; [exact sample_kern_args_steps |].
  apply (@emit_only_appends _ Sample.collaborators Mesh_properties true w).
  exact sample_kern_args_steps.
Defined.

Lemma emit_without_log_witness :
  let w := Sample.fresh Sample.kern_coloured in
  op_steps_contract Mesh_properties /\
  accesses (snd (emit Mesh_properties false w)) = accesses w.
Proof.
  intros w. split; [exact sample_kern_args_steps |].
  apply (@emit_without_log_is_silent _ Sample.collaborators Mesh_properties
           w).
  exact sample_kern_args_steps.
Defined.

Lemma sample_traversal_contracts :
  Forall (op_steps_contract (C := Sample.collaborators))
    [Cell_position; Mesh_height; Field Sample.f1; Field_vector Sample.chi;
     Cma_operator Sample.cma_op1; Mesh_properties; Fs_common Sample.w1;
     Basis Sample.w1; Quad_rule].
Proof.
  repeat (constructor; [first [exact I | exact sample_kern_args_steps] |]).
  constructor.
Qed.

Lemma positions_stay_in_range_witness :
  let ops :=
    [Cell_position; Mesh_height; Field Sample.f1; Field_vector Sample.chi;
     Cma_operator Sample.cma_op1; Mesh_properties; Fs_common Sample.w1;
     Basis Sample.w1; Quad_rule] in
  let w := Sample.fresh Sample.kern_coloured in
  Forall op_steps_contract ops /\
  positions_in_range w /\
  Forall positions_in_range (observations ops true w).
Proof.
  intros ops w.
  assert (positions_in_range w) as Hw by (split; constructor).
  split; [exact sample_traversal_contracts |]. split; [exact Hw |].
  apply (@positions_stay_in_range _ Sample.collaborators ops true w);
    [exact sample_traversal_contracts | exact Hw].
Defined.

Lemma traversal_stays_open_witness :
  let ops :=
    [Cell_position; Mesh_height; Field Sample.f1; Field_vector Sample.chi;
     Cma_operator Sample.cma_op1; Mesh_properties; Fs_common Sample.w1;
     Basis Sample.w1; Quad_rule] in
  let w := Sample.fresh Sample.kern_coloured in
  Forall op_steps_contract ops /\
  _generate_called (self w) = false /\
  Forall
    (fun w' =>
       fst (nlayers_positions w') =
         Raise (generate_not_called "nlayers_positions") /\
       fst (nqp_positions w') = Raise (generate_not_called "nqp_positions")
       /\
       fst (ndf_positions w') = Raise (generate_not_called "ndf_positions"))
    (observations ops true w).
Proof.
  intros ops w.
  split; [exact sample_traversal_contracts |]. split; [reflexivity |].
  apply (@traversal_stays_open _ Sample.collaborators ops true w);
    [exact sample_traversal_contracts | reflexivity].
Defined.

Lemma mesh_height_witness :
  let w := Sample.fresh Sample.kern_coloured in
  (iterates_over (_kern (self w)) = "cell_column" \/
   iterates_over (_kern (self w)) = "domain") /\
  exists w',
    mesh_height true w = (Ok tt, w') /\
    _arglist (self w') = _arglist (self w) ++ ["nlayers"] /\
    _psyir_arglist (self w') =
      _psyir_arglist (self w) ++ [Reference (Sample.data "nlayers")] /\
    accesses w' = accesses w ++ [event w "nlayers" READ None] /\
    _nlayers_positions (self w') =
      _nlayers_positions (self w) ++ [n_args w + 1] /\
    nth_error (_arglist (self w')) (n_args w + 1 - 1) = Some "nlayers".
Proof.
  intros w. split; [left; reflexivity |].
  apply (@mesh_height_records_where_nlayers_is _ Sample.collaborators true
           w).
  left. reflexivity.
Defined.

Lemma fs_common_position_witness :
  let w := Sample.fresh Sample.kern_coloured in
  let w' := snd (fs_common Sample.w1 true w) in
  (iterates_over (_kern (self w)) = "cell_column" \/
   iterates_over (_kern (self w)) = "domain") /\
  fs_common Sample.w1 true w = (Ok tt, w') /\
  _ndf_positions (self w') =
    _ndf_positions (self w) ++
    [{| position := n_args w'; function_space := "w1" |}] /\
  n_args w' = n_args w + 1 /\
  n_nodes w' = n_nodes w + 1.
Proof.
  intros w w'.
  assert (fs_common Sample.w1 true w = (Ok tt, w')) as Hrun
    by (vm_compute; reflexivity).
  split; [left; reflexivity |]. split; [exact Hrun |].
  apply (@fs_common_records_last_position _ Sample.collaborators Sample.w1
           true w tt w'); [left; reflexivity | exact Hrun].
Defined.

Lemma quad_rule_arguments_witness :
  let w := Sample.fresh Sample.kern_coloured in
  let w' := snd (quad_rule true w) in
  let pushed :=
    ["np_xy_qr_xyoz"; "np_z_qr_xyoz"; "weights_xy_qr_xyoz";
     "weights_z_qr_xyoz"; "nfaces_qr_face"; "np_xyz_qr_face";
     "weights_xyz_qr_face"] in
  quad_rule true w = (Ok tt, w') /\
  _arglist (self w') = _arglist (self w) ++ pushed /\
  accesses w' = accesses w ++ map (fun v => event w v READ None) pushed.
Proof.
  intros w w' pushed.
  assert (quad_rule true w = (Ok tt, w')) as Hrun
    by (vm_compute; reflexivity).
  split; [exact Hrun |].
  apply (@quad_rule_pushes_rule_arguments _ Sample.collaborators true w tt
           w' Hrun).
Defined.

Lemma xyoz_positions_witness :
  let w := Sample.fresh Sample.kern_coloured in
  let w' :=
    snd (quad_rule_item ("gh_quadrature_xyoz", Sample.qr_xyoz) true w) in
  quad_rule_item ("gh_quadrature_xyoz", Sample.qr_xyoz) true w
    = (Ok tt, w') /\
  _nqp_positions (self w') =
    _nqp_positions (self w) ++
    [[("horizontal", n_args w + 1); ("vertical", n_args w + 2)]] /\
  nth_error (_arglist (self w')) (n_args w + 1 - 1) =
    nth_error (kernel_args Sample.qr_xyoz) 0 /\
  nth_error (_arglist (self w')) (n_args w + 2 - 1) =
    nth_error (kernel_args Sample.qr_xyoz) 1.
Proof.
  intros w w'.
  assert (quad_rule_item ("gh_quadrature_xyoz", Sample.qr_xyoz) true w
          = (Ok tt, w')) as Hrun by (vm_compute; reflexivity).
  split; [exact Hrun |].
  apply (@xyoz_positions_index_first_two_arguments _ Sample.collaborators
           Sample.qr_xyoz true w tt w' Hrun).
Defined.

Lemma unknown_argument_witness :
  let w := Sample.fresh Sample.kern_coloured in
  str_in "gh_quadrature_face" supported_qr_shapes = true /\
  kernel_args Sample.qr_bogus = ["np_xy_qr"] ++ "bogus_qr" :: ["np_z_qr"] /\
  forallb (recognised Sample.qr_bogus) ["np_xy_qr"] = true /\
  recognised Sample.qr_bogus "bogus_qr" = false /\
  exists w',
    quad_rule_item ("gh_quadrature_face", Sample.qr_bogus) true w =
      (Raise (InternalError
                ("Found invalid kernel argument '" +++ "bogus_qr" +++ "'.")),
       w') /\
    n_args w' = n_args w + List.length (kernel_args Sample.qr_bogus) /\
    n_nodes w' = n_nodes w + List.length ["np_xy_qr"].
Proof.
  intros w. repeat (split; [reflexivity |]).
  apply (@quad_rule_stops_at_unknown_argument _ Sample.collaborators
           "gh_quadrature_face" Sample.qr_bogus ["np_xy_qr"] "bogus_qr"
           ["np_z_qr"] true w); reflexivity.
Defined.

Lemma suffixed_names_witness :
  let w := Sample.fresh Sample.kern_coloured in
  let generics := ["np_xy"; "weights_xyz"; "nedges"] in
  let rule :=
    {| psy_name := "qr";
       kernel_args := map (fun g => g +++ "_" +++ "qr") generics |} in
  forallb (fun g => str_in g known_generic_names) generics = true /\
  exists w',
    quad_rule_psyir rule w = (Ok tt, w') /\
    _arglist (self w') = _arglist (self w) /\
    n_nodes w' = n_nodes w + List.length generics.
Proof.
  intros w generics rule. split; [reflexivity |].
  apply (@suffixed_known_names_are_accepted _ Sample.collaborators "qr"
           generics w).
  reflexivity.
Defined.

Lemma literal_scalar_witness :
  let w := Sample.fresh Sample.kern_coloured in
  is_literal Sample.one_literal = true /\
  exists w',
    scalar Sample.one_literal true w = (Ok tt, w') /\
    emitted w w' ["1.0_r_def"] [Parsed "1.0_r_def"] [].
Proof.
  intros w. split; [reflexivity |].
  apply (@literal_scalar_is_never_logged _ Sample.collaborators
           Sample.one_literal true w).
  reflexivity.
Defined.

Lemma named_scalar_witness :
  let w := Sample.fresh Sample.kern_coloured in
  is_literal Sample.alpha = false /\
  exists w',
    scalar Sample.alpha true w = (Raise (KeyError "alpha"), w') /\
    emitted w w' ["alpha"] [] [event w "alpha" INC None].
Proof.
  intros w. split; [reflexivity |].
  apply (@named_scalar_needs_its_symbol _ Sample.collaborators Sample.alpha
           true w).
  reflexivity.
Defined.

Lemma whole_map_witness :
  let w := Sample.fresh Sample.kern_domain in
  iterates_over (_kern (self w)) = "domain" /\
  exists w',
    fs_compulsory_field Sample.w1 true w = (Ok tt, w') /\
    emitted w w'
      ["undf_w1"; "map_w1"]
      [Reference (Sample.data "undf_w1");
       ArrayReference (Sample.data "map_w1") [Range; Range]]
      [event w "undf_w1" READ None; event w "map_w1" READ None].
Proof.
  intros w. split; [reflexivity |].
  apply (@fs_compulsory_field_whole_map_for_domain _ Sample.collaborators
           Sample.w1 true w).
  reflexivity.
Defined.

Lemma column_map_witness :
  let w := Sample.fresh Sample.kern_unknown_shape in
  let undf := Sample.data "undf_w1" in
  let cell := Sample.data "cell" in
  let dofmap := Sample.data "map_w1" in
  let t1 := [("undf_w1", undf)] in
  let t2 := ("cell_loop_idx", cell) :: t1 in
  let t3 := ("map_w1", dofmap) :: t2 in
  iterates_over (_kern (self w)) <> "domain" /\
  is_coloured (_kern (self w)) = false /\
  find_or_create_integer_symbol (_symtab (self w)) "undf_w1"
    (Some "undf_w1") = (undf, t1) /\
  find_or_create_integer_symbol t1 "cell" (Some "cell_loop_idx")
    = (cell, t2) /\
  find_or_create_array t2 "map_w1" 2 INTEGER "map_w1" = (dofmap, t3) /\
  sym_name dofmap <> "" /\
  exists w',
    fs_compulsory_field Sample.w1 true w = (Ok tt, w') /\
    emitted w w'
      [sym_name undf; sym_name dofmap +++ "(:," +++ sym_name cell +++ ")"]
      [Reference undf; ArrayReference dofmap [Range; Reference cell]]
      [event w (sym_name undf) READ None;
       event w "cell" READ None;
       event w (sym_name dofmap) READ None].
Proof.
  intros w undf cell dofmap t1 t2 t3.
  split; [cbn; discriminate |]. split; [reflexivity |].
  split; [reflexivity |]. split; [reflexivity |]. split; [reflexivity |].
  split; [cbn; discriminate |].
  apply (@fs_compulsory_field_column_for_cell _ Sample.collaborators
           Sample.w1 w undf t1 cell t2 dofmap t3);
    first [reflexivity | cbn; discriminate].
Defined.

Lemma stencil_witness :
  let w := Sample.fresh Sample.kern_unknown_shape in
  let var_sym := Sample.data "f1_stencil_dofmap" in
  let cell := Sample.data "cell" in
  let t0 := [("f1_stencil_dofmap", var_sym)] in
  let t1 := ("cell_loop_idx", cell) :: t0 in
  is_coloured (_kern (self w)) = false /\
  dofmap_symbol (_symtab (self w)) Sample.f1 = (var_sym, t0) /\
  find_or_create_integer_symbol t0 "cell" (Some "cell_loop_idx")
    = (cell, t1) /\
  sym_name var_sym <> "" /\
  (exists w',
     stencil Sample.f1 true w = (Ok tt, w') /\
     emitted w w'
       [sym_name var_sym +++ "(:,:," +++ sym_name cell +++ ")"]
       [ArrayReference var_sym [Range; Range; Reference cell]]
       [event w "cell" READ None; event w (sym_name var_sym) READ None]) /\
  (exists w',
     stencil_2d Sample.f1 true w = (Ok tt, w') /\
     emitted w w'
       [sym_name var_sym +++ "(:,:,:," +++ sym_name cell +++ ")"]
       [ArrayReference var_sym [Range; Range; Range; Reference cell]]
       [event w "cell" READ None; event w (sym_name var_sym) READ None]).
Proof.
  intros w var_sym cell t0 t1.
  split; [reflexivity |]. split; [reflexivity |]. split; [reflexivity |].
  split; [cbn; discriminate |].
  apply (@stencil_dofmap_is_logged_under_symbol_name _ Sample.collaborators
           Sample.f1 w var_sym t0 cell t1);
    first [reflexivity | cbn; discriminate].
Defined.

Lemma vector_length_witness :
  CommonMetaArgMetadata.count CommonMetaArgMetadata.star "gh_field" = 0 /\
  CommonMetaArgMetadata.count CommonMetaArgMetadata.star " 3 " = 0 /\
  CommonMetaArgMetadata.get_and_check_vector_length
    CommonMetaArgMetadata.strip_spaces ("gh_field" +++ "*" +++ " 3 ") =
    CommonMetaArgMetadata.Returns
      (CommonMetaArgMetadata.strip_spaces " 3 ").
Proof.
  split; [reflexivity |]. split; [reflexivity |].
  apply (vector_length_is_the_part_after_the_star
           CommonMetaArgMetadata.strip_spaces "gh_field" " 3 ");
    reflexivity.
Defined.

Example vector_length_examples :
  CommonMetaArgMetadata.get_and_check_vector_length
    CommonMetaArgMetadata.strip_spaces "gh_field * 3" =
    CommonMetaArgMetadata.Returns "3" /\
  CommonMetaArgMetadata.get_and_check_vector_length
    CommonMetaArgMetadata.strip_spaces "gh_field" =
    CommonMetaArgMetadata.Raises
      (CommonMetaArgMetadata.TypeError
         "The vector length metadata should be in the form 'form*vector_length' but found 'gh_field'.") /\
  CommonMetaArgMetadata.split CommonMetaArgMetadata.star "a*b*c" =
    ["a"; "b"; "c"] /\
  CommonMetaArgMetadata.split CommonMetaArgMetadata.star "" = [""].
Proof. repeat split; vm_compute; reflexivity. Qed.

Lemma check_first_arg_witness :
  let cls :=
    {| CommonMetaArgMetadata.form_arg_index := 0;
       CommonMetaArgMetadata.vector_length_arg_index := 0;
       CommonMetaArgMetadata.datatype_arg_index := 1;
       CommonMetaArgMetadata.access_arg_index := 2;
       CommonMetaArgMetadata.function_space_arg_index := 3;
       CommonMetaArgMetadata.form := "gh_field";
       CommonMetaArgMetadata.mesh_arg_index := None;
       CommonMetaArgMetadata.function_space_to_arg_index := None;
       CommonMetaArgMetadata.function_space_from_arg_index := None |} in
  CommonMetaArgMetadata.count CommonMetaArgMetadata.star "gh_scalar" = 0 /\
  CommonMetaArgMetadata.check_first_arg CommonMetaArgMetadata.strip_spaces
    (fun x => x) cls ("gh_scalar" +++ "*" +++ "3") "field vector" true =
  CommonMetaArgMetadata.check_first_arg CommonMetaArgMetadata.strip_spaces
    (fun x => x) cls "gh_scalar" "field vector" true.
Proof.
  intros cls. split; [reflexivity |].
  apply (check_first_arg_ignores_vector_length
           CommonMetaArgMetadata.strip_spaces (fun x => x) cls "gh_scalar"
           "3" "field vector").
  reflexivity.
Defined.
